(** * digest.py: the NBER IO digest pipeline

    A shallow embedding of [src/digest.py]: the feed normalizer
    ([clean_html], [fetch_new_io_papers]), the structured extractor
    ([parse_groq_json], [summarize_with_groq]), the report composer
    ([build_email]) and the orchestrating [main].

    Python text is a sequence of Unicode code points; a code point is a
    natural number here, so every Python [str] is a value of [str].
    Python functions are computations over an explicit world (the state
    of the collaborators reached over the network, and standard output)
    that either return a value or raise an exception.  The behaviour of
    the libraries the program calls ([re], [json], [str], bs4) is
    written out from their reference implementations; what the
    libraries do beyond the reach of the embedding (binary
    floating point, [repr] of text, messages of exceptions, the network)
    is a parameter of the development.  Limits of the interpreter
    (recursion depth, memory, the number of digits of an [int]) are not
    modelled, and writing to standard output does not fail.

    The assignments at the top of the module, which read the settings
    from the environment, are [load_module]. *)

From Stdlib Require Import String Ascii DecimalString.
From Stdlib Require Import List NArith ZArith Bool Arith Lia Permutation.
Import ListNotations.

Local Open Scope N_scope.
Local Open Scope list_scope.

(* ===================================================================== *)
(** ** Text *)
(* ===================================================================== *)

(** A code point, and Python's [str]. *)
Definition char : Type := N.
Definition str : Type := list char.

Definition ord (a : ascii) : char := N_of_ascii a.

(** A literal of the source, character by character. *)
Definition lit (s : string) : str := map ord (list_ascii_of_string s).
Arguments lit s%_string : simpl never.

(** The literal [s] with every apostrophe replaced by a double quote:
    JSON texts are written with apostrophes in this file. *)
Definition dq (s : string) : str :=
  map (fun c => if c =? 39 then 34 else c) (lit s).
Arguments dq s%_string.

Definition LF : char := 10.
Definition BACKTICK : char := 96.
Definition QUOTE : char := 34.
Definition BACKSLASH : char := 92.

(** [str.isspace] on one code point ([Py_UNICODE_ISSPACE]): the class
    [str.strip] removes and the pattern [\s] matches on text. *)
Definition isspace (c : char) : bool :=
  ((9 <=? c) && (c <=? 13)) || ((28 <=? c) && (c <=? 32))
  || (c =? 133) || (c =? 160) || (c =? 5760)
  || ((8192 <=? c) && (c <=? 8202))
  || (c =? 8232) || (c =? 8233) || (c =? 8239) || (c =? 8287)
  || (c =? 12288).

Fixpoint lstrip (s : str) : str :=
  match s with
  | c :: s' => if isspace c then lstrip s' else s
  | [] => []
  end.

Definition rstrip (s : str) : str := rev (lstrip (rev s)).

(** [s.strip()] *)
Definition strip (s : str) : str := rstrip (lstrip s).

(** [sep.join(l)] *)
Fixpoint join (sep : str) (l : list str) : str :=
  match l with
  | [] => []
  | [x] => x
  | x :: l' => x ++ sep ++ join sep l'
  end.

(** [str(n)] of a non-negative and of an arbitrary [int]. *)
Definition str_of_nat (n : nat) : str :=
  lit (NilEmpty.string_of_uint (Nat.to_uint n)).

Definition str_of_int (z : Z) : str :=
  lit (NilZero.string_of_int (Z.to_int z)).

(** [s.startswith(p)], returning what follows the prefix. *)
Fixpoint strip_prefix (p s : str) : option str :=
  match p with
  | [] => Some s
  | a :: p' =>
      match s with
      | c :: s' => if c =? a then strip_prefix p' s' else None
      | [] => None
      end
  end.

(** Three backticks in a row somewhere in [s]. *)
Fixpoint has_fence_mark (s : str) : bool :=
  match s with
  | a :: s' =>
      match s' with
      | b :: c :: _ =>
          ((a =? BACKTICK) && (b =? BACKTICK) && (c =? BACKTICK))
          || has_fence_mark s'
      | _ => false
      end
  | [] => false
  end.

(* ===================================================================== *)
(** ** Regular expressions ([re]) *)
(* ===================================================================== *)

(** The fragment of [re]'s pattern language the program uses, matched
    the way [re] matches: by backtracking, alternatives in priority
    order, the first complete match wins. *)
Inductive cls : Type :=
| CAny     (** [.] under [re.DOTALL]: every character *)
| CSpace.  (** [\s] *)

Definition in_cls (k : cls) (c : char) : bool :=
  match k with
  | CAny => true
  | CSpace => isspace c
  end.

Inductive regex : Type :=
| RLit (l : str)            (** literal characters *)
| ROpt (r : regex)          (** [(?:r)?], greedy *)
| RStar (k : cls)           (** [k*], greedy *)
| RLazy (k : cls)           (** [k*?], non-greedy *)
| RGroup (r : regex)        (** [(r)], the capturing group 1 *)
| RSeq (r1 r2 : regex).

Section Matcher.
Context {A : Type}.

(** [k*]: as many characters as possible first, then fewer. *)
Fixpoint star_greedy (k : cls) (s : str) (cont : str -> option A) : option A :=
  match s with
  | c :: s' =>
      if in_cls k c then
        match star_greedy k s' cont with
        | Some a => Some a
        | None => cont s
        end
      else cont s
  | [] => cont s
  end.

(** [k*?]: as few characters as possible first, then more. *)
Fixpoint star_lazy (k : cls) (s : str) (cont : str -> option A) : option A :=
  match cont s with
  | Some a => Some a
  | None =>
      match s with
      | c :: s' => if in_cls k c then star_lazy k s' cont else None
      | [] => None
      end
  end.

(** Match [r] at the start of [s], then the continuation on what is
    left; [g] is the text of group 1 so far. *)
Fixpoint rmatch (r : regex) (s : str) (g : option str)
    (cont : str -> option str -> option A) : option A :=
  match r with
  | RLit l =>
      match strip_prefix l s with
      | Some rest => cont rest g
      | None => None
      end
  | ROpt r1 =>
      match rmatch r1 s g cont with
      | Some a => Some a
      | None => cont s g
      end
  | RStar k => star_greedy k s (fun rest => cont rest g)
  | RLazy k => star_lazy k s (fun rest => cont rest g)
  | RGroup r1 =>
      rmatch r1 s g
        (fun rest _ => cont rest (Some (firstn (length s - length rest) s)))
  | RSeq r1 r2 => rmatch r1 s g (fun rest g' => rmatch r2 rest g' cont)
  end.

End Matcher.

(** [re.match(r, s)]: group 1 of a match at the start of [s]
    ([Some None] when the match leaves the group unset). *)
Definition re_match (r : regex) (s : str) : option (option str) :=
  rmatch r s None (fun _ g => Some g).

(** [re.search(r, s)]: the match at the leftmost position that has one. *)
Fixpoint re_search (r : regex) (s : str) : option (option str) :=
  match re_match r s with
  | Some g => Some g
  | None =>
      match s with
      | _ :: s' => re_search r s'
      | [] => None
      end
  end.

(** The pattern of [parse_groq_json], with [flags=re.DOTALL]:
    three backticks, [(?:json)?], [\s*], the group [(\{.*?\})], [\s*],
    three backticks. *)
Definition FENCE_RE : regex :=
  RSeq (RLit (lit "```"))
    (RSeq (ROpt (RLit (lit "json")))
      (RSeq (RStar CSpace)
        (RSeq (RGroup (RSeq (RLit (lit "{")) (RSeq (RLazy CAny) (RLit (lit "}")))))
          (RSeq (RStar CSpace) (RLit (lit "```")))))).

(* ===================================================================== *)
(** ** Exceptions *)
(* ===================================================================== *)

(** The exceptions of the run, all of them instances of [Exception]:
    the class the handler in [main] names. *)
Inductive exception : Type :=
| JSONDecodeError (doc : str)
    (** raised by [json.loads] on [doc] *)
| IntValueError (limit digits : nat)
    (** the plain [ValueError] of [int] on a text of [digits] digits,
        more than the [limit] of [sys.get_int_max_str_digits()] *)
| RecursionError (detail : str)
| TypeError (detail : str)
| AttributeError (type_name attribute : str)
    (** an object of type [type_name] has no [attribute] *)
| IndexError (detail : str)
| LibraryError (class_name detail : str).
    (** raised by a collaborator: the errors of the model client, of
        the feed reader and of the mail relay *)

(** What a call does: it returns a value or raises an exception. *)
Inductive outcome (A : Type) : Type :=
| Returns (a : A)
| Raises (e : exception).
Arguments Returns {A} a.
Arguments Raises {A} e.

(** The settings of the interpreter the decoder meets:
    [sys.get_int_max_str_digits()], 4300 unless it was changed and 0
    for no limit, and the number of arrays and objects, one inside the
    other, that [json.loads] can enter where [parse_groq_json] calls it
    before the recursion limit stops it. *)
Record interpreter : Type := {
  int_max_str_digits : nat;
  json_nesting_limit : nat
}.

(* ===================================================================== *)
(** ** JSON ([json.loads]) *)
(* ===================================================================== *)

(** What [json.loads] returns: [None], [bool], [int], [float], [str],
    [list] and [dict].  A [float] is kept as the text it was read from
    (a number literal or one of the constants [NaN], [Infinity],
    [-Infinity]).  A [dict] keeps its keys in insertion order, each key
    once. *)
#[warnings="-register-all"]
Inductive json : Type :=
| JNull
| JBool (b : bool)
| JInt (z : Z)
| JFloat (literal : str)
| JStr (s : str)
| JList (l : list json)
| JDict (d : list (str * json)).

Fixpoint str_eqb (a b : str) : bool :=
  match a, b with
  | [], [] => true
  | x :: a', y :: b' => (x =? y) && str_eqb a' b'
  | _, _ => false
  end.

(** [d.get(k)] *)
Fixpoint dict_get (k : str) (d : list (str * json)) : option json :=
  match d with
  | [] => None
  | (k', v) :: d' => if str_eqb k k' then Some v else dict_get k d'
  end.

(** [d[k] = v]: a key already present keeps its place. *)
Fixpoint dict_set (k : str) (v : json) (d : list (str * json)) : list (str * json) :=
  match d with
  | [] => [(k, v)]
  | (k', v') :: d' =>
      if str_eqb k k' then (k', v) :: d' else (k', v') :: dict_set k v d'
  end.

Definition is_dict (v : json) : bool :=
  match v with
  | JDict _ => true
  | _ => false
  end.

(** The outcome of a scanner over the text still to be read: a value
    and the text after it; a text that is not JSON; a budget of the
    embedding that ran out; an integer of [digits] digits, too many for
    [int]; an array or an object, opened by [bracket], nested too
    deep. *)
Inductive scan (A : Type) : Type :=
| Scanned (a : A) (rest : str)
| Malformed
| Exhausted
| DigitLimit (digits : nat)
| DepthLimit (bracket : char).
Arguments Scanned {A} a rest.
Arguments Malformed {A}.
Arguments Exhausted {A}.
Arguments DigitLimit {A} digits.
Arguments DepthLimit {A} bracket.

(** The decoder's whitespace: space, tab, line feed, carriage return. *)
Definition is_json_ws (c : char) : bool :=
  (c =? 32) || (c =? 9) || (c =? 10) || (c =? 13).

Fixpoint skip_ws (s : str) : str :=
  match s with
  | c :: s' => if is_json_ws c then skip_ws s' else s
  | [] => []
  end.

Definition isdigit (c : char) : bool := (48 <=? c) && (c <=? 57).

Fixpoint span_digits (s : str) : str * str :=
  match s with
  | c :: s' =>
      if isdigit c then let (ds, r) := span_digits s' in (c :: ds, r)
      else ([], s)
  | [] => ([], [])
  end.

Definition hex_value (c : char) : option N :=
  if (48 <=? c) && (c <=? 57) then Some (c - 48)
  else if (97 <=? c) && (c <=? 102) then Some (c - 87)
  else if (65 <=? c) && (c <=? 70) then Some (c - 55)
  else None.

(** Four hexadecimal digits. *)
Definition hex4 (a b c d : char) : option N :=
  match hex_value a, hex_value b, hex_value c, hex_value d with
  | Some x, Some y, Some z, Some w => Some (((x * 16 + y) * 16 + z) * 16 + w)
  | _, _, _, _ => None
  end.

Definition is_high_surrogate (c : N) : bool := (55296 <=? c) && (c <=? 56319).
Definition is_low_surrogate (c : N) : bool := (56320 <=? c) && (c <=? 57343).
Definition join_surrogates (hi lo : N) : N :=
  65536 + ((hi - 55296) * 1024 + (lo - 56320)).

(** The character a backslash escape other than [\u] stands for. *)
Definition unescape (c : char) : option char :=
  if c =? 34 then Some 34
  else if c =? 92 then Some 92
  else if c =? 47 then Some 47
  else if c =? 98 then Some 8
  else if c =? 102 then Some 12
  else if c =? 110 then Some 10
  else if c =? 114 then Some 13
  else if c =? 116 then Some 9
  else None.

(** [scanstring] in strict mode, from the character after the opening
    quote; [acc] holds the characters decoded so far, last first. *)
Fixpoint scanstring (s : str) (acc : str) : scan str :=
  match s with
  | [] => Malformed
  | c :: s1 =>
      if c =? QUOTE then Scanned (rev acc) s1
      else if c =? BACKSLASH then
        match s1 with
        | [] => Malformed
        | e :: s2 =>
            if e =? 117 then
              match s2 with
              | h1 :: h2 :: h3 :: h4 :: s6 =>
                  match hex4 h1 h2 h3 h4 with
                  | None => Malformed
                  | Some u =>
                      match s6 with
                      | b :: u' :: k1 :: k2 :: k3 :: k4 :: s12 =>
                          if is_high_surrogate u && (b =? BACKSLASH) && (u' =? 117) then
                            match hex4 k1 k2 k3 k4 with
                            | None => Malformed
                            | Some u2 =>
                                if is_low_surrogate u2
                                then scanstring s12 (join_surrogates u u2 :: acc)
                                else scanstring s6 (u :: acc)
                            end
                          else scanstring s6 (u :: acc)
                      | _ => scanstring s6 (u :: acc)
                      end
                  end
              | _ => Malformed
              end
            else
              match unescape e with
              | Some x => scanstring s2 (x :: acc)
              | None => Malformed
              end
        end
      else if c <=? 31 then Malformed
      else scanstring s1 (c :: acc)
  end.

Definition int_of_digits (ds : str) : Z :=
  fold_left (fun a c => (10 * a + Z.of_N (c - 48))%Z) ds 0%Z.

(** The parts of the number pattern, each returning what it matched
    and what follows: an optional minus; an integer part without leading
    zeros; an optional fraction; an optional exponent. *)
Definition scan_exp_sign (s : str) : str * str :=
  match s with
  | x :: t => if (x =? 45) || (x =? 43) then ([x], t) else ([], s)
  | [] => ([], s)
  end.

Definition scan_sign (s : str) : str * str :=
  match s with
  | c :: t => if c =? 45 then ([c], t) else ([], s)
  | [] => ([], s)
  end.

Definition scan_int (s : str) : option (str * str) :=
  match s with
  | c :: t =>
      if (49 <=? c) && (c <=? 57) then
        let (ds, r) := span_digits t in Some (c :: ds, r)
      else if c =? 48 then Some ([c], t)
      else None
  | [] => None
  end.

Definition scan_frac (s : str) : str * str :=
  match s with
  | p :: d :: t =>
      if (p =? 46) && isdigit d then
        let (fs, r) := span_digits t in (p :: d :: fs, r)
      else ([], s)
  | _ => ([], s)
  end.

Definition scan_exp (s : str) : str * str :=
  match s with
  | e :: t =>
      if (e =? 101) || (e =? 69) then
        let (sg, t') := scan_exp_sign t in
        match span_digits t' with
        | ([], _) => ([], s)
        | (es, r) => (e :: sg ++ es, r)
        end
      else ([], s)
  | [] => ([], s)
  end.

(** [int] refuses a text of [digits] digits when the limit is set and
    the text is longer than the limit (a limit is at least 640). *)
Definition too_many_digits (limit digits : nat) : bool :=
  (0 <? limit)%nat && (640 <? digits)%nat && (limit <? digits)%nat.

(** The number pattern.  The match is an [int] when it has neither
    fraction nor exponent, a [float] otherwise; [float] has no limit on
    the digits, [int] has [limit]. *)
Definition match_number (limit : nat) (s : str) : scan json :=
  let (sign, s0) := scan_sign s in
  match scan_int s0 with
  | None => Malformed
  | Some (ds, r) =>
      let (frac, r1) := scan_frac r in
      let (expo, r2) := scan_exp r1 in
      match frac, expo with
      | [], [] =>
          if too_many_digits limit (length ds) then DigitLimit (length ds)
          else
            Scanned (JInt (match sign with
                           | [] => int_of_digits ds
                           | _ :: _ => (- int_of_digits ds)%Z
                           end)) r2
      | _, _ => Scanned (JFloat (sign ++ ds ++ frac ++ expo)) r2
      end
  end.

(** The constants and the literals the scanner knows by name. *)
Definition match_name (s : str) : option (json * str) :=
  match strip_prefix (lit "null") s with
  | Some r => Some (JNull, r)
  | None =>
  match strip_prefix (lit "true") s with
  | Some r => Some (JBool true, r)
  | None =>
  match strip_prefix (lit "false") s with
  | Some r => Some (JBool false, r)
  | None =>
  match strip_prefix (lit "NaN") s with
  | Some r => Some (JFloat (lit "NaN"), r)
  | None =>
  match strip_prefix (lit "Infinity") s with
  | Some r => Some (JFloat (lit "Infinity"), r)
  | None =>
  match strip_prefix (lit "-Infinity") s with
  | Some r => Some (JFloat (lit "-Infinity"), r)
  | None => None
  end end end end end end.

(** What [scan_once] does at a character that opens neither an object
    nor an array: a string, a name, or a number. *)
Definition scan_atom (limit : nat) (s : str) : scan json :=
  match s with
  | [] => Malformed
  | c :: s' =>
      if c =? QUOTE then
        match scanstring s' [] with
        | Scanned x r => Scanned (JStr x) r
        | Malformed => Malformed
        | Exhausted => Exhausted
        | DigitLimit n => DigitLimit n
        | DepthLimit b => DepthLimit b
        end
      else
        match match_name s with
        | Some (v, r) => Scanned v r
        | None => match_number limit s
        end
  end.

(** [scan_once], with the array and the object loops.  [limit] is the
    limit of [int]; [depth] is the number of arrays and objects that
    can still be entered, one inside the other: the scanner checks the
    recursion limit when it enters one, before it reads what is inside.
    [n] is a budget of the embedding: it bounds the calls. *)
Fixpoint scan_once (limit n depth : nat) (s : str) {struct n} : scan json :=
  match n with
  | O => Exhausted
  | S n' =>
      match s with
      | [] => Malformed
      | c :: s' =>
          if c =? 123 then
            match depth with
            | O => DepthLimit c
            | S inside =>
                match skip_ws s' with
                | c1 :: r =>
                    if c1 =? 125 then Scanned (JDict []) r
                    else object_items limit n' inside (c1 :: r) []
                | [] => Malformed
                end
            end
          else if c =? 91 then
            match depth with
            | O => DepthLimit c
            | S inside =>
                match skip_ws s' with
                | c1 :: r =>
                    if c1 =? 93 then Scanned (JList []) r
                    else array_items limit n' inside (c1 :: r) []
                | [] => Malformed
                end
            end
          else scan_atom limit s
      end
  end

with array_items (limit n depth : nat) (s : str) (acc : list json) {struct n}
  : scan json :=
  match n with
  | O => Exhausted
  | S n' =>
      match scan_once limit n' depth s with
      | Scanned v r =>
          match skip_ws r with
          | c :: r' =>
              if c =? 93 then Scanned (JList (rev (v :: acc))) r'
              else if c =? 44 then array_items limit n' depth (skip_ws r') (v :: acc)
              else Malformed
          | [] => Malformed
          end
      | Malformed => Malformed
      | Exhausted => Exhausted
      | DigitLimit k => DigitLimit k
      | DepthLimit b => DepthLimit b
      end
  end

with object_items (limit n depth : nat) (s : str) (d : list (str * json)) {struct n}
  : scan json :=
  match n with
  | O => Exhausted
  | S n' =>
      match s with
      | c :: s1 =>
          if c =? QUOTE then
            match scanstring s1 [] with
            | Scanned key r =>
                match skip_ws r with
                | c1 :: r1 =>
                    if c1 =? 58 then
                      match scan_once limit n' depth (skip_ws r1) with
                      | Scanned v r2 =>
                          match skip_ws r2 with
                          | c2 :: r3 =>
                              if c2 =? 125 then Scanned (JDict (dict_set key v d)) r3
                              else if c2 =? 44
                              then object_items limit n' depth (skip_ws r3) (dict_set key v d)
                              else Malformed
                          | [] => Malformed
                          end
                      | Malformed => Malformed
                      | Exhausted => Exhausted
                      | DigitLimit k => DigitLimit k
                      | DepthLimit b => DepthLimit b
                      end
                    else Malformed
                | [] => Malformed
                end
            | Malformed => Malformed
            | Exhausted => Exhausted
            | DigitLimit k => DigitLimit k
            | DepthLimit b => DepthLimit b
            end
          else Malformed
      | [] => Malformed
      end
  end.

(** The message of the [RecursionError] of the scanner. *)
Definition recursion_message (bracket : char) : str :=
  lit "maximum recursion depth exceeded while decoding a JSON "
  ++ (if bracket =? 123 then lit "object" else lit "array")
  ++ lit " from a unicode string".

(** [json.loads(s)] for a [str].  The text may not start with a byte
    order mark; whitespace may surround the one value.  The decoder
    raises [JSONDecodeError] on a text that is not JSON, the plain
    [ValueError] of [int] on an integer of too many digits, and
    [RecursionError] on arrays and objects nested too deep, whichever it
    meets first in the text.  The budget given to [scan_once] is enough
    for every text (lemma [json_loads_budget] below). *)
Definition json_loads (python : interpreter) (s : str) : outcome json :=
  match s with
  | 65279 :: _ => Raises (JSONDecodeError s)
  | _ =>
      match scan_once (int_max_str_digits python) (2 * length s + 1)
              (json_nesting_limit python) (skip_ws s) with
      | Scanned v rest =>
          match skip_ws rest with
          | [] => Returns v
          | _ :: _ => Raises (JSONDecodeError s)
          end
      | Malformed => Raises (JSONDecodeError s)
      | Exhausted => Raises (JSONDecodeError s)
      | DigitLimit digits =>
          Raises (IntValueError (int_max_str_digits python) digits)
      | DepthLimit bracket => Raises (RecursionError (recursion_message bracket))
      end
  end.

(* ===================================================================== *)
(** ** JSON texts (RFC 8259) *)
(* ===================================================================== *)

(** The grammar of RFC 8259, as a relation on texts, to compare with
    what [json.loads] accepts.  With [ext] set it has the three names
    [json.loads] reads beyond the grammar: [NaN], [Infinity] and
    [-Infinity]. *)

(** A character of a string that stands for itself; the letter of a
    two-character escape; a hexadecimal digit. *)
Definition unescaped (c : char) : bool :=
  (32 <=? c) && negb (c =? 34) && negb (c =? 92).

Definition escape_letter (c : char) : bool :=
  (c =? 34) || (c =? 92) || (c =? 47) || (c =? 98) || (c =? 102)
  || (c =? 110) || (c =? 114) || (c =? 116).

Definition hexdig (c : char) : bool :=
  ((48 <=? c) && (c <=? 57)) || ((65 <=? c) && (c <=? 70)) || ((97 <=? c) && (c <=? 102)).

(** The characters between the quotes of a string. *)
Inductive chars : str -> Prop :=
| chars_nil : chars []
| chars_plain c b : unescaped c = true -> chars b -> chars (c :: b)
| chars_escape e b : escape_letter e = true -> chars b -> chars (92 :: e :: b)
| chars_hex h1 h2 h3 h4 b :
    hexdig h1 = true -> hexdig h2 = true -> hexdig h3 = true -> hexdig h4 = true ->
    chars b -> chars (92 :: 117 :: h1 :: h2 :: h3 :: h4 :: b).

(** [number = [ minus ] int [ frac ] [ exp ]] *)
Definition all_digits (ds : str) : bool := forallb isdigit ds.

Inductive int_part : str -> Prop :=
| int_zero : int_part [48]
| int_digits c ds :
    (49 <=? c) && (c <=? 57) = true -> all_digits ds = true -> int_part (c :: ds).

Inductive frac_part : str -> Prop :=
| frac_none : frac_part []
| frac_digits d ds : isdigit d = true -> all_digits ds = true -> frac_part (46 :: d :: ds).

Inductive exp_part : str -> Prop :=
| exp_none : exp_part []
| exp_digits e sg d ds :
    e = 101 \/ e = 69 -> sg = [] \/ sg = [45] \/ sg = [43] ->
    isdigit d = true -> all_digits ds = true -> exp_part (e :: sg ++ d :: ds).

Inductive number : str -> Prop :=
| number_parts sg i f e :
    sg = [] \/ sg = [45] -> int_part i -> frac_part f -> exp_part e ->
    number (sg ++ i ++ f ++ e).

(** The names that are values. *)
Definition names (ext : bool) : list str :=
  [lit "null"; lit "true"; lit "false"]
  ++ (if ext then [lit "NaN"; lit "Infinity"; lit "-Infinity"] else []).

Definition blank (W : str) : bool := forallb is_json_ws W.

(** Values; the elements of an array, up to its closing bracket; the
    members of an object, up to its closing brace. *)
Inductive sort : Type := Value | Elements | Members.

Inductive gram (ext : bool) : sort -> str -> Prop :=
| gram_name k : In k (names ext) -> gram ext Value k
| gram_number k : number k -> gram ext Value k
| gram_string b : chars b -> gram ext Value (34 :: b ++ [34])
| gram_array_empty W : blank W = true -> gram ext Value (91 :: W ++ [93])
| gram_array W items :
    blank W = true -> gram ext Elements items -> gram ext Value (91 :: W ++ items ++ [93])
| gram_object_empty W : blank W = true -> gram ext Value (123 :: W ++ [125])
| gram_object W members :
    blank W = true -> gram ext Members members ->
    gram ext Value (123 :: W ++ members ++ [125])
| gram_element k W :
    gram ext Value k -> blank W = true -> gram ext Elements (k ++ W)
| gram_elements k W W' items :
    gram ext Value k -> blank W = true -> blank W' = true -> gram ext Elements items ->
    gram ext Elements (k ++ W ++ 44 :: W' ++ items)
| gram_member b W1 W2 k W3 :
    chars b -> blank W1 = true -> blank W2 = true -> gram ext Value k -> blank W3 = true ->
    gram ext Members (34 :: b ++ 34 :: W1 ++ 58 :: W2 ++ k ++ W3)
| gram_members b W1 W2 k W3 W4 members :
    chars b -> blank W1 = true -> blank W2 = true -> gram ext Value k -> blank W3 = true ->
    blank W4 = true -> gram ext Members members ->
    gram ext Members (34 :: b ++ 34 :: W1 ++ 58 :: W2 ++ k ++ W3 ++ 44 :: W4 ++ members).

(** [JSON-text = ws value ws] *)
Definition valid_json (ext : bool) (s : str) : Prop :=
  exists W1 k W2,
    s = W1 ++ k ++ W2 /\ blank W1 = true /\ blank W2 = true /\ gram ext Value k.

(** A text of the grammar of RFC 8259; a text of the grammar with the
    three names more. *)
Definition rfc_json (s : str) : Prop := valid_json false s.





(** The characters a value can start with. *)
Definition starts_value (ext : bool) (c : char) : bool :=
  (c =? 34) || (c =? 45) || isdigit c || (c =? 91) || (c =? 123)
  || (c =? 110) || (c =? 116) || (c =? 102) || (ext && ((c =? 78) || (c =? 73))).




(* ===================================================================== *)
(** ** Parsed markup (bs4) *)
(* ===================================================================== *)

(** A page element of a parsed document.  A document is the sequence of
    its elements in document order (what [descendants] iterates over). *)
Inductive element : Type :=
| Tag (name : str)
| NavigableString (s : str)
| CData (s : str)
| OtherString (s : str).
    (** [Comment], [Doctype], [Declaration], [ProcessingInstruction],
        and the containers [Script], [Stylesheet], [TemplateString],
        [RubyTextString], [RubyParenthesisString] *)

Definition soup : Type := list element.

(** [_all_strings(strip=True)] with the default [types]: the text of
    every [NavigableString] and [CData], each stripped, the empty ones
    skipped. *)
Fixpoint all_strings_stripped (doc : soup) : list str :=
  match doc with
  | [] => []
  | (NavigableString t | CData t) :: doc' =>
      match strip t with
      | [] => all_strings_stripped doc'
      | x => x :: all_strings_stripped doc'
      end
  | _ :: doc' => all_strings_stripped doc'
  end.

(** [_all_strings()] with the default [types]: the same strings as they
    stand in the document. *)
Fixpoint all_strings (doc : soup) : list str :=
  match doc with
  | [] => []
  | (NavigableString t | CData t) :: doc' => t :: all_strings doc'
  | _ :: doc' => all_strings doc'
  end.

(** [doc.get_text(strip=True)] and [doc.get_text()], separator [""]. *)
Definition get_text_strip (doc : soup) : str := join [] (all_strings_stripped doc).
Definition get_text (doc : soup) : str := join [] (all_strings doc).

(** A parser for markup made of character data and tags written
    [<...>], without character references, comments or declarations:
    what ["html.parser"] builds for such markup.  A closing tag adds no
    element.  [cur] holds the piece being read, last character first. *)
Fixpoint simple_markup (s : str) (in_tag : bool) (cur : str) : soup :=
  match s with
  | [] =>
      match cur, in_tag with
      | [], false => []
      | _, false => [NavigableString (rev cur)]
      | _, true => [NavigableString (60 :: rev cur)]
      end
  | c :: s' =>
      if in_tag then
        if c =? 62 then
          match rev cur with
          | 47 :: _ => simple_markup s' false []
          | name => Tag name :: simple_markup s' false []
          end
        else simple_markup s' true (c :: cur)
      else if c =? 60 then
        match cur with
        | [] => simple_markup s' true []
        | _ => NavigableString (rev cur) :: simple_markup s' true []
        end
      else simple_markup s' false (c :: cur)
  end.

Definition simple_parser (markup : str) : soup := simple_markup markup false [].

(** *** Markup of text and plain tags

    What [BeautifulSoup(markup, "html.parser")] builds for markup made
    of character data without [<] and [&] and of the start and end
    tags, written [<name>] and [</name>], of the elements named in
    [PLAIN]: elements that are not void, hold no raw text, do not
    preserve whitespace and have no string container of their own.
    [html.parser] reports the character data up to the next [<] as it
    stands, a start tag, or an end tag; bs4 closes the string it is
    collecting at every tag, adds an element for a start tag and none
    for an end tag.  Other markup is outside the model. *)
Definition PLAIN : list str :=
  [ lit "p"; lit "b"; lit "i"; lit "em"; lit "strong"; lit "span"; lit "div";
    lit "sub"; lit "sup"; lit "u"; lit "ul"; lit "ol"; lit "li" ].

Definition is_plain (name : str) : bool := existsb (str_eqb name) PLAIN.

(** [endData]: a string of ASCII whitespace only is kept as one line
    feed if it holds one, as one space otherwise. *)
Definition is_ascii_space (c : char) : bool :=
  (c =? 32) || (c =? 10) || (c =? 9) || (c =? 12) || (c =? 13).

Definition end_data (data : str) : str :=
  if forallb is_ascii_space data
  then (if existsb (N.eqb 10) data then [10] else [32])
  else data.

(** The string collected so far ([cur], last character first), closed
    in front of the elements [doc] that follow it. *)
Definition flush (cur : str) (doc : soup) : soup :=
  match cur with
  | [] => doc
  | _ :: _ => NavigableString (end_data (rev cur)) :: doc
  end.

(** Where the parser is: in character data, in the name of a start
    tag, in the name of an end tag. *)
Inductive mode : Type := InData | InStart | InEnd.

Fixpoint html_markup (s : str) (m : mode) (cur : str) : option soup :=
  match s with
  | [] =>
      match m with
      | InData => Some (flush cur [])
      | _ => None
      end
  | c :: s' =>
      match m with
      | InData =>
          if c =? 38 then None
          else if c =? 60 then
            option_map (flush cur)
              match s' with
              | 47 :: s'' => html_markup s'' InEnd []
              | _ => html_markup s' InStart []
              end
          else html_markup s' InData (c :: cur)
      | InStart =>
          if c =? 62 then
            if is_plain (rev cur)
            then option_map (cons (Tag (rev cur))) (html_markup s' InData [])
            else None
          else html_markup s' InStart (c :: cur)
      | InEnd =>
          if c =? 62 then
            if is_plain (rev cur) then html_markup s' InData [] else None
          else html_markup s' InEnd (c :: cur)
      end
  end.

Definition html_parser (markup : str) : option soup := html_markup markup InData [].

(** A parser that builds what the model says where the model says
    something. *)
Definition agrees_with_html_parser (parser : str -> soup) : Prop :=
  forall markup doc, html_parser markup = Some doc -> parser markup = doc.

(** The same markup in words: a sequence of pieces, each a text or a
    tag. *)
Inductive piece : Type :=
| Text (t : str)
| Open (name : str)
| Close (name : str).

Definition render_piece (p : piece) : str :=
  match p with
  | Text t => t
  | Open name => 60 :: name ++ [62]
  | Close name => 60 :: 47 :: name ++ [62]
  end.

Definition render (pieces : list piece) : str := concat (map render_piece pieces).

(** The texts of the markup, in order. *)
Fixpoint texts (pieces : list piece) : list str :=
  match pieces with
  | [] => []
  | Text t :: rest => t :: texts rest
  | _ :: rest => texts rest
  end.

(** The elements bs4 builds for the pieces: a string for a text, an
    element for a start tag, nothing for an end tag. *)
Fixpoint elements (pieces : list piece) : soup :=
  match pieces with
  | [] => []
  | Text t :: rest => NavigableString (end_data t) :: elements rest
  | Open name :: rest => Tag name :: elements rest
  | Close _ :: rest => elements rest
  end.

Definition data_char (c : char) : bool := negb (c =? 60) && negb (c =? 38).

(** Texts are not empty, hold neither [<] nor [&], and reach from tag
    to tag (no text follows a text); tags are tags of plain elements. *)
Fixpoint plain_markup (pieces : list piece) : bool :=
  match pieces with
  | [] => true
  | Text t :: rest =>
      match t with [] => false | _ :: _ => true end
      && forallb data_char t
      && match rest with Text _ :: _ => false | _ => true end
      && plain_markup rest
  | (Open name | Close name) :: rest => is_plain name && plain_markup rest
  end.

(* ===================================================================== *)
(** ** Computations *)
(* ===================================================================== *)

(** A computation over a world [W]. *)
Definition M (W A : Type) : Type := W -> outcome A * W.

Definition ret {W A : Type} (a : A) : M W A := fun w => (Returns a, w).

Definition raise {W A : Type} (e : exception) : M W A := fun w => (Raises e, w).

Definition bind {W A B : Type} (c : M W A) (k : A -> M W B) : M W B :=
  fun w =>
    match c w with
    | (Returns a, w') => k a w'
    | (Raises e, w') => (Raises e, w')
    end.

(** [try: c  except Exception as e: handler(e)] *)
Definition try_except {W A : Type} (c : M W A) (handler : exception -> M W A) : M W A :=
  fun w =>
    match c w with
    | (Returns a, w') => (Returns a, w')
    | (Raises e, w') => handler e w'
    end.

Declare Scope py_scope.
Delimit Scope py_scope with py.
Notation "x <- c ;; k" := (bind c (fun x => k))
  (at level 61, c at next level, right associativity) : py_scope.
Notation "c ;; k" := (bind c (fun _ => k))
  (at level 61, right associativity) : py_scope.
Local Open Scope py_scope.

(** [for x in l: body], the variables the body assigns passed along. *)
Fixpoint for_loop {W A S : Type} (l : list A) (body : A -> S -> M W S) (s : S) : M W S :=
  match l with
  | [] => ret s
  | x :: l' => s' <- body x s ;; for_loop l' body s'
  end.

(** [enumerate(l, start)] *)
Definition enumerate {A : Type} (l : list A) (start : nat) : list (nat * A) :=
  combine (seq start (length l)) l.

(* ===================================================================== *)
(** ** The data of the pipeline *)
(* ===================================================================== *)

(** One entry of the parsed feed; an attribute the feed did not give
    is missing. *)
Record feed_entry : Type := {
  entry_title : option str;
  entry_link : option str;
  entry_summary : option str
}.

(** The dict [{"title": .., "url": .., "abstract": ..}]. *)
Record paper : Type := {
  title : str;
  url : str;
  abstract : str
}.

(** The dict [{"paper": .., "summary": ..}]. *)
Record digest_entry : Type := {
  entry_paper : paper;
  entry_summary_of : json
}.

(** The dict [{"subject": .., "body": ..}]. *)
Record report : Type := {
  subject : str;
  body : str
}.

(** The request of [client.chat.completions.create]. *)
Record chat_request : Type := {
  messages : list (str * str);   (** role, content *)
  model : str;
  temperature : str              (** the decimal literal of the source *)
}.

(** The reply: of each choice, the content of its message ([None] when
    the message has none). *)
Record chat_completion : Type := {
  choices : list (option str)
}.

Record email_message : Type := {
  msg_subject : str;
  msg_from : str;
  msg_to : str;
  msg_content : str
}.

(** The variables read from the environment when the module loads. *)
Record config : Type := {
  SMTP_HOST : str;
  SMTP_PORT : Z;
  SMTP_USER : str;
  SMTP_PASSWORD : str;
  EMAIL_TO : str;
  EMAIL_FROM : str
}.

Definition RSS_URL : str := lit "https://back.nber.org/rss/newio.xml".

(** The four fields of the schema, in the order [build_email] prints
    them, each with its label. *)
Definition SCHEMA : list (str * str) :=
  [ (lit "Research question", lit "research_question");
    (lit "Method", lit "method");
    (lit "Data", lit "data");
    (lit "Main result", lit "main_result") ].

Definition type_name (v : json) : str :=
  match v with
  | JNull => lit "NoneType"
  | JBool _ => lit "bool"
  | JInt _ => lit "int"
  | JFloat _ => lit "float"
  | JStr _ => lit "str"
  | JList _ => lit "list"
  | JDict _ => lit "dict"
  end.

(** The world of a run: the state [env] of the collaborators (feed
    server, model service, mail relay) and the lines printed so far. *)
Record world_of (env : Type) : Type := {
  outside : env;
  stdout : list str
}.
Arguments outside {env} w.
Arguments stdout {env} w.
Arguments Build_world_of {env} outside stdout.

(* ===================================================================== *)
(** ** Loading the module *)
(* ===================================================================== *)

(** What running the top of the module leaves: the settings, or the
    exception that stops the load before any function runs. *)
Inductive load (A : Type) : Type :=
| Loaded (a : A)
| ValueError (literal : str)
    (** raised by [int] on a text that is no integer *)
| RuntimeError (message : str).
Arguments Loaded {A} a.
Arguments ValueError {A} literal.
Arguments RuntimeError {A} message.

(** The key the model client is built with, and the settings of the
    mail. *)
Record settings : Type := {
  GROQ_API_KEY : str;
  mail : config
}.

(** [os.environ.get(key, default)]; the environment gives a variable
    that is set its text. *)
Definition environ_get (environ : str -> option str) (key : string) (default : str) : str :=
  match environ (lit key) with
  | Some v => v
  | None => default
  end.

(** The assignments at the top of the module and the test that follows
    them.  [py_int] is [int] on a [str], [None] standing for its
    [ValueError].  [all([...])] holds when each of the four values is a
    text that is not empty: [None] and the empty text are false.  The
    client that the module builds next, with the key, is part of the
    state of the model service. *)
Definition load_module (py_int : str -> option Z) (environ : str -> option str)
  : load settings :=
  let host := environ_get environ "SMTP_HOST" (lit "smtp.gmail.com") in
  let port_text := environ_get environ "SMTP_PORT" (lit "465") in
  match py_int port_text with
  | None => ValueError port_text
  | Some port =>
      match environ (lit "GROQ_API_KEY"), environ (lit "SMTP_USER"),
            environ (lit "SMTP_PASSWORD"), environ (lit "EMAIL_TO") with
      | Some (k :: k'), Some (u :: u'), Some (p :: p'), Some (t :: t') =>
          Loaded
            {| GROQ_API_KEY := k :: k';
               mail :=
                 {| SMTP_HOST := host; SMTP_PORT := port;
                    SMTP_USER := u :: u'; SMTP_PASSWORD := p :: p';
                    EMAIL_TO := t :: t';
                    EMAIL_FROM := environ_get environ "EMAIL_FROM" (u :: u') |} |}
      | _, _, _, _ => RuntimeError (lit "Missing required environment variables")
      end
  end.

(** The variables the test of the module requires. *)
Definition REQUIRED : list str :=
  [lit "GROQ_API_KEY"; lit "SMTP_USER"; lit "SMTP_PASSWORD"; lit "EMAIL_TO"].

(** A variable that is set to a text that is not empty. *)
Definition is_set (environ : str -> option str) (key : str) : bool :=
  match environ key with
  | Some (_ :: _) => true
  | _ => false
  end.

(* ===================================================================== *)
(** ** A scripted outside world *)
(* ===================================================================== *)

(** A concrete world to run the pipeline in: the feed the reader will
    return, the replies the model service will give, one per request
    and in order, and the mail delivered so far. *)
Record script : Type := {
  feed : list feed_entry;
  replies : list (outcome chat_completion);
  outbox : list email_message
}.

Definition script_parse (_ : str) (e : script) : outcome (list feed_entry) * script :=
  (Returns (feed e), e).

Definition script_create (_ : chat_request) (e : script) : outcome chat_completion * script :=
  match replies e with
  | r :: rs => (r, {| feed := feed e; replies := rs; outbox := outbox e |})
  | [] => (Raises (LibraryError (lit "APITimeoutError") (lit "Request timed out.")), e)
  end.

Definition script_deliver (_ : config) (m : email_message) (e : script) : outcome unit * script :=
  (Returns tt, {| feed := feed e; replies := replies e; outbox := outbox e ++ [m] |}).

(** A reply with one choice whose message holds [content]. *)
Definition says (content : str) : outcome chat_completion :=
  Returns {| choices := [Some content] |}.

Definition fails (class_name detail : string) : outcome chat_completion :=
  Raises (LibraryError (lit class_name) (lit detail)).

(** Stand-ins for what the embedding leaves to its parameters. *)
Definition plain_repr (s : str) : str := s.
Definition class_of (e : exception) : str :=
  match e with
  | JSONDecodeError _ => lit "JSONDecodeError"
  | IntValueError _ _ => lit "ValueError"
  | RecursionError _ => lit "RecursionError"
  | TypeError _ => lit "TypeError"
  | AttributeError _ _ => lit "AttributeError"
  | IndexError _ => lit "IndexError"
  | LibraryError c _ => c
  end.

(** An interpreter with the limit of [int] as it is set at the start,
    and room for 900 arrays and objects, one inside the other. *)
(** A parser that agrees with the model of ["html.parser"], and reads
    other markup as [simple_parser] does. *)
Definition demo_parser (markup : str) : soup :=
  match html_parser markup with
  | Some doc => doc
  | None => simple_parser markup
  end.

Definition demo_python : interpreter :=
  {| int_max_str_digits := 4300; json_nesting_limit := 900 |}.

Definition demo_config : config :=
  {| SMTP_HOST := lit "smtp.gmail.com"; SMTP_PORT := 465%Z;
     SMTP_USER := lit "u"; SMTP_PASSWORD := lit "p";
     EMAIL_TO := lit "to"; EMAIL_FROM := lit "u" |}.

(** Papers, replies and worlds to run the pipeline on. *)
Definition paper_a : paper :=
  {| title := lit "Merger Effects in Airlines"; url := lit "https://x/1";
     abstract := lit "We study..." |}.

Definition paper_b : paper :=
  {| title := lit "Entry Deterrence"; url := lit "https://x/2";
     abstract := lit "We test..." |}.

Definition paper_c : paper :=
  {| title := lit "Platform Fees"; url := lit "https://x/3";
     abstract := lit "We measure..." |}.

(** A reply that is a fence tagged [json] around [object]. *)
Definition fenced (object : str) : str :=
  lit "```json" ++ [LF] ++ object ++ [LF] ++ lit "```".

Definition fields_a : str :=
  dq "'research_question':'Q','method':'M','data':'D','main_result':'R'".

Definition summary_a : list (str * json) :=
  [ (lit "research_question", JStr (lit "Q")); (lit "method", JStr (lit "M"));
    (lit "data", JStr (lit "D")); (lit "main_result", JStr (lit "R")) ].

Definition summary_c : list (str * json) :=
  [ (lit "method", JStr (lit "IV")); (lit "data", JStr (lit "Scanner data")) ].

(** An object with the four fields, one of which holds a closing brace
    followed by three backticks. *)
Definition object_with_fence_inside : str :=
  dq "{'research_question':'Q','method':'M}```','data':'D','main_result':'R'}".

(** An object that holds three backticks in a row in a field, none of
    them after a closing brace. *)
Definition object_with_backticks : str :=
  dq "{'method': 'run ```sh``` first'}".

Definition three_replies : script :=
  {| feed := [];
     replies := [ says (fenced (123 :: fields_a ++ [125]));
                  fails "APIConnectionError" "Connection error.";
                  says (dq "{'method': 'IV', 'data': 'Scanner data'}") ];
     outbox := [] |}.

Definition one_reply (content : str) : script :=
  {| feed := []; replies := [says content]; outbox := [] |}.

Definition no_replies : script := {| feed := []; replies := []; outbox := [] |}.

Definition two_entries : list (paper * list (str * json)) :=
  [ (paper_a, summary_a); (paper_b, summary_c) ].

(** A mail relay that refuses the login. *)
Definition script_refuse (_ : config) (_ : email_message) (e : script)
  : outcome unit * script :=
  (Raises (LibraryError (lit "SMTPAuthenticationError")
             (lit "Username and Password not accepted")), e).

(** An environment given as a list of variables with their texts, and
    [int] on a text of decimal digits. *)
Fixpoint environ_of (variables : list (str * str)) (key : str) : option str :=
  match variables with
  | [] => None
  | (k, v) :: rest => if str_eqb key k then Some v else environ_of rest key
  end.

Definition int_of_decimal (s : str) : option Z :=
  match s with
  | [] => None
  | _ :: _ => if forallb isdigit s then Some (int_of_digits s) else None
  end.

(** A feed of three complete entries, and a feed whose second entry has
    no summary. *)
Definition three_entries : list (str * str * str) :=
  [ (lit "Merger Effects in Airlines", lit "https://x/1", lit "<p>We study...</p>");
    (lit "Entry Deterrence", lit "https://x/2", lit "We test...");
    (lit "Platform Fees", lit "https://x/3", lit "We measure...") ].

Definition broken_feed : list feed_entry :=
  [ {| entry_title := Some (lit "Merger Effects in Airlines");
       entry_link := Some (lit "https://x/1");
       entry_summary := Some (lit "We study...") |};
    {| entry_title := Some (lit "Entry Deterrence"); entry_link := Some (lit "https://x/2");
       entry_summary := None |};
    {| entry_title := Some (lit "Platform Fees"); entry_link := Some (lit "https://x/3");
       entry_summary := Some (lit "We measure...") |} ].

(** The world at the start of a run: the feed, the replies to come, no
    mail delivered, nothing printed. *)
Definition start (entries : list feed_entry) (rs : list (outcome chat_completion))
  : world_of script :=
  {| outside := {| feed := entries; replies := rs; outbox := [] |}; stdout := [] |}.

(** The report on the first and the third of the three papers. *)
Definition report_a_c : report :=
  {| subject := lit "NBER IO Digest: 2 new papers";
     body :=
       join [LF]
         [ lit "This week's NBER Industrial Organization papers:"; [];
           lit "1. Merger Effects in Airlines"; lit "URL: https://x/1";
           lit "Research question: Q"; lit "Method: M"; lit "Data: D";
           lit "Main result: R"; []; [];
           lit "2. Platform Fees"; lit "URL: https://x/3";
           lit "Research question: N/A"; lit "Method: IV";
           lit "Data: Scanner data"; lit "Main result: N/A"; []; [] ] |}.

(** Replies the second of which is JSON but no object. *)
Definition array_among_replies : list (outcome chat_completion) :=
  [ says (fenced (123 :: fields_a ++ [125]));
    says (lit "[1, 2]");
    says (dq "{'method': 'IV', 'data': 'Scanner data'}") ].

(** An environment with the four required variables and nothing else,
    and the same with an empty password. *)
Definition demo_environ : str -> option str :=
  environ_of [ (lit "GROQ_API_KEY", lit "gsk"); (lit "SMTP_USER", lit "u");
               (lit "SMTP_PASSWORD", lit "p"); (lit "EMAIL_TO", lit "to") ].

Definition environ_empty_password : str -> option str :=
  environ_of [ (lit "GROQ_API_KEY", lit "gsk"); (lit "SMTP_USER", lit "u");
               (lit "SMTP_PASSWORD", []); (lit "EMAIL_TO", lit "to") ].

(* ===================================================================== *)
(** ** The program *)
(* ===================================================================== *)

Section Digest.

(** The state of the collaborators (feed server, model service, mail
    relay), and the three calls that reach them. *)
Variable env : Type.
Variable feedparser_parse : str -> env -> outcome (list feed_entry) * env.
Variable chat_completions_create : chat_request -> env -> outcome chat_completion * env.
Variable smtp_send_message : config -> email_message -> env -> outcome unit * env.

(** [BeautifulSoup(markup, "html.parser")] *)
Variable BeautifulSoup : str -> soup.

(** [repr] of a [float] (given as the text it was read from) and of a
    [str]; [str] of an exception. *)
Variable repr_float : str -> str.
Variable repr_str : str -> str.
Variable str_of_exception : exception -> str.

Variable cfg : config.

(** The interpreter that runs the program. *)
Variable python : interpreter.

Abbreviation world := (world_of env).

Definition py (A : Type) : Type := M world A.

(** A call that reaches a collaborator. *)
Definition call {A : Type} (op : env -> outcome A * env) : py A :=
  fun w =>
    let (r, e) := op (outside w) in
    (r, {| outside := e; stdout := stdout w |}).

(** [print(line)] *)
Definition print (line : str) : py unit :=
  fun w => (Returns tt, {| outside := outside w; stdout := stdout w ++ [line] |}).

(** [e.attribute] on a feed entry *)
Definition getattr (field : option str) (attribute : string) : py str :=
  match field with
  | Some x => ret x
  | None => raise (AttributeError (lit "FeedParserDict") (lit attribute))
  end.

(** *** Step 1: the feed *)

Definition clean_html (html_text : str) : str :=
  get_text_strip (BeautifulSoup html_text).

Definition fetch_new_io_papers : py (list paper) :=
  entries <- call (feedparser_parse RSS_URL) ;;
  for_loop entries
    (fun entry papers =>
       t <- getattr (entry_title entry) "title" ;;
       l <- getattr (entry_link entry) "link" ;;
       s <- getattr (entry_summary entry) "summary" ;;
       ret (papers ++ [{| title := t; url := l; abstract := clean_html s |}]))
    [].

(** *** Step 2: the model call *)

(** The text [parse_groq_json] hands to [json.loads]: group 1 of the
    fence when the pattern is found, the stripped reply otherwise. *)
Definition json_text (raw_text : str) : str :=
  match re_search FENCE_RE raw_text with
  | Some (Some g) => g
  | Some None => []
  | None => strip raw_text
  end.

Definition parse_groq_json (raw_text : str) : py json :=
  let json_text := json_text raw_text in
  fun w => (json_loads python json_text, w).

Definition prompt_of (p : paper) : str :=
  join [LF]
    [ [];
      lit "Extract the following fields from this NBER Industrial Organization paper.";
      lit "Return valid JSON only.";
      [];
      lit "Fields:";
      lit "- research_question";
      lit "- method";
      lit "- data";
      lit "- main_result (one sentence)";
      [];
      lit "TITLE:";
      title p;
      [];
      lit "ABSTRACT:";
      abstract p;
      [] ].

(** The arguments of the call to the model. *)
Definition request_of (prompt : str) : chat_request :=
  {| messages :=
       [ (lit "system", lit "You extract structured information from economics papers.");
         (lit "user", prompt) ];
     model := lit "llama-3.3-70b-versatile";
     temperature := lit "0.2" |}.

Definition summarize_with_groq (p : paper) : py json :=
  let prompt := prompt_of p in
  chat_completion <- call (chat_completions_create (request_of prompt)) ;;
  match choices chat_completion with
  | [] => raise (IndexError (lit "list index out of range"))
  | Some raw_content :: _ => parse_groq_json raw_content
  | None :: _ =>
      (* [re.search] on [None] *)
      raise (TypeError (lit "expected string or bytes-like object"))
  end.

(** *** Step 3: the email *)

(** [str(v)], what an f-string prints for [v]. *)
Fixpoint py_repr (v : json) : str :=
  match v with
  | JNull => lit "None"
  | JBool true => lit "True"
  | JBool false => lit "False"
  | JInt z => str_of_int z
  | JFloat x => repr_float x
  | JStr x => repr_str x
  | JList l => lit "[" ++ join (lit ", ") (map py_repr l) ++ lit "]"
  | JDict d =>
      lit "{"
      ++ join (lit ", ")
           (map (fun kv : str * json => let (k, x) := kv in repr_str k ++ lit ": " ++ py_repr x) d)
      ++ lit "}"
  end.

Definition py_str (v : json) : str :=
  match v with
  | JStr x => x
  | _ => py_repr v
  end.

(** [summary.get(key, 'N/A')]: only a [dict] has the method. *)
Definition summary_get (summary : json) (key : str) : py json :=
  match summary with
  | JDict d =>
      ret (match dict_get key d with
           | Some v => v
           | None => JStr (lit "N/A")
           end)
  | _ => raise (AttributeError (type_name summary) (lit "get"))
  end.

(** The body of the loop of [build_email]: the lines one entry adds. *)
Definition add_block (item : nat * digest_entry) (body_lines : list str) : py (list str) :=
  let (i, ps) := item in
  let paper := entry_paper ps in
  let summary := entry_summary_of ps in
  let body_lines := body_lines ++ [str_of_nat i ++ lit ". " ++ title paper] in
  let body_lines := body_lines ++ [lit "URL: " ++ url paper] in
  v <- summary_get summary (lit "research_question") ;;
  let body_lines := body_lines ++ [lit "Research question: " ++ py_str v] in
  v <- summary_get summary (lit "method") ;;
  let body_lines := body_lines ++ [lit "Method: " ++ py_str v] in
  v <- summary_get summary (lit "data") ;;
  let body_lines := body_lines ++ [lit "Data: " ++ py_str v] in
  v <- summary_get summary (lit "main_result") ;;
  let body_lines := body_lines ++ [lit "Main result: " ++ py_str v] in
  ret (body_lines ++ [[LF]]).

(** The lines of [build_email] after the test for the empty list: the
    subject with the count, the header, the loop, the join. *)
Definition build_digest (papers_summaries : list digest_entry) : py report :=
  let subject :=
    lit "NBER IO Digest: " ++ str_of_nat (length papers_summaries) ++ lit " new papers" in
  body_lines <-
    for_loop (enumerate papers_summaries 1) add_block
      [lit "This week's NBER Industrial Organization papers:" ++ [LF]] ;;
  ret {| subject := subject; body := join [LF] body_lines |}.

Definition build_email (papers_summaries : list digest_entry) : py report :=
  match papers_summaries with
  | [] =>
      ret {| subject := lit "NBER IO Digest: No new papers this week";
             body := lit "There are no new Industrial Organization papers this week." |}
  | _ :: _ => build_digest papers_summaries
  end.

(** *** Step 4: delivery *)

Definition send_email (subject body : str) : py unit :=
  call (smtp_send_message cfg
          {| msg_subject := subject; msg_from := EMAIL_FROM cfg;
             msg_to := EMAIL_TO cfg; msg_content := body |}).

(** *** The workflow *)

(** The loop of [main] over the papers. *)
Definition summarize_all (papers : list paper) : py (list digest_entry) :=
  for_loop papers
    (fun paper papers_summaries =>
       try_except
         (summary <- summarize_with_groq paper ;;
          ret (papers_summaries ++ [{| entry_paper := paper; entry_summary_of := summary |}]))
         (fun e =>
            print (lit "Failed to summarize " ++ title paper ++ lit ": " ++ str_of_exception e) ;;
            ret papers_summaries))
    [].

Definition main : py unit :=
  papers <- fetch_new_io_papers ;;
  papers_summaries <- summarize_all papers ;;
  email_content <- build_email papers_summaries ;;
  send_email (subject email_content) (body email_content) ;;
  print (lit "Email sent: " ++ subject email_content).

(** *** Notions the statements below use *)

(** A computation that neither reads nor changes the world. *)
Definition pure {A : Type} (c : py A) : Prop :=
  exists o : outcome A, forall w : world, c w = (o, w).

(** The line [main] prints when the extractor raises [e] on [p]. *)
Definition failure_line (p : paper) (e : exception) : str :=
  lit "Failed to summarize " ++ title p ++ lit ": " ++ str_of_exception e.

(** The calls the loop of [main] makes to the extractor: each paper, in
    the order of the calls, with the outcome of its call, and the world
    the last call leaves.  A failed call is followed by its line on
    standard output. *)
Fixpoint extractor_calls (papers : list paper) (w : world)
  : list (paper * outcome json) * world :=
  match papers with
  | [] => ([], w)
  | p :: ps =>
      let (r, w1) := summarize_with_groq p w in
      let w2 :=
        match r with
        | Returns _ => w1
        | Raises e => {| outside := outside w1; stdout := stdout w1 ++ [failure_line p e] |}
        end in
      let (rs, w3) := extractor_calls ps w2 in
      ((p, r) :: rs, w3)
  end.

(** Of a sequence of calls, the entries of those that returned and the
    lines of those that raised. *)
Fixpoint successes (calls : list (paper * outcome json)) : list digest_entry :=
  match calls with
  | [] => []
  | (p, Returns v) :: cs => {| entry_paper := p; entry_summary_of := v |} :: successes cs
  | (_, Raises _) :: cs => successes cs
  end.

Fixpoint failures (calls : list (paper * outcome json)) : list str :=
  match calls with
  | [] => []
  | (_, Returns _) :: cs => failures cs
  | (p, Raises e) :: cs => failure_line p e :: failures cs
  end.

(** [drops_spaces full out]: [out] is [full] with some of its whitespace
    characters left out, and nothing else changed. *)
Inductive drops_spaces : str -> str -> Prop :=
| ds_nil : drops_spaces [] []
| ds_keep (c : char) (full out : str) :
    drops_spaces full out -> drops_spaces (c :: full) (c :: out)
| ds_drop (c : char) (full out : str) :
    isspace c = true -> drops_spaces full out -> drops_spaces (c :: full) out.

(** [t] is what is left of [s] after some prefix. *)
Definition rest_of (s t : str) : Prop := exists k, s = k ++ t.

(** [reads s k r]: a scanner that is given [s] reads the token [k] and
    leaves [r]; a token starts with a character that is neither
    whitespace nor a byte order mark and ends with one that is not
    whitespace. *)
Definition first_ok (k : str) : bool :=
  match k with
  | c :: _ => negb (isspace c) && negb (c =? 65279)
  | [] => false
  end.

Definition last_ok (k : str) : bool := negb (isspace (last k 32)).

Definition reads (s k r : str) : Prop :=
  s = k ++ r /\ first_ok k = true /\ last_ok k = true.

(** The text opens with a byte order mark. *)
Definition starts_with_bom (s : str) : bool :=
  match s with
  | c :: _ => c =? 65279
  | [] => false
  end.

(** The fence in words, to compare with what the pattern finds.
    [closes_fence s]: [s] is optional whitespace, then three backticks,
    then anything. *)
Definition closes_fence (s : str) : bool :=
  match strip_prefix (lit "```") (lstrip s) with
  | Some _ => true
  | None => false
  end.

(** The text up to and with the first closing brace after which the
    fence closes. *)
Fixpoint to_closing_brace (s : str) : option str :=
  match s with
  | [] => None
  | c :: t =>
      if (c =? 125) && closes_fence t then Some [c]
      else option_map (cons c) (to_closing_brace t)
  end.

(** A fence that starts with the first character of [s]: three
    backticks, the tag [json] or nothing, optional whitespace, an
    opening brace, and from that brace the text to the first closing
    brace after which the fence closes. *)
Definition fence_at (s : str) : option str :=
  match strip_prefix (lit "```") s with
  | None => None
  | Some t =>
      match lstrip (match strip_prefix (lit "json") t with Some u => u | None => t end) with
      | c :: inner => if c =? 123 then option_map (cons c) (to_closing_brace inner) else None
      | [] => None
      end
  end.

(** The brace-delimited text of the first fence of [s]. *)
Fixpoint first_fence (s : str) : option str :=
  match fence_at s with
  | Some g => Some g
  | None =>
      match s with
      | _ :: t => first_fence t
      | [] => None
      end
  end.

(** The candidate text in words: the text of the first fence, or the
    reply without the whitespace around it. *)
Definition candidate (raw_text : str) : str :=
  match first_fence raw_text with
  | Some g => g
  | None => strip raw_text
  end.

(** No fence starts inside [P] when [F] follows it. *)
Definition no_fence_inside (P F : str) : Prop :=
  forall P1 P2, P = P1 ++ P2 -> P2 <> [] -> fence_at (P2 ++ F) = None.

(** No closing brace inside [X] is followed by optional whitespace and
    three backticks, when the closing brace and [T] follow [X]. *)
Definition no_early_close (X T : str) : Prop :=
  forall X1 X2, X = X1 ++ 125 :: X2 -> closes_fence (X2 ++ 125 :: T) = false.

(** The two conditions, decided. *)
Fixpoint early_close (X T : str) : bool :=
  match X with
  | [] => false
  | c :: X' => ((c =? 125) && closes_fence (X' ++ 125 :: T)) || early_close X' T
  end.

Fixpoint fence_inside (P F : str) : bool :=
  match P with
  | [] => false
  | c :: P' =>
      match fence_at ((c :: P') ++ F) with
      | Some _ => true
      | None => false
      end
      || fence_inside P' F
  end.

(** The result of a scanner with [w] appended to the text it left. *)
Definition with_tail {A : Type} (w : str) (r : scan A) : scan A :=
  match r with
  | Scanned a rest => Scanned a (rest ++ w)
  | Malformed => Malformed
  | Exhausted => Exhausted
  | DigitLimit n => DigitLimit n
  | DepthLimit b => DepthLimit b
  end.

(** A feed entry that has its three attributes, and the paper
    [fetch_new_io_papers] makes of it. *)
Definition full_entry (tls : str * str * str) : feed_entry :=
  let '(t, l, s) := tls in
  {| entry_title := Some t; entry_link := Some l; entry_summary := Some s |}.

Definition paper_of (tls : str * str * str) : paper :=
  let '(t, l, s) := tls in
  {| title := t; url := l; abstract := clean_html s |}.

(** What a labelled line shows for [key]: the value the mapping holds,
    or the placeholder. *)
Definition shown (d : list (str * json)) (key : str) : str :=
  match dict_get key d with
  | Some v => py_str v
  | None => lit "N/A"
  end.

(** The six lines of the numbered block of an entry whose summary is
    the mapping [d]. *)
Definition block_lines (item : nat * (paper * list (str * json))) : list str :=
  let '(i, (p, d)) := item in
  [ str_of_nat i ++ lit ". " ++ title p;
    lit "URL: " ++ url p ]
  ++ map (fun lk : str * str => let (label, key) := lk in label ++ lit ": " ++ shown d key) SCHEMA.

(** An entry whose summary is a mapping. *)
Definition entry_of (pd : paper * list (str * json)) : digest_entry :=
  {| entry_paper := fst pd; entry_summary_of := JDict (snd pd) |}.

Definition HEADER : str := lit "This week's NBER Industrial Organization papers:".

(** The message [send_email] builds for a report: subject and body of
    the report, sender and recipient of the configuration. *)
Definition message_of (r : report) : email_message :=
  {| msg_subject := subject r; msg_from := EMAIL_FROM cfg;
     msg_to := EMAIL_TO cfg; msg_content := body r |}.

(** The report of a run without entries. *)
Definition NO_PAPERS : report :=
  {| subject := lit "NBER IO Digest: No new papers this week";
     body := lit "There are no new Industrial Organization papers this week." |}.

(** The first attribute the loop of [fetch_new_io_papers] reads from an
    entry and does not find: it reads the title, the link, the summary,
    in this order. *)
Definition first_missing (entry : feed_entry) : option str :=
  match entry_title entry, entry_link entry, entry_summary entry with
  | None, _, _ => Some (lit "title")
  | Some _, None, _ => Some (lit "link")
  | Some _, Some _, None => Some (lit "summary")
  | Some _, Some _, Some _ => None
  end.

(** The exception the extractor raises before it has a text to parse:
    the error of the model service, [IndexError] for a completion
    without choices, [TypeError] for a first choice whose message has no
    content. *)
Definition no_text (reply : outcome chat_completion) : option exception :=
  match reply with
  | Raises x => Some x
  | Returns c =>
      match choices c with
      | [] => Some (IndexError (lit "list index out of range"))
      | None :: _ => Some (TypeError (lit "expected string or bytes-like object"))
      | Some _ :: _ => None
      end
  end.

(** A pattern none of whose literals holds the character [w]. *)
Fixpoint avoids (w : char) (r : regex) : bool :=
  match r with
  | RLit l => forallb (fun a => negb (w =? a)) l
  | ROpt r1 | RGroup r1 => avoids w r1
  | RStar _ | RLazy _ => true
  | RSeq r1 r2 => avoids w r1 && avoids w r2
  end.

(** A value in which no mapping, at any depth, holds a key twice. *)
#[warnings="-register-all"]
Inductive distinct_keys : json -> Prop :=
| dk_null : distinct_keys JNull
| dk_bool (b : bool) : distinct_keys (JBool b)
| dk_int (z : Z) : distinct_keys (JInt z)
| dk_float (x : str) : distinct_keys (JFloat x)
| dk_str (x : str) : distinct_keys (JStr x)
| dk_list (l : list json) : Forall distinct_keys l -> distinct_keys (JList l)
| dk_dict (d : list (str * json)) :
    NoDup (map fst d) ->
    Forall (fun kv : str * json => distinct_keys (snd kv)) d ->
    distinct_keys (JDict d).

(* ===================================================================== *)
(** ** Properties of the report composer *)
(* ===================================================================== *)

Lemma bind_returns {A B : Type} (c : py A) (k : A -> py B) w a w' :
  c w = (Returns a, w') -> bind c k w = k a w'.
Proof. intros H. unfold bind. rewrite H. reflexivity. Qed.

Lemma bind_raises {A B : Type} (c : py A) (k : A -> py B) w e w' :
  c w = (Raises e, w') -> bind c k w = (Raises e, w').
Proof. intros H. unfold bind. rewrite H. reflexivity. Qed.

Lemma py_str_default d key :
  py_str (match dict_get key d with
          | Some v => v
          | None => JStr (lit "N/A")
          end) = shown d key.
Proof. unfold shown. destruct (dict_get key d); reflexivity. Qed.

(** On a mapping the loop body adds the six lines of the block and the
    line that holds one line feed. *)
Lemma add_block_dict i p d lines w :
  add_block (i, entry_of (p, d)) lines w
  = (Returns (lines ++ block_lines (i, (p, d)) ++ [[LF]]), w).
Proof.
  unfold add_block, entry_of, bind, ret, summary_get.
  cbn [entry_paper entry_summary_of fst snd].
  unfold ret. cbv beta iota zeta.
  rewrite !py_str_default.
  unfold block_lines, SCHEMA. cbn [map app].
  repeat rewrite <- app_assoc. reflexivity.
Qed.

(** On anything else it fails at the first lookup. *)
Lemma add_block_not_dict i p v lines w :
  is_dict v = false ->
  add_block (i, {| entry_paper := p; entry_summary_of := v |}) lines w
  = (Raises (AttributeError (type_name v) (lit "get")), w).
Proof.
  intros Hv. unfold add_block, bind, summary_get.
  cbn [entry_paper entry_summary_of].
  destruct v; try discriminate Hv; reflexivity.
Qed.

Lemma for_loop_blocks l : forall k lines w,
  for_loop (combine (seq k (length l)) (map entry_of l)) add_block lines w
  = (Returns (lines ++ concat (map (fun item => block_lines item ++ [[LF]])
                                 (combine (seq k (length l)) l))), w).
Proof.
  induction l as [|[p d] l IH]; intros k lines w.
  - cbn. rewrite app_nil_r. reflexivity.
  - cbn [length seq map combine for_loop concat].
    erewrite bind_returns by apply add_block_dict.
    rewrite IH. repeat rewrite <- app_assoc. reflexivity.
Qed.

Lemma str_eqb_eq a : forall b, str_eqb a b = true <-> a = b.
Proof.
  induction a as [|x a IH]; destruct b as [|y b]; cbn; split; intros H;
    try reflexivity; try discriminate.
  - apply andb_true_iff in H. destruct H as [Hx Hab].
    apply N.eqb_eq in Hx. apply IH in Hab. congruence.
  - injection H as -> ->. rewrite N.eqb_refl. cbn. apply IH. reflexivity.
Qed.

Lemma dict_get_in k v d :
  NoDup (map fst d) -> In (k, v) d -> dict_get k d = Some v.
Proof.
  induction d as [|[k' v'] d IH]; cbn; intros Hnd Hin; [contradiction|].
  inversion Hnd as [|? ? Hnotin Hnd']; subst.
  destruct (str_eqb k k') eqn:E.
  - apply str_eqb_eq in E. subst k'. destruct Hin as [Heq|Hin].
    + congruence.
    + exfalso. apply Hnotin. apply in_map_iff. exists (k, v). auto.
  - destruct Hin as [Heq|Hin].
    + injection Heq as -> ->.
      assert (str_eqb k k = true) by (apply str_eqb_eq; reflexivity). congruence.
    + auto.
Qed.

Lemma dict_get_some_in k v d : dict_get k d = Some v -> In (k, v) d.
Proof.
  induction d as [|[k' v'] d IH]; cbn; [discriminate|].
  destruct (str_eqb k k') eqn:E.
  - apply str_eqb_eq in E. subst. intros [= ->]. auto.
  - auto.
Qed.

(** A lookup does not see the order of the keys. *)
Lemma dict_get_permutation k d d' :
  NoDup (map fst d) -> Permutation d d' -> dict_get k d = dict_get k d'.
Proof.
  intros Hnd Hp.
  assert (Hnd' : NoDup (map fst d')).
  { eapply Permutation_NoDup; [|exact Hnd]. apply Permutation_map. exact Hp. }
  destruct (dict_get k d) as [v|] eqn:E.
  - symmetry. apply dict_get_in; [exact Hnd'|].
    eapply Permutation_in; [exact Hp|]. apply dict_get_some_in. exact E.
  - destruct (dict_get k d') as [v|] eqn:E'; [|reflexivity].
    apply dict_get_some_in in E'. apply Permutation_sym in Hp.
    eapply Permutation_in in E'; [|exact Hp].
    apply dict_get_in in E'; [congruence|exact Hnd].
Qed.

Lemma block_lines_permutation i p d d' :
  NoDup (map fst d) -> Permutation d d' ->
  block_lines (i, (p, d)) = block_lines (i, (p, d')).
Proof.
  intros Hnd Hp. unfold block_lines, shown. f_equal.
  apply map_ext. intros [label key].
  rewrite (dict_get_permutation key d d' Hnd Hp). reflexivity.
Qed.

Lemma build_email_dicts first others w :
  build_email (map entry_of (first :: others)) w
  = (Returns
       {| subject :=
            lit "NBER IO Digest: " ++ str_of_nat (length (first :: others)) ++ lit " new papers";
          body :=
            join [LF]
              ((HEADER ++ [LF])
               :: concat (map (fun item => block_lines item ++ [[LF]])
                            (enumerate (first :: others) 1))) |}, w).
Proof.
  change (build_email (map entry_of (first :: others)))
    with (build_digest (map entry_of (first :: others))).
  unfold build_digest, enumerate.
  rewrite length_map.
  erewrite bind_returns by apply for_loop_blocks.
  reflexivity.
Qed.

Lemma blocks_permutation entries entries' :
  Forall2 (fun a b : paper * list (str * json) =>
             fst a = fst b /\ NoDup (map fst (snd a)) /\ Permutation (snd a) (snd b))
          entries entries' ->
  forall k,
    map (fun item => block_lines item ++ [[LF]]) (combine (seq k (length entries)) entries)
    = map (fun item => block_lines item ++ [[LF]]) (combine (seq k (length entries')) entries').
Proof.
  induction 1 as [|[p d] [p' d'] l l' (Hp & Hnd & Hperm) _ IH]; intros k; [reflexivity|].
  cbn in Hp, Hnd, Hperm. subst p'.
  cbn [length seq combine map]. rewrite (IH (S k)).
  rewrite (block_lines_permutation k p d d' Hnd Hperm). reflexivity.
Qed.

Lemma join_cons sep x (l : list str) :
  l <> [] -> join sep (x :: l) = x ++ sep ++ join sep l.
Proof. destruct l; [congruence | reflexivity]. Qed.

Lemma join_app sep (l1 l2 : list str) :
  l1 <> [] -> l2 <> [] -> join sep (l1 ++ l2) = join sep l1 ++ sep ++ join sep l2.
Proof.
  induction l1 as [|x l1 IH]; [congruence|]. intros _ H2.
  destruct l1 as [|y l1].
  - cbn [app]. rewrite join_cons by assumption. reflexivity.
  - change ((x :: y :: l1) ++ l2) with (x :: (y :: l1) ++ l2).
    rewrite join_cons by discriminate.
    rewrite IH by (assumption || discriminate).
    rewrite (join_cons sep x (y :: l1)) by discriminate.
    repeat rewrite <- app_assoc. reflexivity.
Qed.

(** Blocks that each end with the line holding one line feed, joined by
    line feeds: three line feeds stand between two blocks, two after
    the last. *)
Lemma join_blocks (bs : list (list str)) :
  bs <> [] -> Forall (fun b => b <> []) bs ->
  join [LF] (concat (map (fun b => b ++ [[LF]]) bs))
  = join [LF; LF; LF] (map (join [LF]) bs) ++ [LF; LF].
Proof.
  induction bs as [|b bs IH]; [congruence|]. intros _ Hne.
  inversion Hne as [|? ? Hb Hbs]; subst.
  destruct bs as [|b2 bs].
  - cbn [map concat]. rewrite app_nil_r.
    rewrite join_app by (assumption || discriminate). reflexivity.
  - change (concat (map (fun b => b ++ [[LF]]) (b :: b2 :: bs)))
      with ((b ++ [[LF]]) ++ concat (map (fun b => b ++ [[LF]]) (b2 :: bs))).
    rewrite join_app.
    + rewrite IH by (assumption || discriminate).
      rewrite join_app by (assumption || discriminate).
      change (map (join [LF]) (b :: b2 :: bs))
        with (join [LF] b :: map (join [LF]) (b2 :: bs)).
      rewrite (join_cons [LF; LF; LF]) by (cbn [map]; discriminate).
      repeat rewrite <- app_assoc. reflexivity.
    + destruct b; discriminate.
    + cbn [map concat]. destruct b2; discriminate.
Qed.

Lemma nth_error_concat_fixed {A B : Type} (f : A -> list B) (m : nat) (l : list A) :
  (forall x, length (f x) = m) ->
  forall n x r, nth_error l n = Some x -> (r < m)%nat ->
    nth_error (concat (map f l)) (m * n + r) = nth_error (f x) r.
Proof.
  intros Hm. induction l as [|a l IH]; intros [|n] x r Hn Hr; try discriminate.
  - injection Hn as ->. cbn [map concat].
    replace (m * 0 + r)%nat with r by lia.
    apply nth_error_app1. rewrite Hm. exact Hr.
  - cbn [map concat]. cbn [nth_error] in Hn.
    rewrite nth_error_app2 by (rewrite Hm; lia).
    rewrite Hm. replace (m * S n + r - m)%nat with (m * n + r)%nat by lia.
    apply IH; assumption.
Qed.

Lemma nth_error_enumerate {A : Type} (l : list A) :
  forall start n x,
    nth_error l n = Some x -> nth_error (enumerate l start) n = Some ((start + n)%nat, x).
Proof.
  unfold enumerate.
  induction l as [|a l IH]; intros start [|n] x Hn; try discriminate.
  - injection Hn as ->. cbn. rewrite Nat.add_0_r. reflexivity.
  - cbn [length seq combine nth_error]. cbn [nth_error] in Hn.
    rewrite (IH (S start) n x Hn). f_equal. f_equal. lia.
Qed.

Lemma length_enumerate {A : Type} (l : list A) start : length (enumerate l start) = length l.
Proof. unfold enumerate. rewrite length_combine, length_seq. apply Nat.min_id. Qed.

Lemma length_concat_fixed {A B : Type} (f : A -> list B) (m : nat) (l : list A) :
  (forall x, length (f x) = m) -> length (concat (map f l)) = (m * length l)%nat.
Proof.
  intros Hm. induction l as [|a l IH]; cbn [map concat length]; [lia|].
  rewrite length_app, Hm, IH. lia.
Qed.

Lemma length_block item : length (block_lines item ++ [[LF]]) = 7%nat.
Proof. destruct item as [i [p d]]. reflexivity. Qed.

(** No step of the composer reads or changes the world. *)
Lemma add_block_pure item lines : pure (add_block item lines).
Proof.
  destruct item as [i [p v]].
  destruct (is_dict v) eqn:E.
  - destruct v; try discriminate E.
    exists (Returns (lines ++ block_lines (i, (p, d)) ++ [[LF]])).
    intros w. apply (add_block_dict i p d).
  - exists (Raises (AttributeError (type_name v) (lit "get"))).
    intros w. apply add_block_not_dict. exact E.
Qed.

Lemma for_loop_pure {A S : Type} (body : A -> S -> py S) (l : list A) :
  (forall x s, pure (body x s)) -> forall s, pure (for_loop l body s).
Proof.
  intros Hb. induction l as [|x l IH]; intros s.
  - exists (Returns s). reflexivity.
  - destruct (Hb x s) as [[s'|e] Ho].
    + destruct (IH s') as [o' Ho']. exists o'. intros w.
      cbn [for_loop]. rewrite (bind_returns _ _ w s' w (Ho w)). apply Ho'.
    + exists (Raises e). intros w.
      cbn [for_loop]. apply bind_raises. apply Ho.
Qed.

Lemma build_email_pure entries : pure (build_email entries).
Proof.
  destruct entries as [|ps entries].
  - eexists. intros w. reflexivity.
  - change (build_email (ps :: entries)) with (build_digest (ps :: entries)).
    unfold build_digest.
    destruct (for_loop_pure add_block (enumerate (ps :: entries) 1) add_block_pure
                [lit "This week's NBER Industrial Organization papers:" ++ [LF]])
      as [[lines|e] Ho].
    + eexists. intros w. rewrite (bind_returns _ _ w lines w (Ho w)). reflexivity.
    + exists (Raises e). intros w. apply bind_raises. apply Ho.
Qed.

(** The loop of the composer stops with [AttributeError] at the first
    summary that is not a mapping. *)
Lemma for_loop_not_dict l : forall k lines w p v,
  In {| entry_paper := p; entry_summary_of := v |} l -> is_dict v = false ->
  exists t, for_loop (combine (seq k (length l)) l) add_block lines w
            = (Raises (AttributeError t (lit "get")), w).
Proof.
  induction l as [|[p0 v0] l IH]; intros k lines w p v Hin Hv; [contradiction|].
  cbn [length seq combine for_loop].
  destruct (is_dict v0) eqn:E.
  - destruct v0; try discriminate E.
    rewrite (bind_returns _ _ w _ w (add_block_dict k p0 d lines w)).
    destruct Hin as [Heq|Hin].
    + injection Heq as _ <-. discriminate Hv.
    + eapply IH; eassumption.
  - exists (type_name v0). apply bind_raises. apply add_block_not_dict. exact E.
Qed.

Lemma build_email_not_dict entries w p v :
  In {| entry_paper := p; entry_summary_of := v |} entries -> is_dict v = false ->
  exists t, build_email entries w = (Raises (AttributeError t (lit "get")), w).
Proof.
  intros Hin Hv. destruct entries as [|ps entries]; [contradiction|].
  change (build_email (ps :: entries)) with (build_digest (ps :: entries)).
  unfold build_digest, enumerate.
  destruct (for_loop_not_dict (ps :: entries) 1
              [lit "This week's NBER Industrial Organization papers:" ++ [LF]] w p v Hin Hv)
    as [t Ht].
  exists t. apply bind_raises. exact Ht.
Qed.

(* ===================================================================== *)
(** ** Properties of the extractor and of the orchestrator *)
(* ===================================================================== *)

Lemma parse_groq_json_eq raw w :
  parse_groq_json raw w = (json_loads python (json_text raw), w).
Proof. reflexivity. Qed.

(** The extractor on a reply whose first choice holds [raw]. *)
Lemma summarize_with_groq_reply p w raw rest e :
  chat_completions_create (request_of (prompt_of p)) (outside w)
  = (Returns {| choices := Some raw :: rest |}, e) ->
  summarize_with_groq p w = parse_groq_json raw {| outside := e; stdout := stdout w |}.
Proof.
  intros H. unfold summarize_with_groq, bind, call. rewrite H. reflexivity.
Qed.

(** The extractor prints nothing. *)
Lemma summarize_with_groq_stdout p w :
  stdout (snd (summarize_with_groq p w)) = stdout w.
Proof.
  unfold summarize_with_groq, bind, call.
  destruct (chat_completions_create (request_of (prompt_of p)) (outside w))
    as [[[[|[raw|] rest]]|e] e']; reflexivity.
Qed.

Lemma summarize_all_loop papers : forall acc w,
  for_loop papers
    (fun paper papers_summaries =>
       try_except
         (summary <- summarize_with_groq paper ;;
          ret (papers_summaries ++ [{| entry_paper := paper; entry_summary_of := summary |}]))
         (fun e =>
            print (lit "Failed to summarize " ++ title paper ++ lit ": " ++ str_of_exception e) ;;
            ret papers_summaries))
    acc w
  = (Returns (acc ++ successes (fst (extractor_calls papers w))),
     snd (extractor_calls papers w)).
Proof.
  induction papers as [|p ps IH]; intros acc w.
  - cbn. rewrite app_nil_r. reflexivity.
  - cbn [for_loop extractor_calls].
    unfold bind at 1. unfold try_except at 1. unfold bind at 1.
    destruct (summarize_with_groq p w) as [[v|e] w1].
    + unfold ret at 1. rewrite IH.
      destruct (extractor_calls ps w1) as [rs w3]. cbn [fst snd successes].
      rewrite <- app_assoc. reflexivity.
    + unfold bind at 1. unfold print at 1. unfold ret at 1. rewrite IH.
      unfold failure_line.
      destruct (extractor_calls ps _) as [rs w3]. reflexivity.
Qed.

Lemma extractor_calls_papers papers : forall w,
  map fst (fst (extractor_calls papers w)) = papers.
Proof.
  induction papers as [|p ps IH]; intros w; [reflexivity|].
  cbn [extractor_calls].
  destruct (summarize_with_groq p w) as [r w1].
  specialize (IH (match r with
                  | Returns _ => w1
                  | Raises e => {| outside := outside w1;
                                   stdout := stdout w1 ++ [failure_line p e] |}
                  end)).
  destruct (extractor_calls ps _) as [rs w3]. cbn [fst map] in *. congruence.
Qed.

Lemma extractor_calls_stdout papers : forall w,
  stdout (snd (extractor_calls papers w))
  = stdout w ++ failures (fst (extractor_calls papers w)).
Proof.
  induction papers as [|p ps IH]; intros w.
  - cbn. rewrite app_nil_r. reflexivity.
  - cbn [extractor_calls].
    pose proof (summarize_with_groq_stdout p w) as Hout.
    destruct (summarize_with_groq p w) as [r w1]. cbn [snd] in Hout.
    specialize (IH (match r with
                    | Returns _ => w1
                    | Raises e => {| outside := outside w1;
                                     stdout := stdout w1 ++ [failure_line p e] |}
                    end)).
    destruct (extractor_calls ps _) as [rs w3]. cbn [fst snd] in *.
    rewrite IH. destruct r as [v|e]; cbn [failures stdout].
    + congruence.
    + rewrite Hout, <- app_assoc. reflexivity.
Qed.

(* ===================================================================== *)
(** ** Properties of the normalizer *)
(* ===================================================================== *)

Lemma join_nil (l : list str) : join [] l = concat l.
Proof.
  induction l as [|x [|y l] IH]; [reflexivity| |].
  - cbn. rewrite app_nil_r. reflexivity.
  - change (join [] (x :: y :: l)) with (x ++ [] ++ join [] (y :: l)).
    rewrite IH. reflexivity.
Qed.

Lemma lstrip_idem s : lstrip (lstrip s) = lstrip s.
Proof.
  induction s as [|c s IH]; [reflexivity|].
  cbn. destruct (isspace c) eqn:E; [exact IH|]. cbn. rewrite E. reflexivity.
Qed.

(** What [lstrip] removes is a run of whitespace at the front. *)
Lemma lstrip_split s :
  exists sp, s = sp ++ lstrip s /\ forallb isspace sp = true.
Proof.
  induction s as [|c s (sp & Hs & Hsp)].
  - exists []. split; reflexivity.
  - cbn [lstrip]. destruct (isspace c) eqn:E.
    + exists (c :: sp). split; [cbn; congruence|]. cbn. rewrite E. exact Hsp.
    + exists []. split; reflexivity.
Qed.

Lemma lstrip_spaces_app sp s :
  forallb isspace sp = true -> lstrip (sp ++ s) = lstrip s.
Proof.
  induction sp as [|c sp IH]; [reflexivity|]. cbn.
  intros H. apply andb_true_iff in H. destruct H as [Hc Hsp].
  rewrite Hc. apply IH. exact Hsp.
Qed.

Lemma lstrip_fixed_app x y : x <> [] -> lstrip x = x -> lstrip (x ++ y) = x ++ y.
Proof.
  destruct x as [|c x]; [congruence|]. intros _. cbn.
  destruct (isspace c) eqn:E; [|reflexivity].
  intros H. exfalso.
  destruct (lstrip_split x) as (sp & Hx & _).
  apply (f_equal (@length char)) in H. rewrite Hx in H at 2.
  cbn in H. rewrite length_app in H. lia.
Qed.

(** [rstrip] leaves a prefix. *)
Lemma rstrip_split s :
  exists sp, s = rstrip s ++ sp /\ forallb isspace sp = true.
Proof.
  unfold rstrip. destruct (lstrip_split (rev s)) as (sp & Hs & Hsp).
  exists (rev sp). split.
  - rewrite <- rev_app_distr, <- Hs, rev_involutive. reflexivity.
  - rewrite forallb_forall in *. intros x Hx. apply Hsp. apply in_rev. exact Hx.
Qed.

Lemma lstrip_rstrip s : lstrip s = s -> lstrip (rstrip s) = rstrip s.
Proof.
  intros H. destruct (rstrip_split s) as (sp & Hs & _).
  destruct (rstrip s) as [|c r] eqn:E; [reflexivity|].
  rewrite Hs in H. cbn in H. cbn. destruct (isspace c); [|reflexivity].
  exfalso. destruct (lstrip_split (r ++ sp)) as (sp' & Hr & _).
  apply (f_equal (@length char)) in H. rewrite Hr in H at 2.
  cbn in H. rewrite length_app in H. lia.
Qed.

Lemma strip_no_lead s : lstrip (strip s) = strip s.
Proof. unfold strip. apply lstrip_rstrip. apply lstrip_idem. Qed.

Lemma strip_no_trail s : lstrip (rev (strip s)) = rev (strip s).
Proof.
  unfold strip, rstrip. rewrite rev_involutive. apply lstrip_idem.
Qed.

Lemma strip_fixed s : lstrip s = s -> lstrip (rev s) = rev s -> strip s = s.
Proof.
  intros H1 H2. unfold strip, rstrip. rewrite H1, H2. apply rev_involutive.
Qed.

(** A concatenation of pieces that are stripped and not empty is
    itself stripped. *)
Lemma concat_stripped (l : list str) :
  Forall (fun x => x <> [] /\ lstrip x = x /\ lstrip (rev x) = rev x) l ->
  lstrip (concat l) = concat l /\ lstrip (rev (concat l)) = rev (concat l).
Proof.
  induction 1 as [|x l (Hne & Hl & Hr) HF (IHl & IHr)]; [split; reflexivity|].
  cbn [concat]. split.
  - apply lstrip_fixed_app; assumption.
  - rewrite rev_app_distr. destruct l as [|y l].
    + cbn [concat rev app]. exact Hr.
    + apply lstrip_fixed_app; [|exact IHr].
      inversion HF as [|? ? (Hy & _) _]; subst.
      cbn [concat]. intros Hnil. apply (f_equal (@rev char)) in Hnil.
      rewrite rev_involutive in Hnil. cbn in Hnil.
      apply app_eq_nil in Hnil. destruct Hnil. contradiction.
Qed.

Lemma all_strings_stripped_pieces doc :
  Forall (fun x => x <> [] /\ lstrip x = x /\ lstrip (rev x) = rev x)
         (all_strings_stripped doc).
Proof.
  induction doc as [|[name|t|t|t] doc IH]; cbn [all_strings_stripped];
    try exact IH; try constructor.
  all: destruct (strip t) as [|c x] eqn:E; [exact IH|].
  all: constructor; [|exact IH].
  all: rewrite <- E; repeat split;
    [rewrite E; discriminate | apply strip_no_lead | apply strip_no_trail].
Qed.

Lemma drops_spaces_refl s : drops_spaces s s.
Proof. induction s; constructor; assumption. Qed.

Lemma drops_spaces_app a b c d :
  drops_spaces a b -> drops_spaces c d -> drops_spaces (a ++ c) (b ++ d).
Proof. induction 1; intros Hcd; cbn; try constructor; auto. Qed.

Lemma drops_spaces_all sp : forallb isspace sp = true -> drops_spaces sp [].
Proof.
  induction sp as [|c sp IH]; [constructor|]. cbn. intros H.
  apply andb_true_iff in H. destruct H. constructor; auto.
Qed.

Lemma drops_spaces_trans a b c :
  drops_spaces a b -> drops_spaces b c -> drops_spaces a c.
Proof.
  intros Hab. revert c. induction Hab; intros c' Hbc.
  - exact Hbc.
  - inversion Hbc; subst; constructor; auto.
  - constructor; auto.
Qed.

Lemma drops_spaces_strip s : drops_spaces s (strip s).
Proof.
  unfold strip.
  destruct (lstrip_split s) as (sp & Hs & Hsp).
  destruct (rstrip_split (lstrip s)) as (sp' & Hs' & Hsp').
  apply drops_spaces_trans with (lstrip s).
  - rewrite Hs at 1. change (lstrip s) with ([] ++ lstrip s) at 2.
    apply drops_spaces_app; [apply drops_spaces_all; exact Hsp | apply drops_spaces_refl].
  - rewrite Hs' at 1. rewrite <- (app_nil_r (rstrip (lstrip s))) at 2.
    apply drops_spaces_app; [apply drops_spaces_refl | apply drops_spaces_all; exact Hsp'].
Qed.

Lemma drops_spaces_get_text doc :
  drops_spaces (get_text doc) (get_text_strip doc).
Proof.
  unfold get_text, get_text_strip. rewrite !join_nil.
  induction doc as [|[name|t|t|t] doc IH]; cbn [all_strings all_strings_stripped concat];
    try exact IH; try constructor.
  all: pose proof (drops_spaces_strip t) as Ht.
  all: destruct (strip t) as [|c x] eqn:E.
  all: try (change (concat (all_strings_stripped doc))
              with ([] ++ concat (all_strings_stripped doc));
            apply drops_spaces_app; assumption).
  all: cbn [concat]; apply drops_spaces_app; assumption.
Qed.

(** Characters that are not whitespace pass unchanged, in order. *)
Lemma drops_spaces_visible full out :
  drops_spaces full out ->
  filter (fun c => negb (isspace c)) out = filter (fun c => negb (isspace c)) full.
Proof.
  induction 1 as [|c full out _ IH|c full out Hc _ IH]; cbn.
  - reflexivity.
  - rewrite IH. reflexivity.
  - rewrite Hc. cbn. exact IH.
Qed.

(* ===================================================================== *)
(** ** Properties of the fence pattern *)
(* ===================================================================== *)

Lemma strip_prefix_app p t : strip_prefix p (p ++ t) = Some t.
Proof.
  induction p as [|a p IH]; [reflexivity|]. cbn. rewrite N.eqb_refl. exact IH.
Qed.

Lemma strip_prefix_some p : forall s r, strip_prefix p s = Some r -> s = p ++ r.
Proof.
  induction p as [|a p IH]; intros s r; cbn.
  - intros [= ->]. reflexivity.
  - destruct s as [|c s]; [discriminate|].
    destruct (c =? a) eqn:E; [|discriminate].
    apply N.eqb_eq in E. subst c. intros H. f_equal. apply IH. exact H.
Qed.

Lemma lstrip_head s c t : lstrip s = c :: t -> isspace c = false.
Proof.
  induction s as [|x s IH]; cbn; [discriminate|].
  destruct (isspace x) eqn:E; [exact IH|]. intros [= <- _]. exact E.
Qed.

Lemma lstrip_nonspace c t : isspace c = false -> lstrip (c :: t) = c :: t.
Proof. intros H. cbn. rewrite H. reflexivity. Qed.

Lemma has_fence_mark_tail c s : has_fence_mark (c :: s) = false -> has_fence_mark s = false.
Proof.
  cbn. destruct s as [|b [|d s]]; try reflexivity.
  intros H. apply orb_false_iff in H. destruct H as [_ H]. exact H.
Qed.

Lemma has_fence_mark_suffix a b : has_fence_mark (a ++ b) = false -> has_fence_mark b = false.
Proof.
  induction a as [|c a IH]; [auto|]. intros H. apply IH.
  apply has_fence_mark_tail with c. exact H.
Qed.

Lemma has_fence_mark_lstrip s : has_fence_mark s = false -> has_fence_mark (lstrip s) = false.
Proof.
  intros H. destruct (lstrip_split s) as (sp & Hs & _).
  rewrite Hs in H. apply has_fence_mark_suffix in H. exact H.
Qed.

(** Greedy whitespace before something that cannot start with
    whitespace takes all the whitespace there is. *)
Lemma star_greedy_space {A : Type} (cont : str -> option A) s :
  (forall c t, isspace c = true -> cont (c :: t) = None) ->
  star_greedy CSpace s cont = cont (lstrip s).
Proof.
  intros Hc. induction s as [|c s IH]; [reflexivity|].
  cbn. destruct (isspace c) eqn:E; [|reflexivity].
  rewrite IH. destruct (cont (lstrip s)); [reflexivity|]. apply Hc. exact E.
Qed.

(** A lazy run of any characters skips a prefix after no part of which
    the rest of the pattern matches. *)
Lemma star_lazy_skip {A : Type} (cont : str -> option A) X : forall rest,
  (forall X1 X2, X = X1 ++ X2 -> X2 <> [] -> cont (X2 ++ rest) = None) ->
  star_lazy CAny (X ++ rest) cont = star_lazy CAny rest cont.
Proof.
  induction X as [|c X IH]; intros rest H; [reflexivity|].
  cbn [app star_lazy in_cls].
  assert (H0 : cont ((c :: X) ++ rest) = None) by (apply (H []); [reflexivity | discriminate]).
  cbn [app] in H0. rewrite H0.
  apply IH. intros X1 X2 HX Hne. apply (H (c :: X1) X2); [|exact Hne].
  cbn. congruence.
Qed.

Lemma star_lazy_now {A : Type} (cont : str -> option A) k s a :
  cont s = Some a -> star_lazy k s cont = Some a.
Proof. intros H. destruct s; cbn; rewrite H; reflexivity. Qed.

(** After a closing brace inside a text without three backticks in a
    row, the end of the pattern does not match. *)
Lemma no_close_inside X tail :
  has_fence_mark X = false ->
  strip_prefix (lit "```") (lstrip (X ++ 125 :: tail)) = None.
Proof.
  intros H. apply has_fence_mark_lstrip in H.
  destruct (lstrip_split X) as (sp & HX & Hsp).
  rewrite HX, <- app_assoc, lstrip_spaces_app by exact Hsp.
  destruct (lstrip X) as [|c Y] eqn:E.
  - reflexivity.
  - apply lstrip_head in E. cbn [app]. rewrite lstrip_nonspace by exact E.
    change (lit "```") with [96; 96; 96]. cbn [strip_prefix app].
    destruct (c =? 96) eqn:E1; [|reflexivity].
    destruct Y as [|y1 Y]; [reflexivity|]. cbn [app].
    destruct (y1 =? 96) eqn:E2; [|reflexivity].
    destruct Y as [|y2 Y]; [reflexivity|]. cbn [app].
    destruct (y2 =? 96) eqn:E3; [|reflexivity].
    cbn in H. unfold BACKTICK in H. rewrite E1, E2, E3 in H. discriminate H.
Qed.

Lemma firstn_app_length {A : Type} (a b : list A) :
  firstn (length (a ++ b) - length b) (a ++ b) = a.
Proof.
  rewrite length_app. replace (length a + length b - length b)%nat with (length a) by lia.
  rewrite firstn_app, Nat.sub_diag, firstn_all. cbn. apply app_nil_r.
Qed.

Lemma rmatch_seq {A : Type} r1 r2 s g (cont : str -> option str -> option A) :
  rmatch (RSeq r1 r2) s g cont = rmatch r1 s g (fun rest g' => rmatch r2 rest g' cont).
Proof. reflexivity. Qed.

Lemma rmatch_lit {A : Type} l s g (cont : str -> option str -> option A) :
  rmatch (RLit l) s g cont
  = match strip_prefix l s with
    | Some rest => cont rest g
    | None => None
    end.
Proof. reflexivity. Qed.

Lemma rmatch_group {A : Type} r s g (cont : str -> option str -> option A) :
  rmatch (RGroup r) s g cont
  = rmatch r s g (fun rest _ => cont rest (Some (firstn (length s - length rest) s))).
Proof. reflexivity. Qed.

(** The group and the end of the pattern, at the opening brace of a
    brace-delimited text without three backticks in a row. *)
Lemma fence_group_found X W2 S :
  has_fence_mark X = false -> forallb isspace W2 = true ->
  rmatch
    (RSeq (RGroup (RSeq (RLit (lit "{")) (RSeq (RLazy CAny) (RLit (lit "}")))))
          (RSeq (RStar CSpace) (RLit (lit "```"))))
    (123 :: X ++ 125 :: W2 ++ lit "```" ++ S) None (fun _ g => Some g)
  = Some (Some (123 :: X ++ [125])).
Proof.
  intros HX HW.
  rewrite rmatch_seq, rmatch_group, rmatch_seq, rmatch_lit.
  change (lit "{") with [123]. change (lit "}") with [125].
  cbn [strip_prefix]. rewrite N.eqb_refl.
  rewrite rmatch_seq. cbn [rmatch].
  rewrite star_lazy_skip.
  - apply star_lazy_now. cbn [strip_prefix]. rewrite N.eqb_refl.
    rewrite star_greedy_space.
    + rewrite lstrip_spaces_app by exact HW.
      change (lit "```" ++ S) with (96 :: 96 :: 96 :: S).
      rewrite lstrip_nonspace by reflexivity.
      change (lit "```") with [96; 96; 96]. cbn [strip_prefix]. rewrite N.eqb_refl.
      f_equal. f_equal.
      change (123 :: X ++ 125 :: W2 ++ 96 :: 96 :: 96 :: S)
        with ((123 :: X) ++ 125 :: W2 ++ 96 :: 96 :: 96 :: S).
      replace ((123 :: X) ++ 125 :: W2 ++ 96 :: 96 :: 96 :: S)
        with (((123 :: X) ++ [125]) ++ (W2 ++ 96 :: 96 :: 96 :: S))
        by (rewrite <- app_assoc; reflexivity).
      apply firstn_app_length.
    + intros c t Hc. change (lit "```") with [96; 96; 96]. cbn [strip_prefix].
      destruct (c =? 96) eqn:E; [|reflexivity].
      apply N.eqb_eq in E. subst c. discriminate Hc.
  - intros X1 X2 HX12 Hne.
    destruct X2 as [|c X2]; [congruence|]. cbn [app strip_prefix].
    destruct (c =? 125) eqn:E; [|reflexivity].
    rewrite star_greedy_space.
    + rewrite no_close_inside; [reflexivity|].
      rewrite HX12 in HX. apply has_fence_mark_suffix in HX.
      apply has_fence_mark_tail in HX. exact HX.
    + intros c' t Hc. change (lit "```") with [96; 96; 96]. cbn [strip_prefix].
      destruct (c' =? 96) eqn:E'; [|reflexivity].
      apply N.eqb_eq in E'. subst c'. discriminate Hc.
Qed.

Lemma rmatch_star {A : Type} k s g (cont : str -> option str -> option A) :
  rmatch (RStar k) s g cont = star_greedy k s (fun rest => cont rest g).
Proof. reflexivity. Qed.

Lemma rmatch_opt {A : Type} r s g (cont : str -> option str -> option A) :
  rmatch (ROpt r) s g cont
  = match rmatch r s g cont with
    | Some a => Some a
    | None => cont s g
    end.
Proof. reflexivity. Qed.

(** The group cannot start at a whitespace character or at a backtick. *)
Lemma fence_group_needs_brace {A : Type} c t g (cont : str -> option str -> option A) :
  c <> 123 ->
  rmatch
    (RSeq (RGroup (RSeq (RLit (lit "{")) (RSeq (RLazy CAny) (RLit (lit "}")))))
          (RSeq (RStar CSpace) (RLit (lit "```"))))
    (c :: t) g cont = None.
Proof.
  intros Hc. rewrite rmatch_seq, rmatch_group, rmatch_seq, rmatch_lit.
  change (lit "{") with [123]. cbn [strip_prefix].
  apply N.eqb_neq in Hc. rewrite Hc. reflexivity.
Qed.

(** From the whitespace after the tag on. *)
Lemma fence_body_found W1 X W2 S :
  forallb isspace W1 = true -> has_fence_mark X = false -> forallb isspace W2 = true ->
  rmatch
    (RSeq (RStar CSpace)
       (RSeq (RGroup (RSeq (RLit (lit "{")) (RSeq (RLazy CAny) (RLit (lit "}")))))
          (RSeq (RStar CSpace) (RLit (lit "```")))))
    (W1 ++ 123 :: X ++ 125 :: W2 ++ lit "```" ++ S) None (fun _ g => Some g)
  = Some (Some (123 :: X ++ [125])).
Proof.
  intros HW1 HX HW2. rewrite rmatch_seq, rmatch_star.
  rewrite star_greedy_space.
  - rewrite lstrip_spaces_app by exact HW1.
    rewrite lstrip_nonspace by reflexivity.
    apply fence_group_found; assumption.
  - intros c t Hc. apply fence_group_needs_brace.
    intros ->. discriminate Hc.
Qed.

(** The pattern matches at a fence that wraps a brace-delimited text
    without three backticks in a row, and captures that text. *)
Lemma fence_found tag W1 X W2 S :
  tag = [] \/ tag = lit "json" ->
  forallb isspace W1 = true -> has_fence_mark X = false -> forallb isspace W2 = true ->
  re_match FENCE_RE (lit "```" ++ tag ++ W1 ++ 123 :: X ++ 125 :: W2 ++ lit "```" ++ S)
  = Some (Some (123 :: X ++ [125])).
Proof.
  intros Htag HW1 HX HW2. unfold re_match, FENCE_RE.
  rewrite rmatch_seq, rmatch_lit, strip_prefix_app.
  rewrite rmatch_seq, rmatch_opt, rmatch_lit.
  destruct Htag as [-> | ->].
  - cbn [app]. rewrite fence_body_found by assumption.
    replace (strip_prefix (lit "json") (W1 ++ 123 :: X ++ 125 :: W2 ++ lit "```" ++ S))
      with (@None str); [reflexivity|].
    change (lit "json") with [106; 115; 111; 110].
    destruct W1 as [|c W1]; [reflexivity|]. cbn [app strip_prefix].
    destruct (c =? 106) eqn:E; [|reflexivity].
    apply N.eqb_eq in E. subst c. discriminate HW1.
  - rewrite strip_prefix_app. rewrite fence_body_found by assumption. reflexivity.
Qed.

(** After the three backticks the pattern wants the tag, whitespace or
    the opening brace: not one more backtick. *)
Lemma fence_not_at_backtick t :
  rmatch
    (RSeq (ROpt (RLit (lit "json")))
       (RSeq (RStar CSpace)
          (RSeq (RGroup (RSeq (RLit (lit "{")) (RSeq (RLazy CAny) (RLit (lit "}")))))
             (RSeq (RStar CSpace) (RLit (lit "```"))))))
    (96 :: t) None (fun _ g => Some g) = None.
Proof.
  rewrite rmatch_seq, rmatch_opt, rmatch_lit.
  change (lit "json") with [106; 115; 111; 110]. cbn [strip_prefix N.eqb Pos.eqb].
  rewrite rmatch_seq, rmatch_star. cbn [star_greedy in_cls].
  replace (isspace 96) with false by reflexivity.
  apply fence_group_needs_brace. discriminate.
Qed.

(** The pattern does not match inside a text without three backticks in
    a row that is followed by a fence. *)
Lemma fence_not_before P F :
  P <> [] -> has_fence_mark P = false ->
  re_match FENCE_RE (P ++ 96 :: 96 :: 96 :: F) = None.
Proof.
  intros Hne HP. unfold re_match, FENCE_RE.
  rewrite rmatch_seq, rmatch_lit. change (lit "```") with [96; 96; 96].
  destruct P as [|c1 [|c2 [|c3 P]]]; [congruence| | |]; cbn [app strip_prefix].
  - destruct (c1 =? 96); [|reflexivity].
    rewrite !N.eqb_refl. apply fence_not_at_backtick.
  - destruct (c1 =? 96); [|reflexivity].
    destruct (c2 =? 96); [|reflexivity].
    rewrite !N.eqb_refl. apply fence_not_at_backtick.
  - destruct (c1 =? 96) eqn:E1; [|reflexivity].
    destruct (c2 =? 96) eqn:E2; [|reflexivity].
    destruct (c3 =? 96) eqn:E3; [|reflexivity].
    cbn in HP. unfold BACKTICK in HP. rewrite E1, E2, E3 in HP. discriminate HP.
Qed.

Lemma re_search_skip r P : forall F,
  (forall P1 P2, P = P1 ++ P2 -> P2 <> [] -> re_match r (P2 ++ F) = None) ->
  re_search r (P ++ F) = re_search r F.
Proof.
  induction P as [|c P IH]; intros F H; [reflexivity|].
  assert (H0 : re_match r ((c :: P) ++ F) = None)
    by (apply (H []); [reflexivity | discriminate]).
  cbn [app] in H0. cbn [app re_search]. rewrite H0.
  apply IH. intros P1 P2 HP Hne. apply (H (c :: P1)); [|exact Hne].
  cbn. congruence.
Qed.

Lemma re_search_now r s g : re_match r s = Some g -> re_search r s = Some g.
Proof. intros H. destruct s; cbn; rewrite H; reflexivity. Qed.

(** [re.search] finds the first fence of a reply and captures the
    brace-delimited text it wraps. *)
Lemma fence_search P tag W1 X W2 S :
  has_fence_mark P = false ->
  tag = [] \/ tag = lit "json" ->
  forallb isspace W1 = true -> has_fence_mark X = false -> forallb isspace W2 = true ->
  re_search FENCE_RE
    (P ++ lit "```" ++ tag ++ W1 ++ 123 :: X ++ 125 :: W2 ++ lit "```" ++ S)
  = Some (Some (123 :: X ++ [125])).
Proof.
  intros HP Htag HW1 HX HW2.
  rewrite re_search_skip.
  - apply re_search_now. apply fence_found; assumption.
  - intros P1 P2 HP12 Hne. change (lit "```" ++ tag ++ W1 ++ 123 :: X ++ 125 :: W2 ++ lit "```" ++ S)
      with (96 :: 96 :: 96 :: tag ++ W1 ++ 123 :: X ++ 125 :: W2 ++ lit "```" ++ S).
    apply fence_not_before; [exact Hne|].
    rewrite HP12 in HP. apply has_fence_mark_suffix in HP. exact HP.
Qed.

(** Without three backticks in a row there is no fence. *)
Lemma no_mark_no_fence s : has_fence_mark s = false -> re_search FENCE_RE s = None.
Proof.
  induction s as [|c s IH]; intros H.
  - reflexivity.
  - cbn [re_search].
    assert (Hm : re_match FENCE_RE (c :: s) = None).
    { unfold re_match, FENCE_RE. rewrite rmatch_seq, rmatch_lit.
      change (lit "```") with [96; 96; 96].
      destruct s as [|c2 [|c3 s]]; cbn [strip_prefix];
        repeat match goal with
               | |- context [?x =? 96] => destruct (x =? 96) eqn:?
               end; try reflexivity.
      cbn in H. unfold BACKTICK in H.
      repeat match goal with E : (_ =? 96) = true |- _ => rewrite E in H; clear E end.
      discriminate H. }
    rewrite Hm. apply IH. apply has_fence_mark_tail with c. exact H.
Qed.

(** *** The pattern finds the fence the words describe *)

Lemma closes_fence_tail {A : Type} (a : A) rest :
  star_greedy CSpace rest
    (fun r2 => match strip_prefix (lit "```") r2 with
               | Some _ => Some a
               | None => None
               end)
  = if closes_fence rest then Some a else None.
Proof.
  rewrite star_greedy_space.
  - unfold closes_fence. destruct (strip_prefix (lit "```") (lstrip rest)); reflexivity.
  - intros c t Hc. change (lit "```") with [96; 96; 96]. cbn [strip_prefix].
    destruct (c =? 96) eqn:E; [|reflexivity].
    apply N.eqb_eq in E. subst c. discriminate Hc.
Qed.

Lemma star_lazy_cons {A : Type} k c s (cont : str -> option A) :
  star_lazy k (c :: s) cont
  = match cont (c :: s) with
    | Some a => Some a
    | None => if in_cls k c then star_lazy k s cont else None
    end.
Proof. reflexivity. Qed.

Lemma star_lazy_ext {A : Type} k (cont1 cont2 : str -> option A) :
  (forall s, cont1 s = cont2 s) ->
  forall s, star_lazy k s cont1 = star_lazy k s cont2.
Proof.
  intros H. induction s as [|c s IH].
  - cbn. rewrite H. reflexivity.
  - rewrite !star_lazy_cons, H, IH. reflexivity.
Qed.

(** The lazy run stops before the first closing brace after which the
    fence closes. *)
Lemma star_lazy_to_closing_brace s0 : forall inner pre,
  s0 = 123 :: pre ++ inner ->
  star_lazy CAny inner
    (fun r => match strip_prefix (lit "}") r with
              | Some rest =>
                  if closes_fence rest
                  then Some (Some (firstn (length s0 - length rest) s0))
                  else None
              | None => None
              end)
  = option_map (fun x => Some (123 :: pre ++ x)) (to_closing_brace inner).
Proof.
  change (lit "}") with [125].
  induction inner as [|c t IH]; intros pre Hs0; [reflexivity|].
  rewrite star_lazy_cons. cbv beta.
  change (strip_prefix [125] (c :: t)) with (if c =? 125 then Some t else None).
  cbn [to_closing_brace in_cls].
  assert (Hnext : star_lazy CAny t
                    (fun r => match strip_prefix [125] r with
                              | Some rest =>
                                  if closes_fence rest
                                  then Some (Some (firstn (length s0 - length rest) s0))
                                  else None
                              | None => None
                              end)
                  = option_map (fun x => Some (123 :: pre ++ x))
                      (option_map (cons c) (to_closing_brace t))).
  { rewrite (IH (pre ++ [c])) by (rewrite <- app_assoc; exact Hs0).
    destruct (to_closing_brace t); [|reflexivity].
    cbn [option_map]. rewrite <- app_assoc. reflexivity. }
  destruct (c =? 125) eqn:Ec; cbn [andb]; [|exact Hnext].
  destruct (closes_fence t) eqn:Eclose; [|exact Hnext].
  apply N.eqb_eq in Ec. subst c. cbn [option_map]. do 2 f_equal.
  rewrite Hs0.
  change (123 :: pre ++ 125 :: t) with ((123 :: pre) ++ [125] ++ t).
  rewrite app_assoc. rewrite firstn_app_length. reflexivity.
Qed.

(** The pattern from the whitespace after the tag on. *)
Lemma fence_body_eq t :
  rmatch
    (RSeq (RStar CSpace)
       (RSeq (RGroup (RSeq (RLit (lit "{")) (RSeq (RLazy CAny) (RLit (lit "}")))))
          (RSeq (RStar CSpace) (RLit (lit "```")))))
    t None (fun _ g => Some g)
  = match lstrip t with
    | c :: inner =>
        if c =? 123 then option_map (fun x => Some (c :: x)) (to_closing_brace inner)
        else None
    | [] => None
    end.
Proof.
  rewrite rmatch_seq, rmatch_star. rewrite star_greedy_space.
  - destruct (lstrip t) as [|c inner]; [reflexivity|].
    destruct (c =? 123) eqn:Ec.
    + apply N.eqb_eq in Ec. subst c.
      rewrite rmatch_seq, rmatch_group, rmatch_seq, rmatch_lit.
      change (lit "{") with [123]. cbn [strip_prefix]. rewrite N.eqb_refl.
      rewrite rmatch_seq. cbn [rmatch].
      rewrite (star_lazy_ext CAny _
                 (fun r => match strip_prefix (lit "}") r with
                           | Some rest =>
                               if closes_fence rest
                               then Some (Some (firstn (length (123%N :: inner) - length rest)
                                                  (123 :: inner)))
                               else None
                           | None => None
                           end)).
      * exact (star_lazy_to_closing_brace (123 :: inner) inner [] eq_refl).
      * intros r. destruct (strip_prefix (lit "}") r) as [rest|]; [|reflexivity].
        apply closes_fence_tail.
    + apply fence_group_needs_brace. apply N.eqb_neq. exact Ec.
  - intros c u Hc. apply fence_group_needs_brace. intros ->. discriminate Hc.
Qed.

(** [re.match] of the pattern finds the fence at the start of a text. *)
Lemma re_match_fence_at s : re_match FENCE_RE s = option_map Some (fence_at s).
Proof.
  unfold re_match, FENCE_RE, fence_at.
  rewrite rmatch_seq, rmatch_lit.
  destruct (strip_prefix (lit "```") s) as [t|]; [|reflexivity].
  rewrite rmatch_seq, rmatch_opt, rmatch_lit.
  destruct (strip_prefix (lit "json") t) as [u|] eqn:Etag.
  - rewrite fence_body_eq.
    assert (Hno : rmatch
                    (RSeq (RStar CSpace)
                       (RSeq (RGroup (RSeq (RLit (lit "{"))
                                        (RSeq (RLazy CAny) (RLit (lit "}")))))
                          (RSeq (RStar CSpace) (RLit (lit "```")))))
                    t None (fun _ g => Some g) = @None (option str)).
    { rewrite fence_body_eq. apply strip_prefix_some in Etag. subst t.
      change (lit "json" ++ u) with (106 :: lit "son" ++ u).
      rewrite lstrip_nonspace by reflexivity. reflexivity. }
    rewrite Hno.
    destruct (lstrip u) as [|c inner]; [reflexivity|].
    destruct (c =? 123); [|reflexivity].
    destruct (to_closing_brace inner); reflexivity.
  - rewrite fence_body_eq.
    destruct (lstrip t) as [|c inner]; [reflexivity|].
    destruct (c =? 123); [|reflexivity].
    destruct (to_closing_brace inner); reflexivity.
Qed.

(** [re.search] of the pattern finds the first fence of a text. *)
Lemma re_search_first_fence s : re_search FENCE_RE s = option_map Some (first_fence s).
Proof.
  induction s as [|c s IH].
  - cbn [re_search first_fence]. rewrite re_match_fence_at.
    destruct (fence_at []); reflexivity.
  - cbn [re_search first_fence]. rewrite re_match_fence_at.
    destruct (fence_at (c :: s)); [reflexivity | exact IH].
Qed.

Lemma json_text_candidate raw : json_text raw = candidate raw.
Proof.
  unfold json_text, candidate. rewrite re_search_first_fence.
  destruct (first_fence raw); reflexivity.
Qed.

Lemma candidate_fence raw g : first_fence raw = Some g -> candidate raw = g.
Proof. intros H. unfold candidate. rewrite H. reflexivity. Qed.

Lemma first_fence_candidate raw :
  first_fence raw <> None -> first_fence raw = Some (candidate raw).
Proof. unfold candidate. destruct (first_fence raw); [reflexivity | congruence]. Qed.

(** The first fence is found after a text in which no fence starts. *)
Lemma first_fence_skip P : forall F,
  no_fence_inside P F -> first_fence (P ++ F) = first_fence F.
Proof.
  induction P as [|c P IH]; intros F H; [reflexivity|].
  assert (H0 : fence_at ((c :: P) ++ F) = None)
    by (apply (H []); [reflexivity | discriminate]).
  cbn [app] in H0. cbn [app first_fence]. rewrite H0.
  apply IH. intros P1 P2 HP Hne. apply (H (c :: P1)); [|exact Hne].
  cbn. congruence.
Qed.

Lemma first_fence_now s g : fence_at s = Some g -> first_fence s = Some g.
Proof. intros H. destruct s; cbn; rewrite H; reflexivity. Qed.

(** A text without three backticks in a row in front of a fence holds
    no fence of its own. *)
Lemma no_mark_no_fence_inside P F :
  has_fence_mark P = false -> no_fence_inside P (96 :: 96 :: 96 :: F).
Proof.
  intros HP P1 P2 HP12 Hne.
  pose proof (re_match_fence_at (P2 ++ 96 :: 96 :: 96 :: F)) as Hm.
  rewrite fence_not_before in Hm.
  - destruct (fence_at (P2 ++ 96 :: 96 :: 96 :: F)); [discriminate Hm | reflexivity].
  - exact Hne.
  - rewrite HP12 in HP. apply has_fence_mark_suffix in HP. exact HP.
Qed.

(** The text up to the first closing brace after which the fence
    closes: the whole of [X] exactly when no brace inside it is such a
    brace. *)
Lemma to_closing_brace_whole X T :
  closes_fence T = true ->
  (no_early_close X T <-> to_closing_brace (X ++ 125 :: T) = Some (X ++ [125])).
Proof.
  intros HT. induction X as [|c X IH].
  - split; [|intros _ X1 X2 HX; destruct X1; discriminate HX].
    intros _. cbn [app to_closing_brace]. rewrite N.eqb_refl, HT. reflexivity.
  - cbn [app to_closing_brace].
    destruct ((c =? 125) && closes_fence (X ++ 125 :: T)) eqn:E.
    + apply andb_true_iff in E. destruct E as [Ec Eclose].
      apply N.eqb_eq in Ec. subst c. split.
      * intros H. pose proof (H [] X eq_refl) as H1.
        assert (Hno : true = false) by (etransitivity; [symmetry; exact Eclose | exact H1]).
        discriminate Hno.
      * intros [= HX]. destruct X; discriminate HX.
    + split.
      * intros H. change (Some (c :: X ++ [125])) with (option_map (cons c) (Some (X ++ [125]))).
        f_equal. apply IH. intros X1 X2 HX. apply (H (c :: X1) X2).
        subst X. reflexivity.
      * intros H.
        assert (H' : to_closing_brace (X ++ 125 :: T) = Some (X ++ [125])).
        { destruct (to_closing_brace (X ++ 125 :: T)); [|discriminate H].
          cbn in H. injection H as ->. reflexivity. }
        apply IH in H'. intros X1 X2 HX.
        destruct X1 as [|x X1]; cbn in HX; injection HX as -> ->.
        -- apply andb_false_iff in E. destruct E as [E|E]; [discriminate E | exact E].
        -- apply (H' X1 X2). reflexivity.
Qed.

(** Before a closing brace after which the fence closes, the text to
    such a brace is found. *)
Lemma to_closing_brace_found X T :
  closes_fence T = true -> to_closing_brace (X ++ 125 :: T) <> None.
Proof.
  intros HT. induction X as [|c X IH]; cbn [app to_closing_brace].
  - rewrite N.eqb_refl, HT. discriminate.
  - destruct ((c =? 125) && closes_fence (X ++ 125 :: T)); [discriminate|].
    destruct (to_closing_brace (X ++ 125 :: T)); [discriminate|].
    exfalso. apply IH. reflexivity.
Qed.

Lemma closes_fence_spaces W S :
  forallb isspace W = true -> closes_fence (W ++ lit "```" ++ S) = true.
Proof.
  intros HW. unfold closes_fence. rewrite lstrip_spaces_app by exact HW.
  change (lit "```" ++ S) with (96 :: 96 :: 96 :: S).
  rewrite lstrip_nonspace by reflexivity. reflexivity.
Qed.

(** The fence at the start of a text that is a fence by its shape. *)
Lemma fence_at_shape tag W1 X T :
  tag = [] \/ tag = lit "json" ->
  forallb isspace W1 = true ->
  fence_at (lit "```" ++ tag ++ W1 ++ 123 :: X ++ 125 :: T)
  = option_map (cons 123) (to_closing_brace (X ++ 125 :: T)).
Proof.
  intros Htag HW1. unfold fence_at. rewrite strip_prefix_app.
  assert (Hbody : lstrip (W1 ++ 123 :: X ++ 125 :: T) = 123 :: X ++ 125 :: T).
  { rewrite lstrip_spaces_app by exact HW1. apply lstrip_nonspace. reflexivity. }
  destruct Htag as [-> | ->].
  - cbn [app].
    replace (strip_prefix (lit "json") (W1 ++ 123 :: X ++ 125 :: T)) with (@None str).
    + rewrite Hbody. reflexivity.
    + change (lit "json") with [106; 115; 111; 110].
      destruct W1 as [|c W1]; [reflexivity|]. cbn [app strip_prefix].
      destruct (c =? 106) eqn:E; [|reflexivity].
      apply N.eqb_eq in E. subst c. discriminate HW1.
  - rewrite strip_prefix_app, Hbody. reflexivity.
Qed.

(** The first fence of a reply of the shape of a fence, after a text
    in which no fence starts: the brace-delimited text exactly when no
    closing brace inside it closes the fence earlier. *)
Lemma first_fence_whole P tag W1 X T :
  tag = [] \/ tag = lit "json" ->
  forallb isspace W1 = true ->
  closes_fence T = true ->
  no_fence_inside P (lit "```" ++ tag ++ W1 ++ 123 :: X ++ 125 :: T) ->
  (no_early_close X T
   <-> first_fence (P ++ lit "```" ++ tag ++ W1 ++ 123 :: X ++ 125 :: T)
       = Some (123 :: X ++ [125])).
Proof.
  intros Htag HW1 HT HP. rewrite first_fence_skip by exact HP.
  pose proof (to_closing_brace_whole X T HT) as Hwhole.
  pose proof (fence_at_shape tag W1 X T Htag HW1) as Hat.
  split.
  - intros H. apply first_fence_now. rewrite Hat.
    exact (f_equal (option_map (cons 123)) (proj1 Hwhole H)).
  - intros H. apply Hwhole.
    destruct (to_closing_brace (X ++ 125 :: T)) as [x|] eqn:E.
    + cbn [option_map] in Hat. rewrite (first_fence_now _ _ Hat) in H.
      injection H as ->. exact E.
    + exfalso. revert E. apply to_closing_brace_found. exact HT.
Qed.

(** A reply of the shape of a fence has a fence. *)
Lemma first_fence_some P tag W1 X T :
  tag = [] \/ tag = lit "json" ->
  forallb isspace W1 = true ->
  closes_fence T = true ->
  first_fence (P ++ lit "```" ++ tag ++ W1 ++ 123 :: X ++ 125 :: T) <> None.
Proof.
  intros Htag HW1 HT. induction P as [|c P IH].
  - cbn [app]. intros H.
    assert (Hat : fence_at (lit "```" ++ tag ++ W1 ++ 123 :: X ++ 125 :: T) = None).
    { destruct (fence_at (lit "```" ++ tag ++ W1 ++ 123 :: X ++ 125 :: T)) eqn:E;
        [|reflexivity].
      rewrite (first_fence_now _ _ E) in H. discriminate H. }
    rewrite fence_at_shape in Hat by assumption.
    destruct (to_closing_brace (X ++ 125 :: T)) eqn:E; [discriminate Hat|].
    revert E. apply to_closing_brace_found. exact HT.
  - cbn [app first_fence]. destruct (fence_at _); [discriminate | exact IH].
Qed.

(** The deciders decide. *)
Lemma early_close_false X T : early_close X T = false <-> no_early_close X T.
Proof.
  induction X as [|c X IH]; cbn [early_close].
  - split; [|reflexivity]. intros _ X1 X2 HX. destruct X1; discriminate HX.
  - split.
    + intros H. apply orb_false_iff in H. destruct H as [Hc HX].
      apply IH in HX. intros X1 X2 H. destruct X1 as [|x X1]; cbn [app] in H.
      * injection H as -> ->. rewrite N.eqb_refl in Hc. exact Hc.
      * injection H as -> ->. apply (HX X1 X2). reflexivity.
    + intros H. apply orb_false_iff. split.
      * destruct (c =? 125) eqn:Ec; [|reflexivity].
        apply N.eqb_eq in Ec. subst c. exact (H [] X eq_refl).
      * apply IH. intros X1 X2 HX. apply (H (c :: X1) X2). subst X. reflexivity.
Qed.

Lemma fence_inside_false P F : fence_inside P F = false <-> no_fence_inside P F.
Proof.
  induction P as [|c P IH]; cbn [fence_inside].
  - split; [|reflexivity]. intros _ P1 P2 HP Hne.
    destruct P1; [|discriminate HP]. cbn in HP. subst P2. contradiction.
  - split.
    + intros H. apply orb_false_iff in H. destruct H as [Hc HP].
      apply IH in HP. intros P1 P2 H Hne. destruct P1 as [|x P1]; cbn [app] in H.
      * subst P2. destruct (fence_at ((c :: P) ++ F)); [discriminate Hc | reflexivity].
      * injection H as -> ->. apply (HP P1 P2); [reflexivity | exact Hne].
    + intros H. apply orb_false_iff. split.
      * rewrite (H [] (c :: P)); [reflexivity | reflexivity | discriminate].
      * apply IH. intros P1 P2 HP Hne. apply (H (c :: P1) P2); [|exact Hne].
        subst P. reflexivity.
Qed.

(* ===================================================================== *)
(** ** Properties of the JSON scanner *)
(* ===================================================================== *)

Lemma skip_ws_length s : (length (skip_ws s) <= length s)%nat.
Proof.
  induction s as [|c s IH]; cbn; [lia|]. destruct (is_json_ws c); cbn; lia.
Qed.

Lemma span_digits_length s ds r :
  span_digits s = (ds, r) -> (length r <= length s)%nat.
Proof.
  revert ds r. induction s as [|c s IH]; cbn; intros ds r.
  - intros [= <- <-]. cbn. lia.
  - destruct (isdigit c).
    + destruct (span_digits s) as [ds' r'] eqn:E. intros [= <- <-].
      specialize (IH ds' r' eq_refl). lia.
    + intros [= <- <-]. cbn. lia.
Qed.

(** Case analysis on what a scanner did, read off the equation [H]. *)
Ltac scan_cases H :=
  repeat match type of H with
         | context [match ?x with _ => _ end] => destruct x eqn:?
         end;
  try discriminate H.

(** Boolean tests on code points, as arithmetic. *)
Ltac bool_to_prop :=
  repeat match goal with
         | H : (_ =? _) = true |- _ => apply N.eqb_eq in H
         | H : (_ =? _) = false |- _ => apply N.eqb_neq in H
         | H : (_ <=? _) = true |- _ => apply N.leb_le in H
         | H : (_ <=? _) = false |- _ => apply N.leb_gt in H
         | H : (_ && _) = true |- _ => apply andb_true_iff in H; destruct H
         | H : (_ || _) = false |- _ => apply orb_false_iff in H; destruct H
         | H : (_ && _) = false |- _ => apply andb_false_iff in H; destruct H
         | H : (_ || _) = true |- _ => apply orb_true_iff in H; destruct H
         end.

Ltac not_space :=
  apply not_true_is_false; unfold isspace, isdigit, QUOTE, BACKSLASH in *;
  intros Hspace; bool_to_prop; subst; lia.

Lemma rest_of_cons c s t : rest_of s t -> rest_of (c :: s) t.
Proof. intros [k ->]. exists (c :: k). reflexivity. Qed.

Lemma rest_of_refl s : rest_of s s.
Proof. exists []. reflexivity. Qed.

Lemma rest_of_length s t : rest_of s t -> (length t <= length s)%nat.
Proof. intros [k ->]. rewrite length_app. lia. Qed.

(** A string literal ends at a quote. *)
Lemma scanstring_shape : forall m s acc x r,
  (length s <= m)%nat -> scanstring s acc = Scanned x r -> rest_of s (QUOTE :: r).
Proof.
  induction m as [|m IH]; intros s acc x r Hm H.
  - destruct s; [discriminate H | cbn in Hm; lia].
  - destruct s as [|c s1]; [discriminate H|].
    cbn [scanstring] in H. cbn [length] in Hm.
    scan_cases H; subst; cbn [length] in Hm;
      try (apply IH in H; [|cbn [length]; lia]);
      try solve [repeat first [exact H | apply rest_of_cons]].
    injection H as <- <-.
    match goal with E : (c =? QUOTE) = true |- _ => apply N.eqb_eq in E; subst c end.
    apply rest_of_refl.
Qed.

Lemma scanstring_not_exhausted : forall m s acc,
  (length s <= m)%nat -> scanstring s acc <> Exhausted.
Proof.
  induction m as [|m IH]; intros s acc Hm H.
  - destruct s; [discriminate H | cbn in Hm; lia].
  - destruct s as [|c s1]; [discriminate H|].
    cbn [scanstring] in H. cbn [length] in Hm.
    scan_cases H; subst; cbn [length] in Hm;
      (apply IH in H; [exact H | cbn [length]; lia]).
Qed.

Lemma span_digits_spec s : forall ds r,
  span_digits s = (ds, r) -> s = ds ++ r /\ forallb isdigit ds = true.
Proof.
  induction s as [|c s IH]; cbn; intros ds r.
  - intros [= <- <-]. split; reflexivity.
  - destruct (isdigit c) eqn:E.
    + destruct (span_digits s) as [ds' r'] eqn:E'. intros [= <- <-].
      destruct (IH ds' r' eq_refl) as [-> Hd]. split; [reflexivity|].
      cbn. rewrite E. exact Hd.
    + intros [= <- <-]. split; reflexivity.
Qed.

Lemma last_app_cons {A : Type} (a : list A) c b d : last (a ++ c :: b) d = last (c :: b) d.
Proof.
  induction a as [|x a IH]; [reflexivity|].
  cbn [app]. destruct (a ++ c :: b) eqn:E.
  - destruct a; discriminate E.
  - cbn [last]. exact IH.
Qed.

Lemma last_ok_app a b : last_ok b = true -> last_ok (a ++ b) = true.
Proof.
  unfold last_ok. destruct b as [|c b]; [discriminate|].
  rewrite last_app_cons. auto.
Qed.

Lemma last_ok_digits ds :
  ds <> [] -> forallb isdigit ds = true -> last_ok ds = true.
Proof.
  unfold last_ok. induction ds as [|c ds IH]; [congruence|]. intros _ H.
  cbn in H. apply andb_true_iff in H. destruct H as [Hc Hds].
  destruct ds as [|c' ds].
  - cbn. apply negb_true_iff. not_space.
  - change (last (c :: c' :: ds) 32) with (last (c' :: ds) 32).
    apply IH; [discriminate | exact Hds].
Qed.

Lemma scan_sign_spec s sg r :
  scan_sign s = (sg, r) -> s = sg ++ r /\ (sg = [] \/ sg = [45]).
Proof.
  unfold scan_sign. destruct s as [|c t].
  - intros [= <- <-]. auto.
  - destruct (c =? 45) eqn:E; intros [= <- <-]; [|auto].
    apply N.eqb_eq in E. subst. auto.
Qed.

Lemma scan_int_spec s ds r :
  scan_int s = Some (ds, r) ->
  s = ds ++ r /\ last_ok ds = true /\ exists c t, ds = c :: t /\ isdigit c = true.
Proof.
  unfold scan_int. destruct s as [|c t]; [discriminate|].
  destruct ((49 <=? c) && (c <=? 57)) eqn:E.
  - destruct (span_digits t) as [ds' r'] eqn:E'. intros [= <- <-].
    destruct (span_digits_spec t ds' r' E') as [-> Hd].
    assert (Hc : isdigit c = true).
    { unfold isdigit. bool_to_prop. apply andb_true_iff.
      split; apply N.leb_le; lia. }
    split; [reflexivity|]. split.
    + apply last_ok_digits; [discriminate|]. cbn. rewrite Hc. exact Hd.
    + exists c, ds'. auto.
  - destruct (c =? 48) eqn:E0; [|discriminate]. intros [= <- <-].
    apply N.eqb_eq in E0. subst c. split; [reflexivity|]. split; [reflexivity|].
    exists 48, []. auto.
Qed.

Lemma scan_frac_spec s fr r :
  scan_frac s = (fr, r) -> s = fr ++ r /\ (fr = [] \/ last_ok fr = true).
Proof.
  unfold scan_frac. destruct s as [|p [|d t]]; try (intros [= <- <-]; auto).
  destruct ((p =? 46) && isdigit d) eqn:E; [|intros [= <- <-]; auto].
  destruct (span_digits t) as [fs r'] eqn:E'. intros [= <- <-].
  destruct (span_digits_spec t fs r' E') as [-> Hd].
  apply andb_true_iff in E. destruct E as [_ Hdig].
  split; [reflexivity|]. right.
  change (p :: d :: fs) with ([p] ++ d :: fs). apply last_ok_app.
  apply last_ok_digits; [discriminate|]. cbn. rewrite Hdig. exact Hd.
Qed.

Lemma scan_exp_sign_spec s sg r : scan_exp_sign s = (sg, r) -> s = sg ++ r.
Proof.
  unfold scan_exp_sign. destruct s as [|x t]; [intros [= <- <-]; reflexivity|].
  destruct ((x =? 45) || (x =? 43)); intros [= <- <-]; reflexivity.
Qed.

Lemma scan_exp_spec s ex r :
  scan_exp s = (ex, r) -> s = ex ++ r /\ (ex = [] \/ last_ok ex = true).
Proof.
  unfold scan_exp. destruct s as [|e t]; [intros [= <- <-]; auto|].
  destruct ((e =? 101) || (e =? 69)); [|intros [= <- <-]; auto].
  destruct (scan_exp_sign t) as [sg t'] eqn:Es.
  apply scan_exp_sign_spec in Es. subst t.
  destruct (span_digits t') as [[|d es] r'] eqn:E'; intros [= <- <-]; [auto|].
  destruct (span_digits_spec t' (d :: es) r' E') as [-> Hd].
  split; [cbn; rewrite <- app_assoc; reflexivity|]. right.
  change (e :: sg ++ d :: es) with ((e :: sg) ++ d :: es). apply last_ok_app.
  apply last_ok_digits; [discriminate | exact Hd].
Qed.

Lemma first_ok_app k k' : first_ok k = true -> first_ok (k ++ k') = true.
Proof. destruct k; [discriminate | auto]. Qed.

(** A number is a token. *)
Lemma match_number_reads m s v r :
  match_number m s = Scanned v r -> exists k, reads s k r.
Proof.
  unfold match_number.
  destruct (scan_sign s) as [sg s0] eqn:E1.
  destruct (scan_int s0) as [[ds r0]|] eqn:E2; [|discriminate].
  destruct (scan_frac r0) as [fr r1] eqn:E3.
  destruct (scan_exp r1) as [ex r2] eqn:E4.
  intros H.
  assert (r = r2)
    by (destruct fr, ex, (too_many_digits m (length ds));
        try discriminate H; injection H as _ <-; reflexivity).
  subst r2. clear H.
  apply scan_sign_spec in E1. destruct E1 as [-> Hsg].
  apply scan_int_spec in E2. destruct E2 as (-> & Hds & c & t & -> & Hc).
  apply scan_frac_spec in E3. destruct E3 as [-> Hfr].
  apply scan_exp_spec in E4. destruct E4 as [-> Hex].
  exists (sg ++ (c :: t) ++ fr ++ ex). split; [|split].
  - repeat rewrite <- app_assoc. reflexivity.
  - destruct Hsg as [-> | ->]; [|reflexivity].
    cbn. apply andb_true_iff. split; apply negb_true_iff; [not_space|].
    apply N.eqb_neq. unfold isdigit in Hc. bool_to_prop. lia.
  - apply last_ok_app.
    destruct Hex as [-> | Hex].
    + destruct Hfr as [-> | Hfr].
      * rewrite !app_nil_r. exact Hds.
      * rewrite app_nil_r. apply last_ok_app. exact Hfr.
    + rewrite app_assoc. apply last_ok_app. exact Hex.
Qed.

Lemma match_name_reads s v r :
  match_name s = Some (v, r) -> exists k, reads s k r.
Proof.
  unfold match_name. intros H.
  scan_cases H; injection H as <- <-;
    match goal with
    | E : strip_prefix ?p _ = Some _ |- _ =>
        apply strip_prefix_some in E; subst; exists p; repeat split
    end.
Qed.

(** A string, a name or a number is a token. *)
Lemma scan_atom_reads m s v r :
  scan_atom m s = Scanned v r -> exists k, reads s k r.
Proof.
  unfold scan_atom. destruct s as [|c s']; [discriminate|].
  destruct (c =? QUOTE) eqn:E.
  - apply N.eqb_eq in E. subst c.
    destruct (scanstring s' []) as [x r'| | | |] eqn:Es; try discriminate.
    intros [= <- <-].
    apply scanstring_shape with (m := length s') in Es; [|lia].
    destruct Es as [k ->].
    exists (QUOTE :: k ++ [QUOTE]). split; [|split].
    + cbn. rewrite <- app_assoc. reflexivity.
    + reflexivity.
    + change (QUOTE :: k ++ [QUOTE]) with ((QUOTE :: k) ++ [QUOTE]).
      apply last_ok_app. reflexivity.
  - destruct (match_name (c :: s')) as [[v' r']|] eqn:En.
    + intros [= <- <-]. eapply match_name_reads. exact En.
    + apply match_number_reads.
Qed.

Lemma rest_of_trans a b c : rest_of a b -> rest_of b c -> rest_of a c.
Proof. intros [k ->] [k' ->]. exists (k ++ k'). apply app_assoc. Qed.

Lemma skip_ws_rest s : rest_of s (skip_ws s).
Proof.
  induction s as [|c s IH]; cbn; [apply rest_of_refl|].
  destruct (is_json_ws c); [apply rest_of_cons; exact IH | apply rest_of_refl].
Qed.

Lemma reads_rest s k r : reads s k r -> rest_of s r.
Proof. intros [-> _]. exists k. reflexivity. Qed.

(** Walk from the text a scanner was given to the text it left, along
    the steps recorded in the context. *)
Ltac chain :=
  repeat first
    [ apply rest_of_refl
    | match goal with
      | H : rest_of ?a ?b |- rest_of ?a _ => apply (rest_of_trans a b); [exact H|]
      end
    | apply rest_of_cons ].

(** An opening bracket, anything, and the closing bracket: a token. *)
Lemma reads_bracket c s close r :
  first_ok [c] = true -> last_ok [close] = true ->
  rest_of s (close :: r) -> exists k, reads (c :: s) k r.
Proof.
  intros Hc Hclose [k ->]. exists (c :: k ++ [close]). split; [|split].
  - cbn. rewrite <- app_assoc. reflexivity.
  - exact Hc.
  - change (c :: k ++ [close]) with ((c :: k) ++ [close]).
    apply last_ok_app. exact Hclose.
Qed.

(** Lengths, from the steps recorded in the context. *)
Ltac lens :=
  repeat match goal with
         | H : rest_of _ _ |- _ => apply rest_of_length in H
         end;
  cbn [length] in *; lia.

Section Scanner.

Variable lim : nat.

(** What [scan_once] reads is a token; the loops stop after the closing
    bracket. *)
Lemma scan_shape : forall n,
  (forall dp s v r, scan_once lim n dp s = Scanned v r -> exists k, reads s k r)
  /\ (forall dp s acc v r,
        array_items lim n dp s acc = Scanned v r -> rest_of s (93 :: r))
  /\ (forall dp s d v r,
        object_items lim n dp s d = Scanned v r -> rest_of s (125 :: r)).
Proof.
  induction n as [|n (IHs & IHa & IHo)]; [repeat split; discriminate|].
  split; [|split].
  - intros dp s v r H. cbn [scan_once] in H.
    destruct s as [|c s']; [discriminate H|].
    destruct (c =? 123) eqn:E1; [|destruct (c =? 91) eqn:E2].
    + apply N.eqb_eq in E1. subst c.
      destruct dp as [|dp']; [discriminate H|].
      pose proof (skip_ws_rest s') as Hws.
      destruct (skip_ws s') as [|c1 r1]; [discriminate H|].
      apply reads_bracket with (close := 125); [reflexivity | reflexivity|].
      destruct (c1 =? 125) eqn:E.
      * apply N.eqb_eq in E. subst c1. injection H as _ <-. exact Hws.
      * apply IHo in H. chain.
    + apply N.eqb_eq in E2. subst c.
      destruct dp as [|dp']; [discriminate H|].
      pose proof (skip_ws_rest s') as Hws.
      destruct (skip_ws s') as [|c1 r1]; [discriminate H|].
      apply reads_bracket with (close := 93); [reflexivity | reflexivity|].
      destruct (c1 =? 93) eqn:E.
      * apply N.eqb_eq in E. subst c1. injection H as _ <-. exact Hws.
      * apply IHa in H. chain.
    + apply scan_atom_reads in H. exact H.
  - intros dp s acc v r H. cbn [array_items] in H.
    destruct (scan_once lim n dp s) as [v1 r1| | | |] eqn:E1; try discriminate H.
    apply IHs in E1. destruct E1 as [k E1]. apply reads_rest in E1.
    pose proof (skip_ws_rest r1) as Hws.
    destruct (skip_ws r1) as [|c r2]; [discriminate H|].
    destruct (c =? 93) eqn:E; [|destruct (c =? 44) eqn:E'; [|discriminate H]].
    + apply N.eqb_eq in E. subst c. injection H as _ <-. chain.
    + apply IHa in H. pose proof (skip_ws_rest r2). chain.
  - intros dp s d v r H. cbn [object_items] in H.
    destruct s as [|c s1]; [discriminate H|].
    destruct (c =? QUOTE); [|discriminate H].
    destruct (scanstring s1 []) as [key r1| | | |] eqn:E1; try discriminate H.
    apply scanstring_shape with (m := length s1) in E1; [|lia].
    pose proof (skip_ws_rest r1) as Hws1.
    destruct (skip_ws r1) as [|c1 r2]; [discriminate H|].
    destruct (c1 =? 58); [|discriminate H].
    destruct (scan_once lim n dp (skip_ws r2)) as [v1 r3| | | |] eqn:E2; try discriminate H.
    apply IHs in E2. destruct E2 as [k E2]. apply reads_rest in E2.
    pose proof (skip_ws_rest r2) as Hws2.
    pose proof (skip_ws_rest r3) as Hws3.
    destruct (skip_ws r3) as [|c2 r4]; [discriminate H|].
    destruct (c2 =? 125) eqn:E; [|destruct (c2 =? 44) eqn:E'; [|discriminate H]].
    + apply N.eqb_eq in E. subst c2. injection H as _ <-. chain.
    + apply IHo in H. pose proof (skip_ws_rest r4). chain.
Qed.


Lemma match_number_not_exhausted s : match_number lim s <> Exhausted.
Proof.
  unfold match_number.
  destruct (scan_sign s) as [sg s0].
  destruct (scan_int s0) as [[ds r0]|]; [|discriminate].
  destruct (scan_frac r0) as [fr r1].
  destruct (scan_exp r1) as [ex r2].
  destruct fr, ex, (too_many_digits lim (length ds)); discriminate.
Qed.

Lemma scan_atom_not_exhausted s : scan_atom lim s <> Exhausted.
Proof.
  unfold scan_atom. destruct s as [|c s']; [discriminate|].
  destruct (c =? QUOTE).
  - pose proof (scanstring_not_exhausted (length s') s' [] (Nat.le_refl _)) as Hs.
    destruct (scanstring s' []); congruence.
  - destruct (match_name (c :: s')) as [[v r]|]; [discriminate|].
    apply match_number_not_exhausted.
Qed.

(** The budget runs out only when it is small for the text. *)
Lemma scan_exhausted : forall n,
  (forall dp s, scan_once lim n dp s = Exhausted -> (n <= 2 * length s)%nat)
  /\ (forall dp s acc,
        array_items lim n dp s acc = Exhausted -> (n <= 2 * length s + 1)%nat)
  /\ (forall dp s d,
        object_items lim n dp s d = Exhausted -> (n <= 2 * length s + 1)%nat).
Proof.
  induction n as [|n (IHs & IHa & IHo)]; [repeat split; intros; lia|].
  split; [|split].
  - intros dp s H. cbn [scan_once] in H.
    destruct s as [|c s']; [discriminate H|].
    destruct (c =? 123); [|destruct (c =? 91)].
    + destruct dp as [|dp']; [discriminate H|].
      pose proof (skip_ws_rest s') as Hws.
      destruct (skip_ws s') as [|c1 r1]; [discriminate H|].
      destruct (c1 =? 125); [discriminate H|].
      apply IHo in H. lens.
    + destruct dp as [|dp']; [discriminate H|].
      pose proof (skip_ws_rest s') as Hws.
      destruct (skip_ws s') as [|c1 r1]; [discriminate H|].
      destruct (c1 =? 93); [discriminate H|].
      apply IHa in H. lens.
    + apply scan_atom_not_exhausted in H. contradiction.
  - intros dp s acc H. cbn [array_items] in H.
    destruct (scan_once lim n dp s) as [v1 r1| | | |] eqn:E1; try discriminate H.
    + apply (proj1 (scan_shape n)) in E1. destruct E1 as [k E1].
      pose proof E1 as (_ & Hk & _). apply reads_rest in E1.
      pose proof (skip_ws_rest r1) as Hws.
      destruct (skip_ws r1) as [|c r2]; [discriminate H|].
      destruct (c =? 93); [discriminate H|].
      destruct (c =? 44); [|discriminate H].
      apply IHa in H. pose proof (skip_ws_rest r2). lens.
    + apply IHs in E1. lia.
  - intros dp s d H. cbn [object_items] in H.
    destruct s as [|c s1]; [discriminate H|].
    destruct (c =? QUOTE); [|discriminate H].
    destruct (scanstring s1 []) as [key r1| | | |] eqn:E1; try discriminate H.
    + apply scanstring_shape with (m := length s1) in E1; [|lia].
      pose proof (skip_ws_rest r1) as Hws1.
      destruct (skip_ws r1) as [|c1 r2]; [discriminate H|].
      destruct (c1 =? 58); [|discriminate H].
      pose proof (skip_ws_rest r2) as Hws2.
      destruct (scan_once lim n dp (skip_ws r2)) as [v1 r3| | | |] eqn:E2; try discriminate H.
      * apply (proj1 (scan_shape n)) in E2. destruct E2 as [k E2]. apply reads_rest in E2.
        pose proof (skip_ws_rest r3) as Hws3.
        destruct (skip_ws r3) as [|c2 r4]; [discriminate H|].
        destruct (c2 =? 125); [discriminate H|].
        destruct (c2 =? 44); [|discriminate H].
        apply IHo in H. pose proof (skip_ws_rest r4). lens.
      * apply IHs in E2. lens.
    + exfalso. revert E1. apply scanstring_not_exhausted with (m := length s1). lia.
Qed.

(** [json.loads] gives its scanner budget enough: it never runs out. *)
Lemma json_loads_budget dp s :
  scan_once lim (2 * length s + 1) dp (skip_ws s) <> Exhausted.
Proof.
  intros H. apply (proj1 (scan_exhausted _)) in H.
  pose proof (skip_ws_length s). lia.
Qed.

(** Two budgets that are enough for a text give the same result. *)
Lemma scan_budget_agree : forall n n',
  (forall dp s, (2 * length s < n)%nat -> (2 * length s < n')%nat ->
                scan_once lim n dp s = scan_once lim n' dp s)
  /\ (forall dp s acc, (2 * length s + 1 < n)%nat -> (2 * length s + 1 < n')%nat ->
                       array_items lim n dp s acc = array_items lim n' dp s acc)
  /\ (forall dp s d, (2 * length s + 1 < n)%nat -> (2 * length s + 1 < n')%nat ->
                     object_items lim n dp s d = object_items lim n' dp s d).
Proof.
  induction n as [|n IH]; intros n'; [repeat split; intros; lia|].
  destruct n' as [|n']; [repeat split; intros; lia|].
  destruct (IH n') as (IHs & IHa & IHo). clear IH.
  split; [|split].
  - intros dp s Hn Hn'. cbn [scan_once].
    destruct s as [|c s']; [reflexivity|]. cbn [length] in Hn, Hn'.
    destruct (c =? 123); [|destruct (c =? 91)]; [| |reflexivity].
    + destruct dp as [|dp']; [reflexivity|].
      pose proof (skip_ws_rest s') as Hws.
      destruct (skip_ws s') as [|c1 r1]; [reflexivity|].
      destruct (c1 =? 125); [reflexivity|]. apply IHo; lens.
    + destruct dp as [|dp']; [reflexivity|].
      pose proof (skip_ws_rest s') as Hws.
      destruct (skip_ws s') as [|c1 r1]; [reflexivity|].
      destruct (c1 =? 93); [reflexivity|]. apply IHa; lens.
  - intros dp s acc Hn Hn'. cbn [array_items].
    rewrite (IHs dp s) by lia.
    destruct (scan_once lim n' dp s) as [v1 r1| | | |] eqn:E1; try reflexivity.
    apply (proj1 (scan_shape n')) in E1. destruct E1 as [k E1].
    pose proof E1 as (_ & Hk & _). apply reads_rest in E1.
    pose proof (skip_ws_rest r1) as Hws.
    destruct (skip_ws r1) as [|c r2]; [reflexivity|].
    destruct (c =? 93); [reflexivity|].
    destruct (c =? 44); [|reflexivity].
    pose proof (skip_ws_rest r2). apply IHa; lens.
  - intros dp s d Hn Hn'. cbn [object_items].
    destruct s as [|c s1]; [reflexivity|]. cbn [length] in Hn, Hn'.
    destruct (c =? QUOTE); [|reflexivity].
    destruct (scanstring s1 []) as [key r1| | | |] eqn:E1; try reflexivity.
    apply scanstring_shape with (m := length s1) in E1; [|lia].
    pose proof (skip_ws_rest r1) as Hws1.
    destruct (skip_ws r1) as [|c1 r2]; [reflexivity|].
    destruct (c1 =? 58); [|reflexivity].
    pose proof (skip_ws_rest r2) as Hws2.
    rewrite (IHs dp (skip_ws r2)) by lens.
    destruct (scan_once lim n' dp (skip_ws r2)) as [v1 r3| | | |] eqn:E2; try reflexivity.
    apply (proj1 (scan_shape n')) in E2. destruct E2 as [k E2]. apply reads_rest in E2.
    pose proof (skip_ws_rest r3) as Hws3.
    destruct (skip_ws r3) as [|c2 r4]; [reflexivity|].
    destruct (c2 =? 125); [reflexivity|].
    destruct (c2 =? 44); [|reflexivity].
    pose proof (skip_ws_rest r4). apply IHo; lens.
Qed.

(** *** Whitespace after the text does not change what is read *)

Lemma ws_cases w : is_json_ws w = true -> w = 32 \/ w = 9 \/ w = 10 \/ w = 13.
Proof.
  unfold is_json_ws. intros H. bool_to_prop; subst; auto.
Qed.

Lemma skip_ws_tail x w :
  is_json_ws w = true ->
  skip_ws (x ++ [w]) = match skip_ws x with
                       | [] => []
                       | c :: r => c :: r ++ [w]
                       end.
Proof.
  intros Hw. induction x as [|c x IH]; cbn.
  - rewrite Hw. reflexivity.
  - destruct (is_json_ws c); [exact IH | reflexivity].
Qed.

Lemma span_digits_tail x w :
  is_json_ws w = true ->
  span_digits (x ++ [w]) = let (ds, r) := span_digits x in (ds, r ++ [w]).
Proof.
  intros Hw. induction x as [|c x IH]; cbn.
  - destruct (ws_cases w Hw) as [->|[->|[->| ->]]]; reflexivity.
  - destruct (isdigit c); [|reflexivity].
    rewrite IH. destruct (span_digits x). reflexivity.
Qed.

Lemma strip_prefix_tail p w : forall x,
  forallb (fun a => negb (w =? a)) p = true ->
  strip_prefix p (x ++ [w])
  = match strip_prefix p x with
    | Some r => Some (r ++ [w])
    | None => None
    end.
Proof.
  induction p as [|a p IH]; intros x Hp; [reflexivity|].
  cbn in Hp. apply andb_true_iff in Hp. destruct Hp as [Ha Hp].
  apply negb_true_iff in Ha.
  destruct x as [|c x]; cbn.
  - rewrite Ha. reflexivity.
  - destruct (c =? a); [apply IH; exact Hp | reflexivity].
Qed.

Lemma match_name_tail x w :
  is_json_ws w = true ->
  match_name (x ++ [w])
  = match match_name x with
    | Some (v, r) => Some (v, r ++ [w])
    | None => None
    end.
Proof.
  intros Hw. unfold match_name.
  rewrite !strip_prefix_tail
    by (destruct (ws_cases w Hw) as [->|[->|[->| ->]]]; reflexivity).
  repeat match goal with
         | |- context [strip_prefix ?p x] => destruct (strip_prefix p x); try reflexivity
         end.
Qed.

Lemma match_number_tail x w :
  is_json_ws w = true ->
  match_number lim (x ++ [w]) = with_tail [w] (match_number lim x).
Proof.
  intros Hw. unfold match_number.
  assert (Hsign : scan_sign (x ++ [w]) = let (sg, r) := scan_sign x in (sg, r ++ [w])).
  { unfold scan_sign. destruct x as [|c t]; cbn.
    - destruct (ws_cases w Hw) as [->|[->|[->| ->]]]; reflexivity.
    - destruct (c =? 45); reflexivity. }
  rewrite Hsign. destruct (scan_sign x) as [sg s0].
  assert (Hint : scan_int (s0 ++ [w])
                 = match scan_int s0 with
                   | Some (ds, r) => Some (ds, r ++ [w])
                   | None => None
                   end).
  { unfold scan_int. destruct s0 as [|c t]; cbn.
    - destruct (ws_cases w Hw) as [->|[->|[->| ->]]]; reflexivity.
    - destruct ((49 <=? c) && (c <=? 57)).
      + rewrite span_digits_tail by exact Hw. destruct (span_digits t). reflexivity.
      + destruct (c =? 48); reflexivity. }
  rewrite Hint. destruct (scan_int s0) as [[ds r0]|]; [|reflexivity].
  assert (Hfrac : scan_frac (r0 ++ [w]) = let (fr, r) := scan_frac r0 in (fr, r ++ [w])).
  { unfold scan_frac. destruct r0 as [|q [|d t]]; cbn.
    - destruct (ws_cases w Hw) as [->|[->|[->| ->]]]; reflexivity.
    - destruct (ws_cases w Hw) as [->|[->|[->| ->]]];
        cbn; rewrite andb_false_r; reflexivity.
    - destruct ((q =? 46) && isdigit d); [|reflexivity].
      rewrite span_digits_tail by exact Hw. destruct (span_digits t). reflexivity. }
  rewrite Hfrac. destruct (scan_frac r0) as [fr r1].
  assert (Hexp : scan_exp (r1 ++ [w]) = let (ex, r) := scan_exp r1 in (ex, r ++ [w])).
  { unfold scan_exp. destruct r1 as [|e t]; cbn [app].
    - destruct (ws_cases w Hw) as [->|[->|[->| ->]]]; reflexivity.
    - destruct ((e =? 101) || (e =? 69)); [|reflexivity].
      assert (Hs : scan_exp_sign (t ++ [w])
                   = let (sg', r) := scan_exp_sign t in (sg', r ++ [w])).
      { unfold scan_exp_sign. destruct t as [|y t]; cbn.
        - destruct (ws_cases w Hw) as [->|[->|[->| ->]]]; reflexivity.
        - destruct ((y =? 45) || (y =? 43)); reflexivity. }
      rewrite Hs. destruct (scan_exp_sign t) as [sg' t'].
      rewrite span_digits_tail by exact Hw.
      destruct (span_digits t') as [[|d es] r']; reflexivity. }
  rewrite Hexp. destruct (scan_exp r1) as [ex r2].
  destruct fr, ex, (too_many_digits lim (length ds)); reflexivity.
Qed.

Lemma scanstring_tail w : is_json_ws w = true ->
  forall m x acc, (length x <= m)%nat ->
    scanstring (x ++ [w]) acc = with_tail [w] (scanstring x acc).
Proof.
  intros Hw. induction m as [|m IH]; intros x acc Hm.
  - destruct x; [|cbn in Hm; lia].
    destruct (ws_cases w Hw) as [->|[->|[->| ->]]]; reflexivity.
  - destruct x as [|c x1].
    + destruct (ws_cases w Hw) as [->|[->|[->| ->]]]; reflexivity.
    + cbn [app scanstring]. cbn [length] in Hm.
      destruct (c =? QUOTE); [reflexivity|].
      destruct (c =? BACKSLASH).
      2:{ destruct (c <=? 31); [reflexivity|]. apply IH. lia. }
      destruct x1 as [|e x2].
      { destruct (ws_cases w Hw) as [->|[->|[->| ->]]]; reflexivity. }
      cbn [app length] in *.
      destruct (e =? 117).
      2:{ destruct (unescape e); [|reflexivity]. apply IH. lia. }
      destruct x2 as [|h1 [|h2 [|h3 [|h4 x6]]]]; cbn [app length] in *;
        try reflexivity.
      { assert (Hh : hex_value w = None)
          by (destruct (ws_cases w Hw) as [->|[->|[->| ->]]]; reflexivity).
        unfold hex4. rewrite Hh.
        destruct (hex_value h1), (hex_value h2), (hex_value h3); reflexivity. }
      destruct (hex4 h1 h2 h3 h4) as [u|]; [|reflexivity].
      assert (Hb : (w =? BACKSLASH) = false)
        by (destruct (ws_cases w Hw) as [->|[->|[->| ->]]]; reflexivity).
      assert (Hu : (w =? 117) = false)
        by (destruct (ws_cases w Hw) as [->|[->|[->| ->]]]; reflexivity).
      assert (Hh : hex_value w = None)
        by (destruct (ws_cases w Hw) as [->|[->|[->| ->]]]; reflexivity).
      destruct x6 as [|b [|u' [|k1 [|k2 [|k3 [|k4 x12]]]]]]; cbn [app length] in *.
      * change [w] with ([] ++ [w]) at 1. apply IH. cbn. lia.
      * change [b; w] with ([b] ++ [w]). apply IH. cbn. lia.
      * change [b; u'; w] with ([b; u'] ++ [w]). apply IH. cbn. lia.
      * change [b; u'; k1; w] with ([b; u'; k1] ++ [w]). apply IH. cbn. lia.
      * change [b; u'; k1; k2; w] with ([b; u'; k1; k2] ++ [w]). apply IH. cbn. lia.
      * destruct (is_high_surrogate u && (b =? BACKSLASH) && (u' =? 117)) eqn:E.
        -- unfold hex4 at 1. rewrite Hh.
           destruct (hex_value k1), (hex_value k2), (hex_value k3);
             cbn [with_tail].
           all: symmetry.
           all: change [b; u'; k1; k2; k3] with (b :: u' :: k1 :: k2 :: k3 :: []).
           all: apply andb_true_iff in E; destruct E as [E Eu];
             apply andb_true_iff in E; destruct E as [_ Eb].
           all: cbn [scanstring]; rewrite Eb, Eu.
           all: apply N.eqb_eq in Eb; subst b.
           all: replace (BACKSLASH =? QUOTE) with false by reflexivity.
           all: reflexivity.
        -- change [b; u'; k1; k2; k3; w] with ([b; u'; k1; k2; k3] ++ [w]).
           apply IH. cbn. lia.
      * destruct (is_high_surrogate u && (b =? BACKSLASH) && (u' =? 117)).
        -- destruct (hex4 k1 k2 k3 k4) as [u2|]; [|reflexivity].
           destruct (is_low_surrogate u2).
           ++ apply IH. lia.
           ++ change (b :: u' :: k1 :: k2 :: k3 :: k4 :: x12 ++ [w])
                with ((b :: u' :: k1 :: k2 :: k3 :: k4 :: x12) ++ [w]).
              apply IH. cbn. lia.
        -- change (b :: u' :: k1 :: k2 :: k3 :: k4 :: x12 ++ [w])
             with ((b :: u' :: k1 :: k2 :: k3 :: k4 :: x12) ++ [w]).
           apply IH. cbn. lia.
Qed.

Lemma scan_atom_tail x w :
  is_json_ws w = true -> scan_atom lim (x ++ [w]) = with_tail [w] (scan_atom lim x).
Proof.
  intros Hw. destruct x as [|c x'].
  - destruct (ws_cases w Hw) as [->|[->|[->| ->]]]; reflexivity.
  - unfold scan_atom. cbn [app].
    destruct (c =? QUOTE).
    + rewrite (scanstring_tail w Hw (length x')) by lia.
      destruct (scanstring x' []); reflexivity.
    + change (c :: x' ++ [w]) with ((c :: x') ++ [w]).
      rewrite match_name_tail by exact Hw.
      destruct (match_name (c :: x')) as [[v r]|]; [reflexivity|].
      apply match_number_tail. exact Hw.
Qed.

(** One whitespace character after the text is left where it is. *)
Lemma scan_tail w : is_json_ws w = true -> forall n,
  (forall dp x, scan_once lim n dp (x ++ [w]) = with_tail [w] (scan_once lim n dp x))
  /\ (forall dp x acc,
        array_items lim n dp (x ++ [w]) acc = with_tail [w] (array_items lim n dp x acc))
  /\ (forall dp x d,
        object_items lim n dp (x ++ [w]) d = with_tail [w] (object_items lim n dp x d)).
Proof.
  intros Hw. induction n as [|n (IHs & IHa & IHo)]; [repeat split; reflexivity|].
  assert (Hitems : forall dp r,
            array_items lim n dp [] r = with_tail [w] (array_items lim n dp [] r)).
  { intros dp r. destruct n; [reflexivity|]. cbn [array_items].
    destruct n; reflexivity. }
  assert (Hmembers : forall dp r,
            object_items lim n dp [] r = with_tail [w] (object_items lim n dp [] r)).
  { intros dp r. destruct n; reflexivity. }
  split; [|split].
  - intros dp x. destruct x as [|c x'].
    + destruct (ws_cases w Hw) as [->|[->|[->| ->]]]; reflexivity.
    + cbn [app scan_once].
      destruct (c =? 123); [|destruct (c =? 91)].
      * destruct dp as [|dp']; [reflexivity|].
        rewrite skip_ws_tail by exact Hw.
        destruct (skip_ws x') as [|c1 r1]; [reflexivity|].
        destruct (c1 =? 125); [reflexivity|].
        change (c1 :: r1 ++ [w]) with ((c1 :: r1) ++ [w]). apply IHo.
      * destruct dp as [|dp']; [reflexivity|].
        rewrite skip_ws_tail by exact Hw.
        destruct (skip_ws x') as [|c1 r1]; [reflexivity|].
        destruct (c1 =? 93); [reflexivity|].
        change (c1 :: r1 ++ [w]) with ((c1 :: r1) ++ [w]). apply IHa.
      * change (c :: x' ++ [w]) with ((c :: x') ++ [w]).
        apply scan_atom_tail. exact Hw.
  - intros dp x acc. cbn [array_items]. rewrite IHs.
    destruct (scan_once lim n dp x) as [v1 r1| | | |]; try reflexivity.
    cbn [with_tail]. rewrite skip_ws_tail by exact Hw.
    destruct (skip_ws r1) as [|c r2]; [reflexivity|].
    destruct (c =? 93); [reflexivity|].
    destruct (c =? 44); [|reflexivity].
    rewrite skip_ws_tail by exact Hw.
    destruct (skip_ws r2) as [|c' r3]; [apply Hitems|].
    change (c' :: r3 ++ [w]) with ((c' :: r3) ++ [w]). apply IHa.
  - intros dp x d. destruct x as [|c x1].
    + destruct (ws_cases w Hw) as [->|[->|[->| ->]]]; reflexivity.
    + cbn [app object_items].
      destruct (c =? QUOTE); [|reflexivity].
      rewrite (scanstring_tail w Hw (length x1)) by lia.
      destruct (scanstring x1 []) as [key r1| | | |]; try reflexivity.
      cbn [with_tail]. rewrite skip_ws_tail by exact Hw.
      destruct (skip_ws r1) as [|c1 r2]; [reflexivity|].
      destruct (c1 =? 58); [|reflexivity].
      rewrite skip_ws_tail by exact Hw.
      assert (Hv : scan_once lim n dp
                     match skip_ws r2 with
                     | [] => []
                     | c2 :: r => c2 :: r ++ [w]
                     end
                   = with_tail [w] (scan_once lim n dp (skip_ws r2))).
      { destruct (skip_ws r2) as [|c2 r3].
        - destruct n; reflexivity.
        - change (c2 :: r3 ++ [w]) with ((c2 :: r3) ++ [w]). apply IHs. }
      rewrite Hv.
      destruct (scan_once lim n dp (skip_ws r2)) as [v1 r3| | | |]; try reflexivity.
      cbn [with_tail]. rewrite skip_ws_tail by exact Hw.
      destruct (skip_ws r3) as [|c2 r4]; [reflexivity|].
      destruct (c2 =? 125); [reflexivity|].
      destruct (c2 =? 44); [|reflexivity].
      rewrite skip_ws_tail by exact Hw.
      destruct (skip_ws r4) as [|c3 r5]; [apply Hmembers|].
      change (c3 :: r5 ++ [w]) with ((c3 :: r5) ++ [w]). apply IHo.
Qed.

(** Any run of whitespace after the text is left where it is. *)
Lemma scan_once_tail n dp W : forallb is_json_ws W = true -> forall x,
  scan_once lim n dp (x ++ W) = with_tail W (scan_once lim n dp x).
Proof.
  induction W as [|w W IH]; intros HW x.
  - rewrite app_nil_r. destruct (scan_once lim n dp x); cbn; rewrite ?app_nil_r; reflexivity.
  - cbn in HW. apply andb_true_iff in HW. destruct HW as [Hw HW].
    change (x ++ w :: W) with (x ++ [w] ++ W). rewrite app_assoc.
    rewrite IH by exact HW.
    rewrite (proj1 (scan_tail w Hw n)).
    destruct (scan_once lim n dp x); cbn; rewrite <- ?app_assoc; reflexivity.
Qed.

End Scanner.

Lemma json_ws_isspace c : is_json_ws c = true -> isspace c = true.
Proof. intros H. destruct (ws_cases c H) as [->|[->|[->| ->]]]; reflexivity. Qed.

Lemma json_ws_all_isspace W : forallb is_json_ws W = true -> forallb isspace W = true.
Proof.
  rewrite !forallb_forall. intros H c Hc. apply json_ws_isspace. apply H. exact Hc.
Qed.

Lemma skip_ws_split s :
  exists W, s = W ++ skip_ws s /\ forallb is_json_ws W = true.
Proof.
  induction s as [|c s (W & Hs & HW)].
  - exists []. split; reflexivity.
  - cbn [skip_ws]. destruct (is_json_ws c) eqn:E.
    + exists (c :: W). split; [cbn; congruence|]. cbn. rewrite E. exact HW.
    + exists []. split; reflexivity.
Qed.

Lemma skip_ws_nil s : skip_ws s = [] -> forallb is_json_ws s = true.
Proof.
  intros H. destruct (skip_ws_split s) as (W & Hs & HW).
  rewrite H, app_nil_r in Hs. subst. exact HW.
Qed.

Lemma first_ok_lstrip k : first_ok k = true -> lstrip k = k.
Proof.
  destruct k as [|c k]; [discriminate|]. cbn. intros H.
  apply andb_true_iff in H. destruct H as [H _]. apply negb_true_iff in H.
  rewrite H. reflexivity.
Qed.

Lemma first_ok_skip_ws k : first_ok k = true -> skip_ws k = k.
Proof.
  destruct k as [|c k]; [discriminate|]. cbn. intros H.
  apply andb_true_iff in H. destruct H as [H _]. apply negb_true_iff in H.
  destruct (is_json_ws c) eqn:E; [|reflexivity].
  apply json_ws_isspace in E. congruence.
Qed.

Lemma last_ok_lstrip_rev k : last_ok k = true -> lstrip (rev k) = rev k.
Proof.
  unfold last_ok. intros H.
  destruct k as [|c0 k0] eqn:Ek; [discriminate H|]. rewrite <- Ek in *.
  destruct (exists_last (l := k)) as (k' & c & Hk); [subst; discriminate|].
  rewrite Hk in *. rewrite last_last in H. rewrite rev_app_distr. cbn.
  apply negb_true_iff in H. rewrite H. reflexivity.
Qed.

(** Stripping a token with whitespace around it leaves the token. *)
Lemma strip_token Wa k Wb :
  forallb isspace Wa = true -> forallb isspace Wb = true ->
  first_ok k = true -> last_ok k = true ->
  strip (Wa ++ k ++ Wb) = k.
Proof.
  intros HWa HWb Hf Hl. unfold strip, rstrip.
  rewrite lstrip_spaces_app by exact HWa.
  rewrite lstrip_fixed_app;
    [|destruct k; [discriminate Hf | discriminate] | apply first_ok_lstrip; exact Hf].
  rewrite rev_app_distr, lstrip_spaces_app.
  - rewrite last_ok_lstrip_rev by exact Hl. apply rev_involutive.
  - rewrite forallb_forall in *. intros x Hx. apply HWb. apply in_rev. exact Hx.
Qed.

(** [json.loads] after its look at the first character. *)
Lemma json_loads_eq raw :
  json_loads python raw
  = if starts_with_bom raw then Raises (JSONDecodeError raw)
    else match scan_once (int_max_str_digits python) (2 * length raw + 1)
                 (json_nesting_limit python) (skip_ws raw) with
         | Scanned v rest => match skip_ws rest with
                             | [] => Returns v
                             | _ :: _ => Raises (JSONDecodeError raw)
                             end
         | Malformed => Raises (JSONDecodeError raw)
         | Exhausted => Raises (JSONDecodeError raw)
         | DigitLimit digits => Raises (IntValueError (int_max_str_digits python) digits)
         | DepthLimit bracket => Raises (RecursionError (recursion_message bracket))
         end.
Proof.
  unfold json_loads, starts_with_bom.
  destruct raw as [|c raw']; [reflexivity|].
  destruct (c =? 65279) eqn:E.
  - apply N.eqb_eq in E. subst c. reflexivity.
  - apply N.eqb_neq in E. destruct c as [|q]; [reflexivity|].
    repeat (destruct q as [q|q|]; try reflexivity); congruence.
Qed.

(** A value [json.loads] returns was read by the scanner, up to
    whitespace at the end of the text. *)
Lemma json_loads_scanned raw v :
  json_loads python raw = Returns v ->
  exists n rest,
    scan_once (int_max_str_digits python) (S n) (json_nesting_limit python) (skip_ws raw)
    = Scanned v rest
    /\ skip_ws rest = [].
Proof.
  rewrite json_loads_eq. intros H.
  destruct (starts_with_bom raw); [discriminate H|].
  replace (2 * length raw + 1)%nat with (S (2 * length raw)) in H by lia.
  destruct (scan_once _ (S (2 * length raw)) _ (skip_ws raw))
    as [v0 rest| | | |] eqn:E; try discriminate H.
  destruct (skip_ws rest) eqn:Erest; [|discriminate H].
  injection H as ->. exists (2 * length raw)%nat, rest. split; [exact E | exact Erest].
Qed.


(** [json.loads] reads a token with whitespace around it, and reads
    the same value from the token alone. *)
Lemma json_loads_token raw v :
  json_loads python raw = Returns v ->
  exists Wa k Wb,
    raw = Wa ++ k ++ Wb
    /\ forallb is_json_ws Wa = true /\ forallb is_json_ws Wb = true
    /\ first_ok k = true /\ last_ok k = true
    /\ json_loads python k = Returns v.
Proof.
  unfold json_loads. intros H.
  set (lim := int_max_str_digits python) in *.
  set (dp := json_nesting_limit python) in *.
  destruct (skip_ws_split raw) as (Wa & Hraw & HWa).
  assert (H' : exists rest,
             scan_once lim (2 * length raw + 1) dp (skip_ws raw) = Scanned v rest
             /\ skip_ws rest = []).
  { assert (H0 : match scan_once lim (2 * length raw + 1) dp (skip_ws raw) with
                 | Scanned v0 rest => match skip_ws rest with
                                      | [] => Returns v0
                                      | _ :: _ => Raises (JSONDecodeError raw)
                                      end
                 | Malformed => Raises (JSONDecodeError raw)
                 | Exhausted => Raises (JSONDecodeError raw)
                 | DigitLimit digits => Raises (IntValueError lim digits)
                 | DepthLimit bracket => Raises (RecursionError (recursion_message bracket))
                 end = Returns v).
    { destruct raw as [|c raw']; [exact H|].
      destruct c as [|q]; [exact H|].
      repeat (destruct q as [q|q|]; try exact H); try discriminate H. }
    destruct (scan_once lim (2 * length raw + 1) dp (skip_ws raw))
      as [v0 rest| | | |]; try discriminate H0.
    destruct (skip_ws rest) eqn:Erest; [|discriminate H0].
    injection H0 as ->. exists rest. split; [reflexivity | exact Erest]. }
  clear H. destruct H' as (rest & E & Erest).
  apply skip_ws_nil in Erest.
  destruct (proj1 (scan_shape _ _) _ _ _ _ E) as (k & Hk & Hf & Hl).
  exists Wa, k, rest. repeat split; try assumption.
  - rewrite <- Hk. exact Hraw.
  - rewrite Hk, scan_once_tail in E by exact Erest.
    destruct (scan_once lim (2 * length raw + 1) dp k) as [v1 r1| | | |] eqn:E1;
      try discriminate E.
    cbn in E. injection E as -> Hr.
    assert (r1 = []).
    { apply (f_equal (@length char)) in Hr. rewrite length_app in Hr.
      destruct r1; [reflexivity | cbn in Hr; lia]. }
    subst r1.
    assert (Hlen : (length k <= length raw)%nat).
    { rewrite Hraw, Hk, !length_app. lia. }
    rewrite first_ok_skip_ws by exact Hf.
    rewrite (proj1 (scan_budget_agree lim (2 * length k + 1) (2 * length raw + 1)) dp k)
      by lia.
    rewrite E1. cbn.
    destruct k as [|c k']; [discriminate Hf|].
    cbn in Hf. apply andb_true_iff in Hf. destruct Hf as [_ Hbom].
    apply negb_true_iff in Hbom. apply N.eqb_neq in Hbom.
    destruct c as [|q]; [reflexivity|].
    repeat (destruct q as [q|q|]; try reflexivity); try congruence.
Qed.

(** [json.loads] does not see the whitespace [str.strip] removes from
    a text it accepts. *)
Lemma json_loads_strip raw v :
  json_loads python raw = Returns v -> json_loads python (strip raw) = Returns v.
Proof.
  intros H. destruct (json_loads_token raw v H) as (Wa & k & Wb & -> & HWa & HWb & Hf & Hl & Hk).
  rewrite strip_token; auto using json_ws_all_isspace.
Qed.

(** *** What the scanner reads is a text of the grammar *)





















(** *** The scanner reads every text of the grammar *)












Lemma number_first k :
  number k ->
  exists c t, k = c :: t
    /\ ((c = 45 /\ exists d t', t = d :: t' /\ isdigit d = true) \/ isdigit c = true).
Proof.
  intros [sg i f e Hsg Hi Hf He].
  assert (Hint : exists d t', i = d :: t' /\ isdigit d = true).
  { destruct Hi as [|c ds Hc Hds]; [exists 48, []; split; reflexivity|].
    exists c, ds. split; [reflexivity|]. unfold isdigit. bool_to_prop.
    apply andb_true_iff. split; apply N.leb_le; lia. }
  destruct Hint as (d & t' & -> & Hd).
  destruct Hsg as [-> | ->].
  - exists d, (t' ++ f ++ e). split; [reflexivity | right; exact Hd].
  - exists 45, (d :: t' ++ f ++ e). split; [reflexivity|].
    left. split; [reflexivity|]. exists d, (t' ++ f ++ e). split; [reflexivity | exact Hd].
Qed.




Lemma value_first ext srt k :
  gram ext srt k ->
  exists c t, k = c :: t
    /\ match srt with
       | Value | Elements => starts_value ext c = true
       | Members => c = 34
       end.
Proof.
  intros H. induction H.
  - unfold names in H. destruct ext; cbn in H;
      repeat (destruct H as [<-|H]; [eexists; eexists; split; reflexivity|]);
      destruct H.
  - destruct (number_first k H) as (c & t & -> & Hc).
    exists c, t. split; [reflexivity|]. unfold starts_value.
    destruct Hc as [[-> _] | Hc]; [reflexivity|].
    rewrite Hc. rewrite !orb_true_r. reflexivity.
  - eexists; eexists; split; reflexivity.
  - eexists; eexists; split; reflexivity.
  - eexists; eexists; split; reflexivity.
  - eexists; eexists; split; reflexivity.
  - eexists; eexists; split; reflexivity.
  - destruct IHgram as (c & t & -> & Hc). exists c, (t ++ W). split; [reflexivity | exact Hc].
  - destruct IHgram1 as (c & t & -> & Hc). eexists; eexists; split; [reflexivity | exact Hc].
  - eexists; eexists; split; reflexivity.
  - eexists; eexists; split; reflexivity.
Qed.








(** *** The limits are met only in texts that exceed them *)














(** *** [json.loads] and the grammar *)








(** [NaN] is not a text of the grammar of RFC 8259. *)
Lemma nan_not_rfc_json : ~ rfc_json (lit "NaN").
Proof.
  intros (W1 & k & W2 & Hs & HW1 & _ & Hk).
  destruct (value_first _ _ _ Hk) as (c & t & -> & Hc).
  destruct W1 as [|w W1].
  - cbn in Hs. injection Hs as <- _. discriminate Hc.
  - cbn in Hs. injection Hs as <- _. discriminate HW1.
Qed.

(** *** A match of the fence pattern sets its group *)

Lemma star_greedy_inv {A : Type} k (cont : str -> option A) s a :
  star_greedy k s cont = Some a -> exists rest, cont rest = Some a.
Proof.
  induction s as [|c s IH]; cbn; [eauto|].
  destruct (in_cls k c); [|eauto].
  destruct (star_greedy k s cont) eqn:E; [|eauto].
  intros [= ->]. apply IH. reflexivity.
Qed.

Lemma star_lazy_inv {A : Type} k (cont : str -> option A) s a :
  star_lazy k s cont = Some a -> exists rest, cont rest = Some a.
Proof.
  induction s as [|c s IH]; cbn.
  - destruct (cont []) eqn:E; [intros [= ->]; eauto | discriminate].
  - destruct (cont (c :: s)) eqn:E; [intros [= ->]; eauto|].
    destruct (in_cls k c); [exact IH | discriminate].
Qed.

Lemma fence_body_group t g :
  rmatch
    (RSeq (RStar CSpace)
       (RSeq (RGroup (RSeq (RLit (lit "{")) (RSeq (RLazy CAny) (RLit (lit "}")))))
          (RSeq (RStar CSpace) (RLit (lit "```")))))
    t None (fun _ g => Some g) = Some g ->
  exists x, g = Some x.
Proof.
  rewrite rmatch_seq, rmatch_star. intros H.
  apply star_greedy_inv in H. destruct H as [r1 H].
  rewrite rmatch_seq, rmatch_group, rmatch_seq, rmatch_lit in H.
  destruct (strip_prefix (lit "{") r1) as [r2|]; [|discriminate H].
  rewrite rmatch_seq in H. cbn [rmatch] in H.
  apply star_lazy_inv in H. destruct H as [r3 H].
  destruct (strip_prefix (lit "}") r3) as [r4|]; [|discriminate H].
  apply star_greedy_inv in H. destruct H as [r5 H].
  destruct (strip_prefix (lit "```") r5); [|discriminate H].
  injection H as <-. eauto.
Qed.

Lemma re_match_fence_group s g : re_match FENCE_RE s = Some g -> exists x, g = Some x.
Proof.
  unfold re_match, FENCE_RE. rewrite rmatch_seq, rmatch_lit.
  destruct (strip_prefix (lit "```") s) as [t|]; [|discriminate].
  rewrite rmatch_seq, rmatch_opt, rmatch_lit.
  destruct (strip_prefix (lit "json") t) as [t'|].
  - destruct (rmatch _ t' None _) as [g'|] eqn:E.
    + intros [= <-]. eapply fence_body_group. exact E.
    + apply fence_body_group.
  - apply fence_body_group.
Qed.

Lemma re_search_fence_group s g : re_search FENCE_RE s = Some g -> exists x, g = Some x.
Proof.
  induction s as [|c s IH]; cbn [re_search].
  - destruct (re_match FENCE_RE []) eqn:E; [|discriminate].
    intros [= <-]. eapply re_match_fence_group. exact E.
  - destruct (re_match FENCE_RE (c :: s)) eqn:E; [|exact IH].
    intros [= <-]. eapply re_match_fence_group. exact E.
Qed.

Lemma fetch_loop triples : forall acc w,
  for_loop (map full_entry triples)
    (fun entry papers =>
       t <- getattr (entry_title entry) "title" ;;
       l <- getattr (entry_link entry) "link" ;;
       s <- getattr (entry_summary entry) "summary" ;;
       ret (papers ++ [{| title := t; url := l; abstract := clean_html s |}]))
    acc w
  = (Returns (acc ++ map paper_of triples), w).
Proof.
  induction triples as [|[[t l] s] triples IH]; intros acc w.
  - cbn. rewrite app_nil_r. reflexivity.
  - cbn [map for_loop]. unfold bind at 1. cbn.
    rewrite IH. rewrite <- app_assoc. reflexivity.
Qed.

(* ===================================================================== *)
(** ** The claims *)
(* ===================================================================== *)

(** C1.  The loop of [main] calls the extractor on every paper, in
    order.  Whatever the calls do, the loop returns: its result holds
    the entries of the calls that returned, in the order of the papers,
    and every call that raised left one line with the title of its paper
    on standard output.  In particular, of three papers the second of
    which fails, the first and the third are returned, in that order. *)
Theorem summarize_all_isolates_failures :
  forall (papers : list paper) (w : world),
    map fst (fst (extractor_calls papers w)) = papers
    /\ summarize_all papers w
       = (Returns (successes (fst (extractor_calls papers w))),
          snd (extractor_calls papers w))
    /\ stdout (snd (extractor_calls papers w))
       = stdout w ++ failures (fst (extractor_calls papers w))
    /\ forall p1 p2 p3 v1 e2 v3 w1 w2 w3,
         papers = [p1; p2; p3] ->
         summarize_with_groq p1 w = (Returns v1, w1) ->
         summarize_with_groq p2 w1 = (Raises e2, w2) ->
         summarize_with_groq p3
           {| outside := outside w2; stdout := stdout w2 ++ [failure_line p2 e2] |}
         = (Returns v3, w3) ->
         summarize_all papers w
         = (Returns [ {| entry_paper := p1; entry_summary_of := v1 |};
                      {| entry_paper := p3; entry_summary_of := v3 |} ], w3)
         /\ stdout w3 = stdout w ++ [failure_line p2 e2].
Proof.
  intros papers w.
  assert (Hall : summarize_all papers w
                 = (Returns (successes (fst (extractor_calls papers w))),
                    snd (extractor_calls papers w))).
  { unfold summarize_all. rewrite summarize_all_loop. reflexivity. }
  split; [apply extractor_calls_papers|].
  split; [exact Hall|].
  split; [apply extractor_calls_stdout|].
  intros p1 p2 p3 v1 e2 v3 w1 w2 w3 -> H1 H2 H3.
  pose proof (extractor_calls_stdout [p1; p2; p3] w) as Hout.
  rewrite Hall. cbn [extractor_calls] in Hout |- *.
  rewrite H1 in Hout |- *. cbv beta iota zeta in Hout |- *.
  rewrite H2 in Hout |- *. cbv beta iota zeta in Hout |- *.
  rewrite H3 in Hout |- *. cbn in Hout |- *.
  split; [reflexivity | exact Hout].
Qed.

(** C2, as amended.  The text [parse_groq_json] hands to [json.loads]
    is the text of the first fence of the reply when it has one, and
    the reply without the whitespace around it otherwise; a fence is
    three backticks, the tag [json] or nothing, optional whitespace and
    an opening brace, and its text runs from that brace to the first
    closing brace that is followed by optional whitespace and three
    backticks.  So in a reply [P ++ ``` ++ tag ++ W1 ++ {X} ++ T], where
    no fence starts inside [P] and [T] is optional whitespace, three
    backticks and anything, the candidate is [{X}] exactly when no
    closing brace inside [X] is followed by optional whitespace and
    three backticks, and then the reply parses to what [{X}] parses to;
    this covers the reply that is exactly such a fence ([P] empty) and
    the reply with prose before and after it.  A text without three
    backticks in a row holds no fence and no such closing brace.  A
    reply without a fence that is valid JSON parses to its value. *)
Theorem parse_groq_json_fenced_or_bare :
  forall (raw : str) (w : world),
    re_search FENCE_RE raw = option_map Some (first_fence raw)
    /\ parse_groq_json raw w = (json_loads python (candidate raw), w)
    /\ (forall P tag W1 X T,
          raw = P ++ lit "```" ++ tag ++ W1 ++ 123 :: X ++ 125 :: T ->
          tag = [] \/ tag = lit "json" ->
          forallb isspace W1 = true ->
          closes_fence T = true ->
          no_fence_inside P (lit "```" ++ tag ++ W1 ++ 123 :: X ++ 125 :: T) ->
          (no_early_close X T <-> candidate raw = 123 :: X ++ [125])
          /\ (no_early_close X T ->
                parse_groq_json raw w = (json_loads python (123 :: X ++ [125]), w)))
    /\ (forall W S, forallb isspace W = true -> closes_fence (W ++ lit "```" ++ S) = true)
    /\ (forall F, no_fence_inside [] F)
    /\ (forall P F, has_fence_mark P = false -> no_fence_inside P (lit "```" ++ F))
    /\ (forall X T, has_fence_mark X = false -> no_early_close X T)
    /\ (has_fence_mark raw = false -> first_fence raw = None)
    /\ (forall v,
          first_fence raw = None ->
          json_loads python raw = Returns v ->
          parse_groq_json raw w = (Returns v, w)).
Proof.
  intros raw w. rewrite parse_groq_json_eq, json_text_candidate.
  split; [apply re_search_first_fence|]. split; [reflexivity|].
  split; [|split; [|split; [|split; [|split; [|split]]]]].
  - intros P tag W1 X T -> Htag HW1 HT HP.
    pose proof (first_fence_whole P tag W1 X T Htag HW1 HT HP) as Hwhole.
    assert (Hcand : no_early_close X T ->
                    candidate (P ++ lit "```" ++ tag ++ W1 ++ 123 :: X ++ 125 :: T)
                    = 123 :: X ++ [125]).
    { intros H. apply candidate_fence. exact (proj1 Hwhole H). }
    split; [split; [exact Hcand|] | intros H; f_equal; f_equal; exact (Hcand H)].
    intros H. apply Hwhole.
    etransitivity; [apply first_fence_candidate, first_fence_some; assumption|].
    f_equal. exact H.
  - apply closes_fence_spaces.
  - intros F P1 P2 HP Hne. destruct P1; [|discriminate HP]. cbn in HP. subst P2.
    contradiction.
  - intros P F. apply no_mark_no_fence_inside.
  - intros X T HX X1 X2 HX12. unfold closes_fence. rewrite no_close_inside; [reflexivity|].
    rewrite HX12 in HX. apply has_fence_mark_suffix in HX.
    apply has_fence_mark_tail in HX. exact HX.
  - intros H. pose proof (no_mark_no_fence raw H) as Hn.
    rewrite re_search_first_fence in Hn.
    destruct (first_fence raw); [discriminate Hn | reflexivity].
  - intros v H Hv. unfold candidate. rewrite H.
    rewrite (json_loads_strip raw v Hv). reflexivity.
Qed.


(** C4.  In the body [build_email] composes for entries whose summaries
    are mappings, the block of the entry at position [n] starts at line
    [1 + 7 * n], and its labelled line for a field of the schema shows
    the value the mapping holds for the field, or [N/A] when the
    mapping holds none. *)
Theorem build_email_placeholder_for_missing :
  forall (entries : list (paper * list (str * json))) (w : world)
         (n j : nat) (p : paper) (d : list (str * json)) (label key : str),
    nth_error entries n = Some (p, d) ->
    nth_error SCHEMA j = Some (label, key) ->
    let lines :=
      (HEADER ++ [LF])
      :: concat (map (fun item => block_lines item ++ [[LF]]) (enumerate entries 1)) in
    build_email (map entry_of entries) w
    = (Returns
         {| subject :=
              lit "NBER IO Digest: " ++ str_of_nat (length entries) ++ lit " new papers";
            body := join [LF] lines |}, w)
    /\ length lines = (1 + 7 * length entries)%nat
    /\ nth_error lines (1 + 7 * n) = Some (str_of_nat (1 + n) ++ lit ". " ++ title p)
    /\ nth_error lines (1 + 7 * n + 2 + j)
       = Some (label ++ lit ": "
               ++ match dict_get key d with
                  | Some v => py_str v
                  | None => lit "N/A"
                  end).
Proof.
  intros entries w n j p d label key Hn Hj lines.
  pose proof (nth_error_enumerate entries 1 n (p, d) Hn) as Hitem.
  split; [|split; [|split]].
  - destruct entries as [|first others]; [destruct n; discriminate Hn|].
    apply build_email_dicts.
  - unfold lines. cbn [length].
    rewrite (length_concat_fixed _ 7) by apply length_block.
    rewrite length_enumerate. reflexivity.
  - unfold lines. replace (1 + 7 * n)%nat with (S (7 * n + 0)) by lia.
    cbn [nth_error].
    etransitivity; [apply (nth_error_concat_fixed _ 7 _ length_block n _ 0 Hitem); lia|].
    reflexivity.
  - unfold lines. replace (1 + 7 * n + 2 + j)%nat with (S (7 * n + (2 + j))) by lia.
    cbn [nth_error].
    assert (Hlt : (j < 4)%nat).
    { change 4%nat with (length SCHEMA). apply nth_error_Some. rewrite Hj. discriminate. }
    etransitivity;
      [apply (nth_error_concat_fixed _ 7 _ length_block n _ (2 + j) Hitem); lia|].
    unfold SCHEMA in Hj.
    destruct j as [|[|[|[|j]]]]; try lia;
      injection Hj as <- <-; reflexivity.
Qed.

(** C5.  For the empty list [build_email] returns the fixed subject and
    the fixed sentence, and nothing else.  The lines that compose a
    digest, run on the empty list, would give another report: a subject
    with the count 0 and a body with the header. *)
Theorem build_email_empty_case :
  forall w : world,
    build_email [] w
    = (Returns
         {| subject := lit "NBER IO Digest: No new papers this week";
            body := lit "There are no new Industrial Organization papers this week." |},
       w)
    /\ build_digest [] w
       = (Returns {| subject := lit "NBER IO Digest: 0 new papers";
                     body := HEADER ++ [LF] |}, w)
    /\ fst (build_email [] w) <> fst (build_digest [] w).
Proof.
  intros w. split; [reflexivity|]. split; [reflexivity|].
  cbn. intros H. injection H as H _. vm_compute in H. discriminate H.
Qed.

(** C6.  For a list of entries that is not empty, the subject holds the
    number of entries, and the body is the header followed, for each
    entry in the order of the list, by its number, counted from 1, with
    its title, its URL, and its four labelled lines in the order
    research question, method, data, main result.  The order of the
    keys inside a mapping does not show. *)
Theorem build_email_blocks_in_order :
  forall (first : paper * list (str * json))
         (others : list (paper * list (str * json))) (w : world),
    build_email (map entry_of (first :: others)) w
    = (Returns
         {| subject :=
              lit "NBER IO Digest: " ++ str_of_nat (length (first :: others))
              ++ lit " new papers";
            body :=
              join [LF]
                ((lit "This week's NBER Industrial Organization papers:" ++ [LF])
                 :: concat
                      (map (fun item : nat * (paper * list (str * json)) =>
                              let '(i, (p, d)) := item in
                              [ str_of_nat i ++ lit ". " ++ title p;
                                lit "URL: " ++ url p;
                                lit "Research question: " ++ shown d (lit "research_question");
                                lit "Method: " ++ shown d (lit "method");
                                lit "Data: " ++ shown d (lit "data");
                                lit "Main result: " ++ shown d (lit "main_result");
                                [LF] ])
                         (combine (seq 1 (length (first :: others))) (first :: others)))) |},
       w)
    /\ forall entries',
         Forall2 (fun a b : paper * list (str * json) =>
                    fst a = fst b /\ NoDup (map fst (snd a)) /\ Permutation (snd a) (snd b))
                 (first :: others) entries' ->
         build_email (map entry_of entries') w
         = build_email (map entry_of (first :: others)) w.
Proof.
  intros first others w. split.
  - rewrite build_email_dicts. unfold enumerate, HEADER. do 6 f_equal.
    apply map_ext. intros [i [p d]]. reflexivity.
  - intros entries' H.
    pose proof (blocks_permutation _ _ H 1) as Hb.
    destruct entries' as [|first' others']; [inversion H|].
    rewrite !build_email_dicts. unfold enumerate. rewrite <- Hb.
    apply Forall2_length in H. rewrite H. reflexivity.
Qed.

(** C7, as amended.  Between the last labelled line of a block and the
    numbered line of the next block stand three line feeds, that is two
    blank lines; one blank line follows the header, and two line feeds
    end the body. *)
Theorem build_email_two_blank_lines :
  forall (first : paper * list (str * json))
         (others : list (paper * list (str * json))) (w : world),
    build_email (map entry_of (first :: others)) w
    = (Returns
         {| subject :=
              lit "NBER IO Digest: " ++ str_of_nat (length (first :: others))
              ++ lit " new papers";
            body :=
              HEADER ++ [LF; LF]
              ++ join [LF; LF; LF]
                   (map (fun item => join [LF] (block_lines item))
                      (enumerate (first :: others) 1))
              ++ [LF; LF] |},
       w).
Proof.
  intros first others w. rewrite build_email_dicts. do 3 f_equal.
  rewrite join_cons.
  - rewrite <- (map_map block_lines (fun b => b ++ [[LF]])).
    rewrite join_blocks.
    + rewrite map_map. rewrite <- app_assoc. reflexivity.
    + unfold enumerate. cbn. discriminate.
    + apply Forall_forall. intros b Hb. apply in_map_iff in Hb.
      destruct Hb as ([i [p d]] & <- & _). discriminate.
  - unfold enumerate. cbn. destruct first as [p d]. discriminate.
Qed.


(** C9.  [build_email] neither reads nor changes the world: composing
    the same list in any two worlds gives the same outcome, subject and
    body included, and leaves each world as it was. *)
Theorem build_email_idempotent :
  forall (entries : list digest_entry) (w1 w2 : world),
    fst (build_email entries w1) = fst (build_email entries w2)
    /\ snd (build_email entries w1) = w1
    /\ (r1 <- build_email entries ;; r2 <- build_email entries ;; ret (r1, r2)) w1
       = match fst (build_email entries w1) with
         | Returns r => (Returns (r, r), w1)
         | Raises e => (Raises e, w1)
         end.
Proof.
  intros entries w1 w2. destruct (build_email_pure entries) as [o Ho].
  split; [rewrite !Ho; reflexivity|]. split; [rewrite Ho; reflexivity|].
  unfold bind, ret. rewrite !Ho. cbn [fst].
  destruct o as [r|e]; reflexivity.
Qed.

(** C10.  [parse_groq_json] returns whatever value [json.loads] reads,
    mapping or not, and so does the extractor; [build_email] then fails
    with [AttributeError] on a list that holds an entry whose summary is
    not a mapping: such a value has no method [get]. *)
Theorem non_mapping_reply_breaks_composer :
  forall (raw : str) (v : json) (w : world),
    json_loads python (json_text raw) = Returns v ->
    is_dict v = false ->
    parse_groq_json raw w = (Returns v, w)
    /\ (forall p rest e,
          chat_completions_create (request_of (prompt_of p)) (outside w)
          = (Returns {| choices := Some raw :: rest |}, e) ->
          summarize_with_groq p w = (Returns v, {| outside := e; stdout := stdout w |}))
    /\ (forall p w',
          build_email [ {| entry_paper := p; entry_summary_of := v |} ] w'
          = (Raises (AttributeError (type_name v) (lit "get")), w'))
    /\ (forall p entries w',
          In {| entry_paper := p; entry_summary_of := v |} entries ->
          exists t, build_email entries w' = (Raises (AttributeError t (lit "get")), w')).
Proof.
  intros raw v w Hv Hnd.
  split; [rewrite parse_groq_json_eq, Hv; reflexivity|].
  split; [|split].
  - intros p rest e Hcall.
    rewrite (summarize_with_groq_reply p w raw rest e Hcall).
    rewrite parse_groq_json_eq, Hv. reflexivity.
  - intros p w'. cbn [build_email]. unfold build_digest, enumerate.
    cbn [length seq combine for_loop].
    apply bind_raises. apply bind_raises. apply add_block_not_dict. exact Hnd.
  - intros p entries w' Hin. eapply build_email_not_dict; eassumption.
Qed.

(* ===================================================================== *)
(** ** Further properties of the pipeline *)
(* ===================================================================== *)

(** *** Loops *)

Lemma for_loop_app {A S : Type} (body : A -> S -> py S) (l1 l2 : list A) : forall s w,
  for_loop (l1 ++ l2) body s w
  = (s' <- for_loop l1 body s ;; for_loop l2 body s') w.
Proof.
  induction l1 as [|x l1 IH]; intros s w; [reflexivity|].
  cbn [app for_loop]. unfold bind.
  destruct (body x s w) as [[s'|e] w']; [rewrite IH; reflexivity | reflexivity].
Qed.

Lemma extractor_calls_app a : forall b w,
  extractor_calls (a ++ b) w
  = (fst (extractor_calls a w) ++ fst (extractor_calls b (snd (extractor_calls a w))),
     snd (extractor_calls b (snd (extractor_calls a w)))).
Proof.
  induction a as [|p a IH]; intros b w.
  - cbn. destruct (extractor_calls b w); reflexivity.
  - cbn [app extractor_calls].
    destruct (summarize_with_groq p w) as [r w1].
    rewrite IH.
    destruct (extractor_calls a _) as [rs w3]. reflexivity.
Qed.

Lemma successes_app a b : successes (a ++ b) = successes a ++ successes b.
Proof.
  induction a as [|[p [v|e]] a IH]; cbn; [reflexivity | rewrite IH; reflexivity | exact IH].
Qed.

Lemma failures_app a b : failures (a ++ b) = failures a ++ failures b.
Proof.
  induction a as [|[p [v|e]] a IH]; cbn; [reflexivity | exact IH | rewrite IH; reflexivity].
Qed.

Lemma successes_failures_length calls :
  (length (successes calls) + length (failures calls) = length calls)%nat.
Proof.
  induction calls as [|[p [v|e]] calls IH]; cbn; lia.
Qed.

Lemma summarize_all_calls papers w :
  summarize_all papers w
  = (Returns (successes (fst (extractor_calls papers w))), snd (extractor_calls papers w)).
Proof. unfold summarize_all. rewrite summarize_all_loop. reflexivity. Qed.

(** *** The feed *)

Lemma fetch_loop_missing bad rest attribute acc w :
  first_missing bad = Some attribute ->
  for_loop (bad :: rest)
    (fun entry papers =>
       t <- getattr (entry_title entry) "title" ;;
       l <- getattr (entry_link entry) "link" ;;
       s <- getattr (entry_summary entry) "summary" ;;
       ret (papers ++ [{| title := t; url := l; abstract := clean_html s |}]))
    acc w
  = (Raises (AttributeError (lit "FeedParserDict") attribute), w).
Proof.
  unfold first_missing. destruct bad as [[t|] [l|] [s|]]; cbn [entry_title entry_link entry_summary];
    intros [= <-]; reflexivity.
Qed.

Lemma fetch_loop_returns entries : forall acc w papers w',
  for_loop entries
    (fun entry papers =>
       t <- getattr (entry_title entry) "title" ;;
       l <- getattr (entry_link entry) "link" ;;
       s <- getattr (entry_summary entry) "summary" ;;
       ret (papers ++ [{| title := t; url := l; abstract := clean_html s |}]))
    acc w
  = (Returns papers, w') ->
  Forall (fun entry => first_missing entry = None) entries
  /\ length papers = (length acc + length entries)%nat.
Proof.
  induction entries as [|[[t|] [l|] [s|]] entries IH]; intros acc w papers w' H;
    try discriminate H.
  - injection H as <- _. split; [constructor | cbn; lia].
  - cbn [for_loop] in H. unfold bind at 1 in H. cbn in H.
    apply IH in H. destruct H as [HF Hlen]. split; [constructor; [reflexivity | exact HF]|].
    rewrite Hlen, length_app. cbn. lia.
Qed.

Lemma fetch_loop_pure entries : forall acc w papers w',
  for_loop entries
    (fun entry papers =>
       t <- getattr (entry_title entry) "title" ;;
       l <- getattr (entry_link entry) "link" ;;
       s <- getattr (entry_summary entry) "summary" ;;
       ret (papers ++ [{| title := t; url := l; abstract := clean_html s |}]))
    acc w
  = (Returns papers, w') ->
  w' = w.
Proof.
  induction entries as [|[[t|] [l|] [s|]] entries IH]; intros acc w papers w' H;
    try discriminate H.
  - injection H as _ <-. reflexivity.
  - cbn [for_loop] in H. unfold bind at 1 in H. cbn in H.
    apply IH in H. exact H.
Qed.

(** X1.  [fetch_new_io_papers] returns all the papers of the feed or
    none.  An error of the feed reader reaches the caller as it is.  At
    the first entry that lacks its title, its link or its summary the
    function raises [AttributeError] for the first of the three that is
    missing, and the papers made of the entries before it are lost.
    When it returns, every entry of the feed had its three attributes,
    the papers are as many as the entries, and nothing but the call to
    the feed reader has touched the world. *)
Theorem fetch_new_io_papers_all_or_nothing :
  forall (w : world),
    (forall x e,
        feedparser_parse RSS_URL (outside w) = (Raises x, e) ->
        fetch_new_io_papers w = (Raises x, {| outside := e; stdout := stdout w |}))
    /\ (forall good bad rest attribute e,
          feedparser_parse RSS_URL (outside w)
          = (Returns (map full_entry good ++ bad :: rest), e) ->
          first_missing bad = Some attribute ->
          fetch_new_io_papers w
          = (Raises (AttributeError (lit "FeedParserDict") attribute),
             {| outside := e; stdout := stdout w |}))
    /\ (forall entries e papers w',
          feedparser_parse RSS_URL (outside w) = (Returns entries, e) ->
          fetch_new_io_papers w = (Returns papers, w') ->
          Forall (fun entry => first_missing entry = None) entries
          /\ length papers = length entries
          /\ w' = {| outside := e; stdout := stdout w |}).
Proof.
  intros w. split; [|split].
  - intros x e H. unfold fetch_new_io_papers, bind at 1, call. rewrite H. reflexivity.
  - intros good bad rest attribute e H Hbad.
    unfold fetch_new_io_papers, bind at 1, call. rewrite H.
    rewrite for_loop_app.
    erewrite bind_returns by apply (fetch_loop good []).
    apply fetch_loop_missing. exact Hbad.
  - intros entries e papers w' H Hret.
    unfold fetch_new_io_papers, bind at 1, call in Hret. rewrite H in Hret.
    pose proof (fetch_loop_returns _ _ _ _ _ Hret) as [HF Hlen].
    apply fetch_loop_pure in Hret.
    repeat split; assumption.
Qed.

(** *** The orchestrator *)

Lemma successes_in ps calls :
  In ps (successes calls) -> In (entry_paper ps) (map fst calls).
Proof.
  induction calls as [|[p [v|e]] calls IH]; cbn; [contradiction | |].
  - intros [<-|H]; [left; reflexivity | right; auto].
  - intros H. right. auto.
Qed.

Lemma failures_in line calls :
  In line (failures calls) ->
  exists p x, In p (map fst calls) /\ line = failure_line p x.
Proof.
  induction calls as [|[p [v|e]] calls IH]; cbn; [contradiction | |].
  - intros H. destruct (IH H) as (p' & x & Hp & ->). exists p', x. auto.
  - intros [<-|H].
    + exists p, e. auto.
    + destruct (IH H) as (p' & x & Hp & ->). exists p', x. auto.
Qed.

(** X2.  The loop of [main] accounts for every paper once: the entries
    it returns and the lines it prints are together as many as the
    papers.  Every entry holds one of the papers, and every line is the
    failure line of one of the papers. *)
Theorem summarize_all_accounts_for_every_paper :
  forall (papers : list paper) (w : world),
    exists (entries : list digest_entry) (lines : list str) (e : env),
      summarize_all papers w
      = (Returns entries, {| outside := e; stdout := stdout w ++ lines |})
      /\ (length entries + length lines = length papers)%nat
      /\ (forall ps, In ps entries -> In (entry_paper ps) papers)
      /\ (forall line, In line lines ->
            exists p x, In p papers /\ line = failure_line p x).
Proof.
  intros papers w.
  pose proof (extractor_calls_papers papers w) as Hp.
  pose proof (extractor_calls_stdout papers w) as Hout.
  exists (successes (fst (extractor_calls papers w))),
         (failures (fst (extractor_calls papers w))),
         (outside (snd (extractor_calls papers w))).
  split; [|split; [|split]].
  - rewrite summarize_all_calls, <- Hout.
    destruct (snd (extractor_calls papers w)); reflexivity.
  - rewrite successes_failures_length, <- (length_map fst), Hp. reflexivity.
  - intros ps H. apply successes_in in H. rewrite Hp in H. exact H.
  - intros line H. apply failures_in in H. rewrite Hp in H. exact H.
Qed.

(** X3.  Summarizing a list of papers is summarizing a first part of
    it and then, in the world the first part leaves, the rest: the
    entries of the two parts follow each other, and nothing of the
    first part but the world reaches the second. *)
Theorem summarize_all_in_batches :
  forall (first second : list paper) (w : world),
    exists r1 w1 r2 w2,
      summarize_all first w = (Returns r1, w1)
      /\ summarize_all second w1 = (Returns r2, w2)
      /\ summarize_all (first ++ second) w = (Returns (r1 ++ r2), w2).
Proof.
  intros first second w.
  exists (successes (fst (extractor_calls first w))), (snd (extractor_calls first w)),
         (successes (fst (extractor_calls second (snd (extractor_calls first w))))),
         (snd (extractor_calls second (snd (extractor_calls first w)))).
  rewrite !summarize_all_calls, extractor_calls_app. cbn [fst snd].
  rewrite successes_app. repeat split.
Qed.

(** *** The composer *)

Lemma block_lines_same_fields i p p' d d' :
  title p = title p' -> url p = url p' ->
  (forall label key, In (label, key) SCHEMA -> dict_get key d = dict_get key d') ->
  block_lines (i, (p, d)) = block_lines (i, (p', d')).
Proof.
  intros Ht Hu H. unfold block_lines, shown. rewrite Ht, Hu. f_equal.
  apply map_ext_in. intros [label key] Hin.
  rewrite (H label key Hin). reflexivity.
Qed.

Lemma blocks_same_fields entries entries' :
  Forall2 (fun a b : paper * list (str * json) =>
             title (fst a) = title (fst b) /\ url (fst a) = url (fst b)
             /\ forall label key, In (label, key) SCHEMA ->
                  dict_get key (snd a) = dict_get key (snd b))
          entries entries' ->
  forall k,
    map (fun item => block_lines item ++ [[LF]]) (combine (seq k (length entries)) entries)
    = map (fun item => block_lines item ++ [[LF]]) (combine (seq k (length entries')) entries').
Proof.
  induction 1 as [|[p d] [p' d'] l l' (Ht & Hu & Hd) _ IH]; intros k; [reflexivity|].
  cbn in Ht, Hu, Hd.
  cbn [length seq combine map]. rewrite (IH (S k)).
  rewrite (block_lines_same_fields k p p' d d' Ht Hu Hd). reflexivity.
Qed.

(** X4.  [build_email] reads of an entry the title and the URL of its
    paper and, through the four keys of the schema, its mapping: two
    lists of entries that agree on these give the same subject and
    body, whatever the abstracts are and whatever else the mappings
    hold. *)
Theorem build_email_reads_schema_keys_only :
  forall (entries entries' : list (paper * list (str * json))) (w : world),
    Forall2 (fun a b : paper * list (str * json) =>
               title (fst a) = title (fst b) /\ url (fst a) = url (fst b)
               /\ forall label key, In (label, key) SCHEMA ->
                    dict_get key (snd a) = dict_get key (snd b))
            entries entries' ->
    build_email (map entry_of entries') w = build_email (map entry_of entries) w.
Proof.
  intros entries entries' w H.
  pose proof (blocks_same_fields _ _ H 1) as Hb.
  destruct H as [|a b l l' Hab Hl]; [reflexivity|].
  rewrite !build_email_dicts. unfold enumerate. rewrite <- Hb.
  apply Forall2_length in Hl. cbn [length]. rewrite Hl. reflexivity.
Qed.

Lemma for_loop_first_bad good p v rest : forall k lines w,
  is_dict v = false ->
  for_loop
    (combine
       (seq k (length (map entry_of good ++ {| entry_paper := p; entry_summary_of := v |} :: rest)))
       (map entry_of good ++ {| entry_paper := p; entry_summary_of := v |} :: rest))
    add_block lines w
  = (Raises (AttributeError (type_name v) (lit "get")), w).
Proof.
  induction good as [|[p0 d0] good IH]; intros k lines w Hv.
  - cbn [map app length seq combine for_loop].
    apply bind_raises. apply add_block_not_dict. exact Hv.
  - cbn [map app length seq combine for_loop].
    erewrite bind_returns by apply (add_block_dict k p0 d0).
    apply IH. exact Hv.
Qed.

(** X5.  [build_email] fails at the first entry whose summary is not a
    mapping: the [AttributeError] names the type of that summary, and
    neither the entries before it, which are mappings, nor the entries
    after it, whatever they are, change the outcome. *)
Theorem build_email_first_non_mapping :
  forall (good : list (paper * list (str * json))) (p : paper) (v : json)
         (rest : list digest_entry) (w : world),
    is_dict v = false ->
    build_email (map entry_of good ++ {| entry_paper := p; entry_summary_of := v |} :: rest) w
    = (Raises (AttributeError (type_name v) (lit "get")), w).
Proof.
  intros good p v rest w Hv.
  pose proof (for_loop_first_bad good p v rest 1
                [lit "This week's NBER Industrial Organization papers:" ++ [LF]] w Hv) as Hloop.
  destruct (map entry_of good ++ {| entry_paper := p; entry_summary_of := v |} :: rest)
    as [|ps l] eqn:E.
  - destruct good; discriminate E.
  - change (build_email (ps :: l)) with (build_digest (ps :: l)).
    unfold build_digest, enumerate. apply bind_raises. exact Hloop.
Qed.

(** *** The workflow *)

Lemma fetch_full_feed w triples e1 :
  feedparser_parse RSS_URL (outside w) = (Returns (map full_entry triples), e1) ->
  fetch_new_io_papers w
  = (Returns (map paper_of triples), {| outside := e1; stdout := stdout w |}).
Proof.
  intros H. unfold fetch_new_io_papers, bind at 1, call. rewrite H.
  apply (fetch_loop triples []).
Qed.

(** [main] after a feed of complete entries: what is left is to compose
    and to deliver, in the world the extractor calls leave. *)
Lemma main_after_fetch w triples e1 :
  feedparser_parse RSS_URL (outside w) = (Returns (map full_entry triples), e1) ->
  main w
  = (email_content <-
       build_email
         (successes
            (fst (extractor_calls (map paper_of triples)
                    {| outside := e1; stdout := stdout w |}))) ;;
     send_email (subject email_content) (body email_content) ;;
     print (lit "Email sent: " ++ subject email_content))
      (snd (extractor_calls (map paper_of triples) {| outside := e1; stdout := stdout w |})).
Proof.
  intros H. unfold main.
  erewrite bind_returns by (apply fetch_full_feed; exact H).
  erewrite bind_returns by apply summarize_all_calls.
  reflexivity.
Qed.

Lemma extractor_calls_world papers w :
  snd (extractor_calls papers w)
  = {| outside := outside (snd (extractor_calls papers w));
       stdout := stdout w ++ failures (fst (extractor_calls papers w)) |}.
Proof.
  rewrite <- extractor_calls_stdout.
  destruct (snd (extractor_calls papers w)); reflexivity.
Qed.

(** X6.  A run of [main] that succeeds, end to end.  On a feed of
    complete entries, when the composer returns a report for the
    entries of the extractor calls that returned and the mail relay
    accepts the message, [main] returns; one message went to the relay,
    with the subject and the body of the report and the sender and the
    recipient of the configuration; standard output holds the failure
    lines of the calls that raised, then the line [Email sent] with the
    subject. *)
Theorem main_delivers_report :
  forall (w : world) (triples : list (str * str * str)) (e1 e3 : env) (r : report),
    feedparser_parse RSS_URL (outside w) = (Returns (map full_entry triples), e1) ->
    let calls :=
      fst (extractor_calls (map paper_of triples) {| outside := e1; stdout := stdout w |}) in
    let w2 :=
      snd (extractor_calls (map paper_of triples) {| outside := e1; stdout := stdout w |}) in
    fst (build_email (successes calls) w2) = Returns r ->
    smtp_send_message cfg (message_of r) (outside w2) = (Returns tt, e3) ->
    main w
    = (Returns tt,
       {| outside := e3;
          stdout := stdout w ++ failures calls ++ [lit "Email sent: " ++ subject r] |}).
Proof.
  intros w triples e1 e3 r Hfeed calls w2 Hbuild Hsend.
  rewrite (main_after_fetch w triples e1 Hfeed). fold calls w2.
  destruct (build_email_pure (successes calls)) as [o Ho].
  rewrite Ho in Hbuild. cbn [fst] in Hbuild. subst o.
  erewrite bind_returns by apply Ho.
  unfold send_email, bind, call, print. unfold message_of in Hsend. rewrite Hsend.
  unfold w2 at 2. rewrite extractor_calls_world. cbn [stdout outside].
  fold calls. rewrite <- app_assoc. reflexivity.
Qed.

(** X7.  When no extractor call returns, whatever the number of papers
    in the feed, [main] sends the report of a week without papers: the
    recipient reads that there are no new papers, and only standard
    output, with one failure line for each paper, tells the difference
    from an empty feed. *)
Theorem main_reports_no_papers_when_all_fail :
  forall (w : world) (triples : list (str * str * str)) (e1 e3 : env),
    feedparser_parse RSS_URL (outside w) = (Returns (map full_entry triples), e1) ->
    let calls :=
      fst (extractor_calls (map paper_of triples) {| outside := e1; stdout := stdout w |}) in
    let w2 :=
      snd (extractor_calls (map paper_of triples) {| outside := e1; stdout := stdout w |}) in
    successes calls = [] ->
    smtp_send_message cfg (message_of NO_PAPERS) (outside w2) = (Returns tt, e3) ->
    main w
    = (Returns tt,
       {| outside := e3;
          stdout :=
            stdout w ++ failures calls
            ++ [lit "Email sent: NBER IO Digest: No new papers this week"] |})
    /\ length (failures calls) = length triples.
Proof.
  intros w triples e1 e3 Hfeed calls w2 Hnone Hsend. split.
  - rewrite (main_after_fetch w triples e1 Hfeed). fold calls w2.
    rewrite Hnone.
    unfold send_email, bind, call, print. cbn [build_email ret].
    unfold message_of, NO_PAPERS in Hsend. cbn [subject body] in Hsend |- *.
    rewrite Hsend.
    unfold w2 at 2. rewrite extractor_calls_world. cbn [stdout outside].
    fold calls. rewrite <- app_assoc. reflexivity.
  - pose proof (successes_failures_length calls) as Hlen.
    rewrite Hnone in Hlen. cbn [length Nat.add] in Hlen. rewrite Hlen.
    unfold calls. rewrite <- (length_map fst), extractor_calls_papers.
    apply length_map.
Qed.

(** X8.  [main] stops at the feed.  When the feed reader raises, or an
    entry of the feed lacks its title, its link or its summary, [main]
    raises that exception; the world is as the feed reader left it: no
    request went to the model, no message to the mail relay, and
    nothing was printed. *)
Theorem main_stops_at_the_feed :
  forall (w : world),
    (forall x e,
        feedparser_parse RSS_URL (outside w) = (Raises x, e) ->
        main w = (Raises x, {| outside := e; stdout := stdout w |}))
    /\ (forall good bad rest attribute e,
          feedparser_parse RSS_URL (outside w)
          = (Returns (map full_entry good ++ bad :: rest), e) ->
          first_missing bad = Some attribute ->
          main w
          = (Raises (AttributeError (lit "FeedParserDict") attribute),
             {| outside := e; stdout := stdout w |})).
Proof.
  intros w. split.
  - intros x e H. unfold main. apply bind_raises.
    unfold fetch_new_io_papers, bind at 1, call. rewrite H. reflexivity.
  - intros good bad rest attribute e H Hbad. unfold main. apply bind_raises.
    unfold fetch_new_io_papers, bind at 1, call. rewrite H.
    rewrite for_loop_app.
    erewrite bind_returns by apply (fetch_loop good []).
    apply fetch_loop_missing. exact Hbad.
Qed.

(** X9.  One reply that is JSON but not an object stops the whole
    digest.  The extractor returns such a value, so the handler in the
    loop does not see it; the composer then raises [AttributeError],
    and [main] with it, after every request to the model was made: no
    message goes to the mail relay, the entries of the other papers are
    lost, and the line [Email sent] is not printed. *)
Theorem main_fails_on_non_mapping_summary :
  forall (w : world) (triples : list (str * str * str)) (e1 : env) (p : paper) (v : json),
    feedparser_parse RSS_URL (outside w) = (Returns (map full_entry triples), e1) ->
    let calls :=
      fst (extractor_calls (map paper_of triples) {| outside := e1; stdout := stdout w |}) in
    let w2 :=
      snd (extractor_calls (map paper_of triples) {| outside := e1; stdout := stdout w |}) in
    In (p, Returns v) calls ->
    is_dict v = false ->
    exists t,
      main w = (Raises (AttributeError t (lit "get")), w2)
      /\ stdout w2 = stdout w ++ failures calls.
Proof.
  intros w triples e1 p v Hfeed calls w2 Hin Hv.
  assert (Hs : In {| entry_paper := p; entry_summary_of := v |} (successes calls)).
  { clear -Hin. induction calls as [|[p0 [v0|x0]] calls IH]; [contradiction| |].
    - destruct Hin as [[= -> ->]|Hin]; [left; reflexivity | right; auto].
    - destruct Hin as [Heq|Hin]; [discriminate Heq | cbn; auto]. }
  destruct (build_email_not_dict (successes calls) w2 p v Hs Hv) as [t Ht].
  exists t. split.
  - rewrite (main_after_fetch w triples e1 Hfeed). fold calls w2.
    apply bind_raises. exact Ht.
  - unfold w2, calls. apply (extractor_calls_stdout _ {| outside := e1; stdout := stdout w |}).
Qed.

(** X10.  An error of the mail relay reaches the caller of [main] as it
    is, with no retry, and the line [Email sent] is not printed:
    standard output holds the failure lines of the extractor calls and
    nothing more. *)
Theorem main_delivery_failure :
  forall (w : world) (triples : list (str * str * str)) (e1 e3 : env) (r : report)
         (x : exception),
    feedparser_parse RSS_URL (outside w) = (Returns (map full_entry triples), e1) ->
    let calls :=
      fst (extractor_calls (map paper_of triples) {| outside := e1; stdout := stdout w |}) in
    let w2 :=
      snd (extractor_calls (map paper_of triples) {| outside := e1; stdout := stdout w |}) in
    fst (build_email (successes calls) w2) = Returns r ->
    smtp_send_message cfg (message_of r) (outside w2) = (Raises x, e3) ->
    main w = (Raises x, {| outside := e3; stdout := stdout w ++ failures calls |}).
Proof.
  intros w triples e1 e3 r x Hfeed calls w2 Hbuild Hsend.
  rewrite (main_after_fetch w triples e1 Hfeed). fold calls w2.
  destruct (build_email_pure (successes calls)) as [o Ho].
  rewrite Ho in Hbuild. cbn [fst] in Hbuild. subst o.
  erewrite bind_returns by apply Ho.
  unfold send_email, bind, call. unfold message_of in Hsend. rewrite Hsend.
  unfold w2. rewrite extractor_calls_world. reflexivity.
Qed.

(** *** The candidate text of a reply *)

Lemma star_greedy_split {A : Type} k (cont : str -> option A) s a :
  star_greedy k s cont = Some a ->
  exists pre rest, s = pre ++ rest /\ forallb (in_cls k) pre = true /\ cont rest = Some a.
Proof.
  induction s as [|c s IH]; cbn.
  - intros H. exists [], []. auto.
  - destruct (in_cls k c) eqn:E.
    + destruct (star_greedy k s cont) eqn:E'.
      * intros [= ->]. destruct (IH eq_refl) as (pre & rest & -> & Hp & Hc).
        exists (c :: pre), rest. cbn. rewrite E. auto.
      * intros H. exists [], (c :: s). auto.
    + intros H. exists [], (c :: s). auto.
Qed.

Lemma star_lazy_split {A : Type} k (cont : str -> option A) s a :
  star_lazy k s cont = Some a ->
  exists pre rest, s = pre ++ rest /\ forallb (in_cls k) pre = true /\ cont rest = Some a.
Proof.
  induction s as [|c s IH]; cbn.
  - destruct (cont []) eqn:E; [intros [= ->]; exists [], []; auto | discriminate].
  - destruct (cont (c :: s)) eqn:E; [intros [= ->]; exists [], (c :: s); auto|].
    destruct (in_cls k c) eqn:Ec; [|discriminate].
    intros H. destruct (IH H) as (pre & rest & -> & Hp & Hc).
    exists (c :: pre), rest. cbn. rewrite Ec. auto.
Qed.

(** A match of the pattern from the whitespace after the tag on:
    whitespace, a text in braces, whitespace, three backticks. *)
Lemma fence_body_shape t g :
  rmatch
    (RSeq (RStar CSpace)
       (RSeq (RGroup (RSeq (RLit (lit "{")) (RSeq (RLazy CAny) (RLit (lit "}")))))
          (RSeq (RStar CSpace) (RLit (lit "```")))))
    t None (fun _ g => Some g) = Some g ->
  exists W1 X W2 S,
    t = W1 ++ 123 :: X ++ 125 :: W2 ++ lit "```" ++ S
    /\ forallb isspace W1 = true /\ forallb isspace W2 = true
    /\ g = Some (123 :: X ++ [125]).
Proof.
  rewrite rmatch_seq, rmatch_star. intros H.
  apply star_greedy_split in H. destruct H as (W1 & r1 & -> & HW1 & H).
  rewrite rmatch_seq, rmatch_group, rmatch_seq, rmatch_lit in H.
  destruct (strip_prefix (lit "{") r1) as [r2|] eqn:E1; [|discriminate H].
  apply strip_prefix_some in E1. subst r1.
  rewrite rmatch_seq in H. cbn [rmatch] in H.
  apply star_lazy_split in H. destruct H as (X & r3 & -> & _ & H).
  destruct (strip_prefix (lit "}") r3) as [r4|] eqn:E2; [|discriminate H].
  apply strip_prefix_some in E2. subst r3.
  apply star_greedy_split in H. destruct H as (W2 & r5 & -> & HW2 & H).
  destruct (strip_prefix (lit "```") r5) as [S|] eqn:E3; [|discriminate H].
  apply strip_prefix_some in E3. subst r5.
  injection H as <-.
  exists W1, X, W2, S. repeat split; try assumption.
  f_equal.
  change (firstn (length (123 :: X ++ 125 :: W2 ++ lit "```" ++ S)
                  - length (W2 ++ lit "```" ++ S))
            (123 :: X ++ 125 :: W2 ++ lit "```" ++ S)
          = 123 :: X ++ [125]).
  replace (123 :: X ++ 125 :: W2 ++ lit "```" ++ S)
    with ((123 :: X ++ [125]) ++ (W2 ++ lit "```" ++ S))
    by (cbn [app]; rewrite <- app_assoc; reflexivity).
  apply firstn_app_length.
Qed.

Lemma re_match_fence_shape s g :
  re_match FENCE_RE s = Some g ->
  exists tag W1 X W2 S,
    s = lit "```" ++ tag ++ W1 ++ 123 :: X ++ 125 :: W2 ++ lit "```" ++ S
    /\ (tag = [] \/ tag = lit "json")
    /\ forallb isspace W1 = true /\ forallb isspace W2 = true
    /\ g = Some (123 :: X ++ [125]).
Proof.
  unfold re_match, FENCE_RE. rewrite rmatch_seq, rmatch_lit.
  destruct (strip_prefix (lit "```") s) as [t|] eqn:E; [|discriminate].
  apply strip_prefix_some in E. subst s.
  rewrite rmatch_seq, rmatch_opt, rmatch_lit.
  assert (Hplain : forall g0,
             rmatch
               (RSeq (RStar CSpace)
                  (RSeq (RGroup (RSeq (RLit (lit "{")) (RSeq (RLazy CAny) (RLit (lit "}")))))
                     (RSeq (RStar CSpace) (RLit (lit "```")))))
               t None (fun _ g => Some g) = Some g0 ->
             exists tag W1 X W2 S,
               lit "```" ++ t = lit "```" ++ tag ++ W1 ++ 123 :: X ++ 125 :: W2 ++ lit "```" ++ S
               /\ (tag = [] \/ tag = lit "json")
               /\ forallb isspace W1 = true /\ forallb isspace W2 = true
               /\ g0 = Some (123 :: X ++ [125])).
  { intros g0 H. apply fence_body_shape in H.
    destruct H as (W1 & X & W2 & S & -> & HW1 & HW2 & ->).
    exists [], W1, X, W2, S. repeat split; auto. }
  destruct (strip_prefix (lit "json") t) as [t'|] eqn:E'; [|apply Hplain].
  destruct (rmatch _ t' None _) as [g'|] eqn:Eb; [|apply Hplain].
  intros [= <-]. apply strip_prefix_some in E'. subst t.
  apply fence_body_shape in Eb.
  destruct Eb as (W1 & X & W2 & S & -> & HW1 & HW2 & ->).
  exists (lit "json"), W1, X, W2, S. repeat split; auto.
Qed.

Lemma re_search_fence_shape s : forall g,
  re_search FENCE_RE s = Some g ->
  exists P tag W1 X W2 S,
    s = P ++ lit "```" ++ tag ++ W1 ++ 123 :: X ++ 125 :: W2 ++ lit "```" ++ S
    /\ (tag = [] \/ tag = lit "json")
    /\ forallb isspace W1 = true /\ forallb isspace W2 = true
    /\ g = Some (123 :: X ++ [125]).
Proof.
  assert (Hnow : forall t g, re_match FENCE_RE t = Some g ->
            exists P tag W1 X W2 S,
              t = P ++ lit "```" ++ tag ++ W1 ++ 123 :: X ++ 125 :: W2 ++ lit "```" ++ S
              /\ (tag = [] \/ tag = lit "json")
              /\ forallb isspace W1 = true /\ forallb isspace W2 = true
              /\ g = Some (123 :: X ++ [125])).
  { intros t g H. apply re_match_fence_shape in H.
    destruct H as (tag & W1 & X & W2 & S & H). exists [], tag, W1, X, W2, S. exact H. }
  induction s as [|c s IH]; intros g; cbn [re_search].
  - destruct (re_match FENCE_RE []) eqn:E; [|discriminate].
    intros [= <-]. apply Hnow. exact E.
  - destruct (re_match FENCE_RE (c :: s)) eqn:E.
    + intros [= <-]. apply Hnow. exact E.
    + intros H. apply IH in H.
      destruct H as (P & tag & W1 & X & W2 & S & -> & H).
      exists (c :: P), tag, W1, X, W2, S. split; [reflexivity | exact H].
Qed.

Lemma strip_braced X : strip (123 :: X ++ [125]) = 123 :: X ++ [125].
Proof.
  apply strip_fixed; [reflexivity|].
  change (123 :: X ++ [125]) with ((123 :: X) ++ [125]).
  rewrite rev_app_distr. reflexivity.
Qed.

(** X11.  A match of the fence pattern, wherever [re.search] finds it,
    has one shape: three backticks, the tag [json] or nothing,
    whitespace, a text from an opening brace to a closing brace,
    whitespace, three backticks.  The text in braces is the group, and
    it is what [parse_groq_json] hands to [json.loads].  With or
    without a fence, the text handed to [json.loads] has no whitespace
    at its start or at its end. *)
Theorem fence_match_shape :
  forall (raw : str),
    strip (json_text raw) = json_text raw
    /\ forall g,
         re_search FENCE_RE raw = Some g ->
         exists P tag W1 X W2 S,
           raw = P ++ lit "```" ++ tag ++ W1 ++ 123 :: X ++ 125 :: W2 ++ lit "```" ++ S
           /\ (tag = [] \/ tag = lit "json")
           /\ forallb isspace W1 = true /\ forallb isspace W2 = true
           /\ g = Some (123 :: X ++ [125])
           /\ json_text raw = 123 :: X ++ [125].
Proof.
  intros raw. split.
  - unfold json_text. destruct (re_search FENCE_RE raw) as [g|] eqn:E.
    + apply re_search_fence_shape in E.
      destruct E as (P & tag & W1 & X & W2 & S & _ & _ & _ & _ & ->).
      apply strip_braced.
    + apply strip_fixed; [apply strip_no_lead | apply strip_no_trail].
  - intros g H. pose proof (re_search_fence_shape raw g H) as Hs.
    destruct Hs as (P & tag & W1 & X & W2 & S & Hraw & Htag & HW1 & HW2 & ->).
    exists P, tag, W1, X, W2, S. repeat split; try assumption.
    unfold json_text. rewrite H. reflexivity.
Qed.

(** *** What the extractor can return *)





(** *** Keys of the mappings the extractor returns *)

Lemma dict_set_keys k v d k' :
  In k' (map fst (dict_set k v d)) -> k' = k \/ In k' (map fst d).
Proof.
  induction d as [|[k0 v0] d IH]; cbn.
  - intros [<-|[]]. left. reflexivity.
  - destruct (str_eqb k k0); cbn.
    + intros H. right. exact H.
    + intros [<-|H]; [right; left; reflexivity|]. destruct (IH H); auto.
Qed.

Lemma dict_set_nodup k v d : NoDup (map fst d) -> NoDup (map fst (dict_set k v d)).
Proof.
  induction d as [|[k0 v0] d IH]; cbn; intros H.
  - constructor; [intros [] | constructor].
  - inversion H as [|? ? Hnotin Hnd]; subst.
    destruct (str_eqb k k0) eqn:E; cbn.
    + constructor; assumption.
    + constructor; [|apply IH; exact Hnd].
      intros Hin. apply dict_set_keys in Hin. destruct Hin as [Heq|Hin]; [|contradiction].
      subst k0. assert (str_eqb k k = true) by (apply str_eqb_eq; reflexivity). congruence.
Qed.

Lemma dict_set_values (Q : json -> Prop) k v d :
  Q v -> Forall (fun kv : str * json => Q (snd kv)) d ->
  Forall (fun kv : str * json => Q (snd kv)) (dict_set k v d).
Proof.
  intros Hv. induction 1 as [|[k0 v0] d H0 Hd IH]; cbn.
  - constructor; [exact Hv | constructor].
  - destruct (str_eqb k k0); constructor; auto.
Qed.

(** [d[k] = v] and then [d.get(k)], [d.get(k')]. *)
Lemma dict_get_set_same k v d : dict_get k (dict_set k v d) = Some v.
Proof.
  assert (Hk : str_eqb k k = true) by (apply str_eqb_eq; reflexivity).
  induction d as [|[k0 v0] d IH]; cbn.
  - rewrite Hk. reflexivity.
  - destruct (str_eqb k k0) eqn:E; cbn; rewrite E; [reflexivity | exact IH].
Qed.

Lemma dict_get_set_other k k' v d :
  k' <> k -> dict_get k' (dict_set k v d) = dict_get k' d.
Proof.
  intros Hne.
  assert (Hk : str_eqb k' k = false).
  { destruct (str_eqb k' k) eqn:E; [|reflexivity]. apply str_eqb_eq in E. contradiction. }
  induction d as [|[k0 v0] d IH]; cbn.
  - rewrite Hk. reflexivity.
  - destruct (str_eqb k k0) eqn:E; cbn.
    + apply str_eqb_eq in E. subst k0. rewrite Hk. reflexivity.
    + destruct (str_eqb k' k0); [reflexivity | exact IH].
Qed.

Lemma scan_atom_distinct_keys lim s v r :
  scan_atom lim s = Scanned v r -> distinct_keys v.
Proof.
  unfold scan_atom. intros H.
  destruct s as [|c s']; [discriminate H|].
  destruct (c =? QUOTE).
  - destruct (scanstring s' []); try discriminate H. injection H as <- _. constructor.
  - destruct (match_name (c :: s')) as [[v0 r0]|] eqn:E.
    + injection H as <- _. unfold match_name in E.
      repeat match type of E with
             | context [strip_prefix ?l ?x] => destruct (strip_prefix l x)
             end;
        try discriminate E; injection E as <- _; constructor.
    + unfold match_number in H. scan_cases H; injection H as <- _; constructor.
Qed.

Lemma scan_distinct_keys lim : forall n,
  (forall dp s v r, scan_once lim n dp s = Scanned v r -> distinct_keys v)
  /\ (forall dp s acc v r,
        array_items lim n dp s acc = Scanned v r ->
        Forall distinct_keys acc -> distinct_keys v)
  /\ (forall dp s d v r,
        object_items lim n dp s d = Scanned v r ->
        NoDup (map fst d) ->
        Forall (fun kv : str * json => distinct_keys (snd kv)) d ->
        distinct_keys v).
Proof.
  induction n as [|n (IHs & IHa & IHo)]; [repeat split; discriminate|].
  split; [|split].
  - intros dp s v r H. cbn [scan_once] in H.
    destruct s as [|c s']; [discriminate H|].
    destruct (c =? 123); [|destruct (c =? 91)].
    + destruct dp as [|dp']; [discriminate H|].
      destruct (skip_ws s') as [|c1 r1]; [discriminate H|].
      destruct (c1 =? 125).
      * injection H as <- _. constructor; constructor.
      * eapply IHo; [exact H | constructor | constructor].
    + destruct dp as [|dp']; [discriminate H|].
      destruct (skip_ws s') as [|c1 r1]; [discriminate H|].
      destruct (c1 =? 93).
      * injection H as <- _. constructor. constructor.
      * eapply IHa; [exact H | constructor].
    + eapply scan_atom_distinct_keys. exact H.
  - intros dp s acc v r H Hacc. cbn [array_items] in H.
    destruct (scan_once lim n dp s) as [v1 r1| | | |] eqn:E1; try discriminate H.
    apply IHs in E1.
    destruct (skip_ws r1) as [|c r2]; [discriminate H|].
    destruct (c =? 93); [|destruct (c =? 44); [|discriminate H]].
    + injection H as <- _. constructor.
      change (Forall distinct_keys (rev (v1 :: acc))).
      apply Forall_rev. constructor; assumption.
    + eapply IHa; [exact H|]. constructor; assumption.
  - intros dp s d v r H Hnd Hd. cbn [object_items] in H.
    destruct s as [|c s1]; [discriminate H|].
    destruct (c =? QUOTE); [|discriminate H].
    destruct (scanstring s1 []) as [key r1| | | |]; try discriminate H.
    destruct (skip_ws r1) as [|c1 r2]; [discriminate H|].
    destruct (c1 =? 58); [|discriminate H].
    destruct (scan_once lim n dp (skip_ws r2)) as [v1 r3| | | |] eqn:E2; try discriminate H.
    apply IHs in E2.
    destruct (skip_ws r3) as [|c2 r4]; [discriminate H|].
    destruct (c2 =? 125); [|destruct (c2 =? 44); [|discriminate H]].
    + injection H as <- _.
      constructor; [apply dict_set_nodup; exact Hnd | apply dict_set_values; assumption].
    + eapply IHo;
        [exact H | apply dict_set_nodup; exact Hnd | apply dict_set_values; assumption].
Qed.

Lemma json_loads_distinct_keys raw v :
  json_loads python raw = Returns v -> distinct_keys v.
Proof.
  intros H. apply json_loads_scanned in H. destruct H as (n & rest & H & _).
  eapply (proj1 (scan_distinct_keys _ _)). exact H.
Qed.

Lemma summarize_with_groq_distinct_keys p w v w' :
  summarize_with_groq p w = (Returns v, w') -> distinct_keys v.
Proof.
  unfold summarize_with_groq, bind, call.
  destruct (chat_completions_create (request_of (prompt_of p)) (outside w))
    as [[[[|[raw|] rest]]|x] e']; cbn; try discriminate.
  rewrite parse_groq_json_eq.
  destruct (json_loads python (json_text raw)) as [v0|] eqn:E; [|discriminate].
  intros [= <- _]. eapply json_loads_distinct_keys. exact E.
Qed.

Lemma extractor_calls_distinct_keys papers : forall w,
  Forall (fun ps => distinct_keys (entry_summary_of ps))
         (successes (fst (extractor_calls papers w))).
Proof.
  induction papers as [|p ps IH]; intros w; [constructor|].
  cbn [extractor_calls].
  destruct (summarize_with_groq p w) as [r w1] eqn:E.
  specialize (IH (match r with
                  | Returns _ => w1
                  | Raises e => {| outside := outside w1;
                                   stdout := stdout w1 ++ [failure_line p e] |}
                  end)).
  destruct (extractor_calls ps _) as [rs w3]. cbn [fst successes] in *.
  destruct r as [v|x]; [|exact IH].
  constructor; [|exact IH]. cbn. eapply summarize_with_groq_distinct_keys. exact E.
Qed.

(** X13.  No mapping that reaches the composer holds a key twice.  In
    every value [parse_groq_json] returns, and so in the summary of
    every entry the loop of [main] collects, the keys of a mapping are
    distinct at every depth (of a key the reply repeats, [json.loads]
    keeps one value); so a lookup in such a mapping finds the one pair
    that holds the key. *)
Theorem extractor_mappings_have_distinct_keys :
  forall (w : world),
    (forall raw v w',
        parse_groq_json raw w = (Returns v, w') ->
        distinct_keys v
        /\ forall d, v = JDict d ->
             NoDup (map fst d)
             /\ forall k x, dict_get k d = Some x <-> In (k, x) d)
    /\ (forall papers entries w',
          summarize_all papers w = (Returns entries, w') ->
          Forall (fun ps => distinct_keys (entry_summary_of ps)) entries).
Proof.
  intros w. split.
  - intros raw v w' H. rewrite parse_groq_json_eq in H.
    destruct (json_loads python (json_text raw)) as [v0|] eqn:E; [|discriminate H].
    injection H as -> _. apply json_loads_distinct_keys in E.
    split; [exact E|]. intros d ->. inversion E as [| | | | | |d' Hnd Hd]; subst.
    split; [exact Hnd|]. intros k x. split.
    + apply dict_get_some_in.
    + apply dict_get_in. exact Hnd.
  - intros papers entries w' H. rewrite summarize_all_calls in H.
    injection H as <- _. apply extractor_calls_distinct_keys.
Qed.

(** *** Summaries without text *)

Lemma drops_spaces_length full out :
  drops_spaces full out -> (length out <= length full)%nat.
Proof. induction 1; cbn; lia. Qed.

Lemma drops_spaces_to_nil full : drops_spaces full [] -> forallb isspace full = true.
Proof.
  induction full as [|c full IH]; [reflexivity|]. intros H.
  inversion H as [| |c' f' o' Hc Hrest]; subst. cbn. rewrite Hc. apply IH. exact Hrest.
Qed.

Lemma filter_spaces_nil s :
  forallb isspace s = true -> filter (fun c => negb (isspace c)) s = [].
Proof.
  induction s as [|c s IH]; [reflexivity|]. cbn. intros H.
  apply andb_true_iff in H. destruct H as [Hc Hs]. rewrite Hc. cbn. apply IH. exact Hs.
Qed.

(** X14.  [clean_html] returns the empty string exactly when the
    visible text of the summary is empty or all whitespace (markup
    only, comments only, blank text), and its result is never longer
    than the visible text. *)
Theorem clean_html_empty_iff_blank :
  forall (html_text : str),
    (clean_html html_text = []
     <-> forallb isspace (get_text (BeautifulSoup html_text)) = true)
    /\ (length (clean_html html_text) <= length (get_text (BeautifulSoup html_text)))%nat.
Proof.
  intros html_text. unfold clean_html.
  pose proof (drops_spaces_get_text (BeautifulSoup html_text)) as Hd.
  split; [split|].
  - intros H. rewrite H in Hd. apply drops_spaces_to_nil. exact Hd.
  - intros H. apply drops_spaces_visible in Hd.
    rewrite (filter_spaces_nil _ H) in Hd.
    assert (Hl : lstrip (get_text_strip (BeautifulSoup html_text))
                 = get_text_strip (BeautifulSoup html_text)).
    { unfold get_text_strip. rewrite join_nil.
      apply concat_stripped. apply all_strings_stripped_pieces. }
    destruct (get_text_strip (BeautifulSoup html_text)) as [|c out]; [reflexivity|].
    apply lstrip_head in Hl. cbn in Hd. rewrite Hl in Hd. discriminate Hd.
  - apply drops_spaces_length. exact Hd.
Qed.

(** *** Whitespace around a reply *)

Lemma rmatch_nil {A : Type} r : forall g (c : str -> option str -> option A),
  (forall g', c [] g' = None) -> rmatch r [] g c = None.
Proof.
  induction r as [l|r IH|k|k|r IH|r1 IH1 r2 IH2]; intros g c Hc; cbn [rmatch].
  - destruct l; cbn; [apply Hc | reflexivity].
  - rewrite IH by exact Hc. apply Hc.
  - cbn. apply Hc.
  - cbn. rewrite Hc. reflexivity.
  - apply IH. intros g'. apply Hc.
  - apply IH1. intros g'. apply IH2. exact Hc.
Qed.

Lemma star_greedy_tail {A : Type} k w (contE cont : str -> option A) :
  (forall r, contE (r ++ [w]) = cont r) -> contE [] = None ->
  forall s, star_greedy k (s ++ [w]) contE = star_greedy k s cont.
Proof.
  intros H1 H2. induction s as [|c s IH].
  - pose proof (H1 []) as H0. cbn [app] in H0. cbn. rewrite H2, H0.
    destruct (in_cls k w); reflexivity.
  - pose proof (H1 (c :: s)) as H0. cbn [app] in H0.
    cbn [app star_greedy]. rewrite IH, H0. reflexivity.
Qed.

Lemma star_lazy_tail {A : Type} k w (contE cont : str -> option A) :
  (forall r, contE (r ++ [w]) = cont r) -> contE [] = None ->
  forall s, star_lazy k (s ++ [w]) contE = star_lazy k s cont.
Proof.
  intros H1 H2. induction s as [|c s IH].
  - pose proof (H1 []) as H0. cbn [app] in H0. cbn. rewrite H2, H0.
    destruct (cont []); [reflexivity|]. destruct (in_cls k w); reflexivity.
  - pose proof (H1 (c :: s)) as H0. cbn [app] in H0.
    cbn [app star_lazy]. rewrite IH, H0. reflexivity.
Qed.

(** One more character at the end of the text, which the literals of
    the pattern do not hold, changes nothing for a pattern that is
    followed by something that does not match it either. *)
Lemma rmatch_tail {A : Type} w r : avoids w r = true ->
  forall s g (contE cont : str -> option str -> option A),
    (forall r0 g0, contE (r0 ++ [w]) g0 = cont r0 g0) ->
    (forall g0, contE [] g0 = None) ->
    rmatch r (s ++ [w]) g contE = rmatch r s g cont.
Proof.
  induction r as [l|r IH|k|k|r IH|r1 IH1 r2 IH2]; cbn [avoids];
    intros Hr s g contE cont H1 H2; cbn [rmatch].
  - rewrite strip_prefix_tail by exact Hr.
    destruct (strip_prefix l s); [apply H1 | reflexivity].
  - rewrite (IH Hr s g contE cont H1 H2). rewrite H1. reflexivity.
  - apply star_greedy_tail; [intros r0; apply H1 | apply H2].
  - apply star_lazy_tail; [intros r0; apply H1 | apply H2].
  - apply IH; [exact Hr | | intros g0; apply H2].
    intros r0 g0. rewrite H1. f_equal. f_equal.
    rewrite !length_app. cbn [length].
    replace (length s + 1 - (length r0 + 1))%nat with (length s - length r0)%nat by lia.
    rewrite firstn_app.
    replace (length s - length r0 - length s)%nat with 0%nat by lia.
    cbn [firstn]. apply app_nil_r.
  - apply andb_true_iff in Hr. destruct Hr as [Hr1 Hr2].
    apply IH1; [exact Hr1 | intros r0 g0; apply IH2; assumption|].
    intros g0. apply rmatch_nil. exact H2.
Qed.

Lemma re_match_fence_tail w s :
  isspace w = true -> re_match FENCE_RE (s ++ [w]) = re_match FENCE_RE s.
Proof.
  intros Hw. unfold re_match.
  assert (Hlit : forall a, isspace a = false -> negb (w =? a) = true).
  { intros a Ha. destruct (N.eqb_spec w a) as [->|]; [congruence | reflexivity]. }
  set (INIT :=
         RSeq (RLit (lit "```"))
           (RSeq (ROpt (RLit (lit "json")))
              (RSeq (RStar CSpace)
                 (RSeq (RGroup (RSeq (RLit (lit "{")) (RSeq (RLazy CAny) (RLit (lit "}")))))
                    (RStar CSpace))))).
  set (K := fun (rest : str) (g : option str) =>
              rmatch (RLit (lit "```")) rest g (fun _ g' => Some g')).
  change (rmatch INIT (s ++ [w]) None K = rmatch INIT s None K).
  apply rmatch_tail.
  - unfold INIT. cbn [avoids].
    change (lit "```") with [96; 96; 96]. change (lit "json") with [106; 115; 111; 110].
    change (lit "{") with [123]. change (lit "}") with [125].
    cbn [forallb]. rewrite !Hlit by reflexivity. reflexivity.
  - intros r0 g0. unfold K. rewrite !rmatch_lit.
    rewrite strip_prefix_tail.
    + destruct (strip_prefix (lit "```") r0); reflexivity.
    + change (lit "```") with [96; 96; 96]. cbn [forallb].
      rewrite !Hlit by reflexivity. reflexivity.
  - intros g0. reflexivity.
Qed.

Lemma re_search_fence_tail w :
  isspace w = true ->
  forall s, re_search FENCE_RE (s ++ [w]) = re_search FENCE_RE s.
Proof.
  intros Hw. induction s as [|c s IH].
  - pose proof (re_match_fence_tail w [] Hw) as H0. cbn [app] in H0.
    cbn [app re_search]. rewrite H0. reflexivity.
  - pose proof (re_match_fence_tail w (c :: s) Hw) as H0. cbn [app] in H0.
    cbn [app re_search]. rewrite H0, IH. reflexivity.
Qed.

Lemma re_search_fence_spaces_after W :
  forallb isspace W = true ->
  forall s, re_search FENCE_RE (s ++ W) = re_search FENCE_RE s.
Proof.
  induction W as [|w W IH]; intros HW s; [rewrite app_nil_r; reflexivity|].
  cbn in HW. apply andb_true_iff in HW. destruct HW as [Hw HW].
  replace (s ++ w :: W) with ((s ++ [w]) ++ W) by (rewrite <- app_assoc; reflexivity).
  rewrite IH by exact HW. apply re_search_fence_tail. exact Hw.
Qed.

Lemma re_search_fence_spaces_before W :
  forallb isspace W = true ->
  forall s, re_search FENCE_RE (W ++ s) = re_search FENCE_RE s.
Proof.
  induction W as [|w W IH]; intros HW s; [reflexivity|].
  cbn in HW. apply andb_true_iff in HW. destruct HW as [Hw HW].
  cbn [app re_search].
  assert (Hm : re_match FENCE_RE (w :: W ++ s) = None).
  { unfold re_match, FENCE_RE. rewrite rmatch_seq, rmatch_lit.
    change (lit "```") with [96; 96; 96]. cbn [strip_prefix].
    destruct (N.eqb_spec w 96) as [->|]; [discriminate Hw | reflexivity]. }
  rewrite Hm. apply IH. exact HW.
Qed.

Lemma strip_spaces_around W W' s :
  forallb isspace W = true -> forallb isspace W' = true ->
  strip (W ++ s ++ W') = strip s.
Proof.
  intros HW HW'. unfold strip. rewrite lstrip_spaces_app by exact HW.
  destruct (lstrip_split s) as (sp & Hs & Hsp).
  pose proof (lstrip_idem s) as Hy.
  destruct (lstrip s) as [|c y] eqn:E.
  - rewrite Hs, app_nil_r.
    rewrite lstrip_spaces_app by exact Hsp.
    pose proof (lstrip_spaces_app W' [] HW') as H0. rewrite app_nil_r in H0.
    rewrite H0. reflexivity.
  - rewrite Hs at 1. rewrite <- app_assoc, lstrip_spaces_app by exact Hsp.
    rewrite lstrip_fixed_app by (discriminate || exact Hy).
    unfold rstrip. rewrite rev_app_distr, lstrip_spaces_app; [reflexivity|].
    rewrite forallb_forall in *. intros x Hx. apply HW'. apply in_rev. exact Hx.
Qed.

(** X15.  Whitespace before and after a reply changes nothing:
    [parse_groq_json] hands the same text to [json.loads], and gives
    the same outcome, for the reply with any whitespace (as
    [str.isspace] has it) added at its start and at its end. *)
Theorem parse_groq_json_ignores_outer_whitespace :
  forall (W raw W' : str) (w : world),
    forallb isspace W = true ->
    forallb isspace W' = true ->
    json_text (W ++ raw ++ W') = json_text raw
    /\ parse_groq_json (W ++ raw ++ W') w = parse_groq_json raw w.
Proof.
  intros W raw W' w HW HW'.
  assert (Ht : json_text (W ++ raw ++ W') = json_text raw).
  { unfold json_text.
    rewrite re_search_fence_spaces_before by exact HW.
    rewrite re_search_fence_spaces_after by exact HW'.
    rewrite strip_spaces_around by assumption. reflexivity. }
  split; [exact Ht|]. rewrite !parse_groq_json_eq, Ht. reflexivity.
Qed.

(** *** Replies without text *)

(** X16.  When the model service raises, returns a completion without
    choices, or returns a first choice without content, the extractor
    raises: the error of the service as it is, [IndexError], or
    [TypeError]; [json.loads] is not reached.  In the loop of [main]
    each of them is one more failure line, and the paper is left out. *)
Theorem summarize_with_groq_without_text :
  forall (p : paper) (w : world) (reply : outcome chat_completion) (e : env)
         (x : exception),
    chat_completions_create (request_of (prompt_of p)) (outside w) = (reply, e) ->
    no_text reply = Some x ->
    summarize_with_groq p w = (Raises x, {| outside := e; stdout := stdout w |})
    /\ summarize_all [p] w
       = (Returns [], {| outside := e; stdout := stdout w ++ [failure_line p x] |}).
Proof.
  intros p w reply e x Hcall Hx.
  assert (Hs : summarize_with_groq p w = (Raises x, {| outside := e; stdout := stdout w |})).
  { unfold summarize_with_groq, bind, call. rewrite Hcall.
    destruct reply as [[[|[raw|] rest]]|x0]; cbn in Hx |- *;
      try discriminate Hx; injection Hx as <-; reflexivity. }
  split; [exact Hs|].
  rewrite summarize_all_calls. cbn [extractor_calls]. rewrite Hs. reflexivity.
Qed.

(** *** What a run has printed *)

Lemma fetch_loop_world entries : forall acc w,
  snd (for_loop entries
         (fun entry papers =>
            t <- getattr (entry_title entry) "title" ;;
            l <- getattr (entry_link entry) "link" ;;
            s <- getattr (entry_summary entry) "summary" ;;
            ret (papers ++ [{| title := t; url := l; abstract := clean_html s |}]))
         acc w)
  = w.
Proof.
  induction entries as [|[[t|] [l|] [s|]] entries IH]; intros acc w; try reflexivity.
  cbn [for_loop]. unfold bind at 1. cbn. apply IH.
Qed.

Lemma fetch_new_io_papers_stdout w :
  stdout (snd (fetch_new_io_papers w)) = stdout w.
Proof.
  unfold fetch_new_io_papers, bind at 1, call.
  destruct (feedparser_parse RSS_URL (outside w)) as [[entries|x] e0]; [|reflexivity].
  rewrite fetch_loop_world. reflexivity.
Qed.

Lemma failures_prefix calls :
  Forall (fun line => exists rest, line = lit "Failed to summarize " ++ rest)
         (failures calls).
Proof.
  induction calls as [|[p [v|x]] calls IH]; cbn [failures]; [constructor | exact IH|].
  constructor; [|exact IH]. unfold failure_line. eexists. reflexivity.
Qed.

(** X17.  The line [Email sent] tells the truth.  When [main] returns,
    the mail relay has accepted the message of a report and left the
    world [main] ends in, and standard output is what it was, then
    failure lines, then the line [Email sent] with the subject of that
    report.  When [main] raises, whatever the exception, it has printed
    failure lines and nothing else. *)
Theorem main_returns_only_after_delivery :
  forall (w w' : world),
    (main w = (Returns tt, w') ->
     exists (r : report) (e : env) (lines : list str),
       smtp_send_message cfg (message_of r) e = (Returns tt, outside w')
       /\ stdout w' = stdout w ++ lines ++ [lit "Email sent: " ++ subject r]
       /\ Forall (fun line => exists rest, line = lit "Failed to summarize " ++ rest) lines)
    /\ (forall x,
          main w = (Raises x, w') ->
          exists lines : list str,
            stdout w' = stdout w ++ lines
            /\ Forall (fun line => exists rest, line = lit "Failed to summarize " ++ rest)
                      lines).
Proof.
  intros w w'.
  assert (Hrun : forall o,
             main w = (o, w') ->
             match o with
             | Returns _ =>
                 exists (r : report) (e : env) (lines : list str),
                   smtp_send_message cfg (message_of r) e = (Returns tt, outside w')
                   /\ stdout w' = stdout w ++ lines ++ [lit "Email sent: " ++ subject r]
                   /\ Forall (fun line => exists rest,
                                 line = lit "Failed to summarize " ++ rest) lines
             | Raises _ =>
                 exists lines : list str,
                   stdout w' = stdout w ++ lines
                   /\ Forall (fun line => exists rest,
                                 line = lit "Failed to summarize " ++ rest) lines
             end).
  { intros o H.
    pose proof (fetch_new_io_papers_stdout w) as Hw1.
    unfold main in H. unfold bind at 1 in H.
    destruct (fetch_new_io_papers w) as [[papers|x0] w1]; cbn [snd] in Hw1.
    - unfold bind at 1 in H. rewrite summarize_all_calls in H.
      pose proof (extractor_calls_stdout papers w1) as Hout.
      destruct (extractor_calls papers w1) as [calls w2]. cbn [fst snd] in H, Hout.
      rewrite Hw1 in Hout.
      unfold bind at 1 in H.
      destruct (build_email_pure (successes calls)) as [o' Ho]. rewrite Ho in H.
      destruct o' as [r|x1].
      + unfold send_email, bind, call, print in H.
        destruct (smtp_send_message cfg
                    {| msg_subject := subject r; msg_from := EMAIL_FROM cfg;
                       msg_to := EMAIL_TO cfg; msg_content := body r |} (outside w2))
          as [[[]|x2] e3] eqn:Es.
        * injection H as <- <-. cbn [outside stdout].
          exists r, (outside w2), (failures calls).
          split; [exact Es|]. split; [|apply failures_prefix].
          rewrite Hout, <- app_assoc. reflexivity.
        * injection H as <- <-. exists (failures calls).
          split; [exact Hout | apply failures_prefix].
      + injection H as <- <-. exists (failures calls).
        split; [exact Hout | apply failures_prefix].
    - injection H as <- <-. exists [].
      split; [rewrite app_nil_r; exact Hw1 | constructor]. }
  split.
  - intros H. apply (Hrun (Returns tt) H).
  - intros x H. apply (Hrun (Raises x) H).
Qed.

End Digest.

(* ===================================================================== *)
(** ** Properties of loading the module *)
(* ===================================================================== *)

(** X18.  The module loads exactly when the text of the port is an
    integer and each of [GROQ_API_KEY], [SMTP_USER], [SMTP_PASSWORD]
    and [EMAIL_TO] is set to a text that is not empty.  A port that is
    no integer stops the load with [ValueError], also when required
    variables are missing; with a port that is an integer, a required
    variable that is unset or empty stops it with [RuntimeError].  After
    a load the four values are those of the environment, the host and
    the port default to [smtp.gmail.com] and 465, and the sender is
    [EMAIL_FROM] when it is set, empty or not, and the user
    otherwise. *)
Theorem load_module_requires_every_secret :
  forall (py_int : str -> option Z) (environ : str -> option str),
    let port_text := environ_get environ "SMTP_PORT" (lit "465") in
    (py_int port_text = None -> load_module py_int environ = ValueError port_text)
    /\ (forall port,
          py_int port_text = Some port ->
          forallb (is_set environ) REQUIRED = false ->
          load_module py_int environ
          = RuntimeError (lit "Missing required environment variables"))
    /\ (forall port,
          py_int port_text = Some port ->
          forallb (is_set environ) REQUIRED = true ->
          exists s,
            load_module py_int environ = Loaded s
            /\ environ (lit "GROQ_API_KEY") = Some (GROQ_API_KEY s)
            /\ environ (lit "SMTP_USER") = Some (SMTP_USER (mail s))
            /\ environ (lit "SMTP_PASSWORD") = Some (SMTP_PASSWORD (mail s))
            /\ environ (lit "EMAIL_TO") = Some (EMAIL_TO (mail s))
            /\ SMTP_PORT (mail s) = port
            /\ SMTP_HOST (mail s) = environ_get environ "SMTP_HOST" (lit "smtp.gmail.com")
            /\ EMAIL_FROM (mail s)
               = environ_get environ "EMAIL_FROM" (SMTP_USER (mail s))).
Proof.
  intros py_int environ port_text. unfold load_module. fold port_text.
  split; [|split].
  - intros H. rewrite H. reflexivity.
  - intros port H Hreq. rewrite H. unfold REQUIRED, is_set in Hreq. cbn [forallb] in Hreq.
    destruct (environ (lit "GROQ_API_KEY")) as [[|k k']|]; try reflexivity.
    destruct (environ (lit "SMTP_USER")) as [[|u u']|]; try reflexivity.
    destruct (environ (lit "SMTP_PASSWORD")) as [[|p p']|]; try reflexivity.
    destruct (environ (lit "EMAIL_TO")) as [[|t t']|]; try reflexivity.
    discriminate Hreq.
  - intros port H Hreq. rewrite H. unfold REQUIRED, is_set in Hreq. cbn [forallb] in Hreq.
    destruct (environ (lit "GROQ_API_KEY")) as [[|k k']|]; try discriminate Hreq.
    destruct (environ (lit "SMTP_USER")) as [[|u u']|]; try discriminate Hreq.
    destruct (environ (lit "SMTP_PASSWORD")) as [[|p p']|]; try discriminate Hreq.
    destruct (environ (lit "EMAIL_TO")) as [[|t t']|]; try discriminate Hreq.
    eexists. repeat split.
Qed.

(* ===================================================================== *)
(** ** The claims on concrete runs *)
(* ===================================================================== *)

(** The scanner and the pattern on small inputs. *)
Example fence_demo :
  re_search FENCE_RE (lit "Sure: ```json {'a': 1} ``` done") = Some (Some (lit "{'a': 1}")).
Proof. vm_compute. reflexivity. Qed.

Example loads_demo :
  json_loads demo_python (dq "{'a': [1, -2.5e3, true, null], 'b': {'c': 'x\ny\u00e9'}, 'a': 'z'} ")
  = Returns (JDict [(lit "a", JStr (lit "z"));
                    (lit "b", JDict [(lit "c", JStr [120; 10; 121; 233])])]).
Proof. vm_compute. reflexivity. Qed.

(** The whole of [main] on a feed of three entries, the second of which
    the model service fails on. *)
Example main_demo :
  main script script_parse script_create script_deliver simple_parser
    plain_repr plain_repr class_of demo_config demo_python
    {| outside :=
         {| feed := [ full_entry (lit "Merger Effects in Airlines", lit "https://x/1",
                                  lit "<p>We study...</p>");
                      full_entry (lit "Entry Deterrence", lit "https://x/2", lit "We test...");
                      full_entry (lit "Platform Fees", lit "https://x/3", lit "We measure...") ];
            replies := replies three_replies;
            outbox := [] |};
       stdout := [] |}
  = (Returns tt,
     {| outside :=
          {| feed := [ full_entry (lit "Merger Effects in Airlines", lit "https://x/1",
                                   lit "<p>We study...</p>");
                       full_entry (lit "Entry Deterrence", lit "https://x/2", lit "We test...");
                       full_entry (lit "Platform Fees", lit "https://x/3", lit "We measure...") ];
             replies := [];
             outbox :=
               [ {| msg_subject := lit "NBER IO Digest: 2 new papers";
                    msg_from := lit "u"; msg_to := lit "to";
                    msg_content :=
                      join [LF]
                        [ lit "This week's NBER Industrial Organization papers:"; [];
                          lit "1. Merger Effects in Airlines"; lit "URL: https://x/1";
                          lit "Research question: Q"; lit "Method: M"; lit "Data: D";
                          lit "Main result: R"; []; [];
                          lit "2. Platform Fees"; lit "URL: https://x/3";
                          lit "Research question: N/A"; lit "Method: IV";
                          lit "Data: Scanner data"; lit "Main result: N/A"; []; [] ] |} ] |};
        stdout := [ lit "Failed to summarize Entry Deterrence: APIConnectionError";
                    lit "Email sent: NBER IO Digest: 2 new papers" ] |}).
Proof. vm_compute. reflexivity. Qed.

(** C1 on three papers: the second call fails, the first and the third
    entries are returned, one line is printed. *)
Lemma summarize_all_three_papers :
  summarize_all script script_create class_of demo_python [paper_a; paper_b; paper_c]
    {| outside := three_replies; stdout := [] |}
  = (Returns [ {| entry_paper := paper_a; entry_summary_of := JDict summary_a |};
               {| entry_paper := paper_c; entry_summary_of := JDict summary_c |} ],
     {| outside := no_replies;
        stdout := [lit "Failed to summarize Entry Deterrence: APIConnectionError"] |}).
Proof.
  destruct (summarize_all_isolates_failures script script_create class_of demo_python
              [paper_a; paper_b; paper_c] {| outside := three_replies; stdout := [] |})
    as (_ & _ & _ & H).
  edestruct (H paper_a paper_b paper_c) as [Hr _];
    [reflexivity | lazy; reflexivity | lazy; reflexivity | lazy; reflexivity |].
  exact Hr.
Defined.

(** C2 on a fence with prose before and after it, on a fence around
    an object that holds three backticks in a row in a field, and on
    bare JSON with whitespace around it. *)
Lemma parse_groq_json_prose_and_bare :
  parse_groq_json unit demo_python
    (lit "Here is the JSON:" ++ [LF] ++ fenced (123 :: fields_a ++ [125])
     ++ [LF] ++ lit "Let me know if you need more.")
    {| outside := tt; stdout := [] |}
  = (Returns (JDict summary_a), {| outside := tt; stdout := [] |})
  /\ parse_groq_json unit demo_python (fenced object_with_backticks)
       {| outside := tt; stdout := [] |}
     = (Returns (JDict [(lit "method", JStr (lit "run ```sh``` first"))]),
        {| outside := tt; stdout := [] |})
  /\ parse_groq_json unit demo_python (dq " {'method': 'IV', 'data': 'Scanner data'} ")
       {| outside := tt; stdout := [] |}
     = (Returns (JDict summary_c), {| outside := tt; stdout := [] |}).
Proof.
  split; [|split].
  - refine (eq_trans
              (proj2 (proj1 (proj2 (proj2
                 (parse_groq_json_fenced_or_bare unit demo_python
                    (lit "Here is the JSON:" ++ [LF] ++ fenced (123 :: fields_a ++ [125])
                     ++ [LF] ++ lit "Let me know if you need more.")
                    {| outside := tt; stdout := [] |})))
                 (lit "Here is the JSON:" ++ [LF]) (lit "json") [LF] fields_a
                 ([LF] ++ lit "```" ++ [LF] ++ lit "Let me know if you need more.")
                 eq_refl (or_intror eq_refl) eq_refl eq_refl _) _) _).
    + apply fence_inside_false. vm_compute. reflexivity.
    + apply early_close_false. vm_compute. reflexivity.
    + vm_compute. reflexivity.
  - refine (eq_trans
              (proj2 (proj1 (proj2 (proj2
                 (parse_groq_json_fenced_or_bare unit demo_python
                    (fenced object_with_backticks)
                    {| outside := tt; stdout := [] |})))
                 [] (lit "json") [LF] (dq "'method': 'run ```sh``` first'")
                 ([LF] ++ lit "```")
                 eq_refl (or_intror eq_refl) eq_refl eq_refl _) _) _).
    + apply fence_inside_false. vm_compute. reflexivity.
    + apply early_close_false. vm_compute. reflexivity.
    + vm_compute. reflexivity.
  - apply (proj2 (proj2 (proj2 (proj2 (proj2 (proj2 (proj2 (proj2
             (parse_groq_json_fenced_or_bare unit demo_python
                (dq " {'method': 'IV', 'data': 'Scanner data'} ")
                {| outside := tt; stdout := [] |})))))))));
      vm_compute; reflexivity.
Defined.

(** C2 refuted as stated: a reply that is exactly a fence around an
    object with the four fields, which [json.loads] reads as a mapping,
    and on which [parse_groq_json] raises: the pattern stops at the
    closing brace inside the text of a field. *)
Lemma fence_cut_inside_string :
  json_loads demo_python object_with_fence_inside
  = Returns (JDict [ (lit "research_question", JStr (lit "Q"));
                     (lit "method", JStr (lit "M}```"));
                     (lit "data", JStr (lit "D"));
                     (lit "main_result", JStr (lit "R")) ])
  /\ parse_groq_json unit demo_python (fenced object_with_fence_inside)
       {| outside := tt; stdout := [] |}
     = (Raises (JSONDecodeError (dq "{'research_question':'Q','method':'M}")),
        {| outside := tt; stdout := [] |}).
Proof. split; vm_compute; reflexivity. Qed.


(** C3 refuted as stated: [NaN] is not a JSON text, and it is the
    candidate text of the reply [NaN], on which [parse_groq_json]
    returns a value and the extractor with it. *)
Lemma nan_is_not_json_and_parses :
  candidate (lit "NaN") = lit "NaN"
  /\ ~ rfc_json (lit "NaN")
  /\ parse_groq_json script demo_python (lit "NaN")
       {| outside := no_replies; stdout := [] |}
     = (Returns (JFloat (lit "NaN")), {| outside := no_replies; stdout := [] |})
  /\ summarize_with_groq script script_create demo_python paper_b
       {| outside := one_reply (lit "NaN"); stdout := [] |}
     = (Returns (JFloat (lit "NaN")), {| outside := no_replies; stdout := [] |}).
Proof.
  split; [vm_compute; reflexivity|]. split; [exact nan_not_rfc_json|].
  split; vm_compute; reflexivity.
Qed.

(** C4 on a mapping that holds [method] only. *)
Lemma build_email_method_only :
  nth_error
    ((HEADER ++ [LF])
     :: concat (map (fun item => block_lines plain_repr plain_repr item ++ [[LF]])
                  (enumerate [(paper_a, [(lit "method", JStr (lit "M"))])] 1)))
    3
  = Some (lit "Research question: N/A")
  /\ nth_error
       ((HEADER ++ [LF])
        :: concat (map (fun item => block_lines plain_repr plain_repr item ++ [[LF]])
                     (enumerate [(paper_a, [(lit "method", JStr (lit "M"))])] 1)))
       4
     = Some (lit "Method: M").
Proof.
  split.
  - exact (proj2 (proj2 (proj2
             (build_email_placeholder_for_missing unit plain_repr plain_repr
                [(paper_a, [(lit "method", JStr (lit "M"))])]
                {| outside := tt; stdout := [] |} 0 0 paper_a
                [(lit "method", JStr (lit "M"))]
                (lit "Research question") (lit "research_question")
                eq_refl eq_refl)))).
  - exact (proj2 (proj2 (proj2
             (build_email_placeholder_for_missing unit plain_repr plain_repr
                [(paper_a, [(lit "method", JStr (lit "M"))])]
                {| outside := tt; stdout := [] |} 0 1 paper_a
                [(lit "method", JStr (lit "M"))]
                (lit "Method") (lit "method")
                eq_refl eq_refl)))).
Defined.

(** C7 refuted as stated: on two entries the body has two blank lines
    between the blocks, and is not the text with one. *)
Lemma one_blank_line_refuted :
  (exists r,
      build_email unit plain_repr plain_repr (map entry_of two_entries)
        {| outside := tt; stdout := [] |}
      = (Returns r, {| outside := tt; stdout := [] |})
      /\ body r
         = join [LF]
             [ lit "This week's NBER Industrial Organization papers:"; [];
               lit "1. Merger Effects in Airlines"; lit "URL: https://x/1";
               lit "Research question: Q"; lit "Method: M"; lit "Data: D";
               lit "Main result: R"; []; [];
               lit "2. Entry Deterrence"; lit "URL: https://x/2";
               lit "Research question: N/A"; lit "Method: IV";
               lit "Data: Scanner data"; lit "Main result: N/A"; []; [] ])
  /\ ~ (exists r trailer,
          build_email unit plain_repr plain_repr (map entry_of two_entries)
            {| outside := tt; stdout := [] |}
          = (Returns r, {| outside := tt; stdout := [] |})
          /\ body r
             = HEADER ++ [LF; LF]
               ++ join [LF; LF]
                    (map (fun item => join [LF] (block_lines plain_repr plain_repr item))
                       (enumerate two_entries 1))
               ++ trailer).
Proof.
  split.
  - eexists. split; vm_compute; reflexivity.
  - intros (r & trailer & Hr & Hbody).
    vm_compute in Hr. injection Hr as <-.
    vm_compute in Hbody. discriminate Hbody.
Qed.


(** C10 on a reply that is a JSON array. *)
Lemma array_reply_breaks_composer :
  parse_groq_json script demo_python (lit "[1, 2]") {| outside := no_replies; stdout := [] |}
  = (Returns (JList [JInt 1; JInt 2]), {| outside := no_replies; stdout := [] |})
  /\ build_email script plain_repr plain_repr
       [ {| entry_paper := paper_a; entry_summary_of := JList [JInt 1; JInt 2] |} ]
       {| outside := no_replies; stdout := [] |}
     = (Raises (AttributeError (lit "list") (lit "get")),
        {| outside := no_replies; stdout := [] |}).
Proof.
  destruct (non_mapping_reply_breaks_composer script script_create plain_repr plain_repr
              demo_python
              (lit "[1, 2]") (JList [JInt 1; JInt 2])
              {| outside := no_replies; stdout := [] |} eq_refl eq_refl)
    as (Hparse & _ & Hbuild & _).
  split; [exact Hparse | apply Hbuild].
Defined.

(* ===================================================================== *)
(** ** Further properties on concrete runs *)
(* ===================================================================== *)

(** X1 on a feed whose second entry has no summary: no paper is
    returned, the first entry included. *)
Lemma fetch_new_io_papers_entry_without_summary :
  fetch_new_io_papers script script_parse simple_parser (start broken_feed [])
  = (Raises (AttributeError (lit "FeedParserDict") (lit "summary")), start broken_feed []).
Proof.
  apply (proj1 (proj2 (fetch_new_io_papers_all_or_nothing script script_parse simple_parser
                         (start broken_feed [])))
           [(lit "Merger Effects in Airlines", lit "https://x/1", lit "We study...")]
           {| entry_title := Some (lit "Entry Deterrence");
              entry_link := Some (lit "https://x/2");
              entry_summary := None |}
           [ {| entry_title := Some (lit "Platform Fees");
                entry_link := Some (lit "https://x/3");
                entry_summary := Some (lit "We measure...") |} ]);
    reflexivity.
Defined.

(** X4 on an entry with another abstract, whose mapping has its keys
    in another order and a key outside the schema. *)
Lemma build_email_extra_key :
  build_email unit plain_repr plain_repr
    (map entry_of
       [ ({| title := lit "Merger Effects in Airlines"; url := lit "https://x/1";
             abstract := [] |},
          [ (lit "main_result", JStr (lit "R")); (lit "confidence", JInt 9);
            (lit "data", JStr (lit "D")); (lit "method", JStr (lit "M"));
            (lit "research_question", JStr (lit "Q")) ]) ])
    {| outside := tt; stdout := [] |}
  = build_email unit plain_repr plain_repr (map entry_of [(paper_a, summary_a)])
      {| outside := tt; stdout := [] |}.
Proof.
  apply build_email_reads_schema_keys_only.
  constructor; [|constructor]. split; [reflexivity|]. split; [reflexivity|].
  intros label key Hin.
  repeat (destruct Hin as [Hin|Hin]; [injection Hin as <- <-; reflexivity|]).
  destruct Hin.
Defined.

(** X5 on a mapping, then a text, then a list: the error names the
    text. *)
Lemma build_email_text_before_list :
  build_email unit plain_repr plain_repr
    (map entry_of [(paper_a, summary_a)]
     ++ {| entry_paper := paper_b; entry_summary_of := JStr (lit "No abstract.") |}
     :: [ {| entry_paper := paper_c; entry_summary_of := JList [] |} ])
    {| outside := tt; stdout := [] |}
  = (Raises (AttributeError (lit "str") (lit "get")), {| outside := tt; stdout := [] |}).
Proof.
  apply (build_email_first_non_mapping unit plain_repr plain_repr
           [(paper_a, summary_a)] paper_b (JStr (lit "No abstract."))).
  reflexivity.
Defined.

(** X6 on the feed of three entries, the second of which the model
    service fails on. *)
Lemma main_delivers_two_of_three :
  main script script_parse script_create script_deliver simple_parser
    plain_repr plain_repr class_of demo_config demo_python
    (start (map full_entry three_entries) (replies three_replies))
  = (Returns tt,
     {| outside :=
          {| feed := map full_entry three_entries; replies := [];
             outbox := [message_of demo_config report_a_c] |};
        stdout := [ lit "Failed to summarize Entry Deterrence: APIConnectionError";
                    lit "Email sent: NBER IO Digest: 2 new papers" ] |}).
Proof.
  refine (eq_trans
            (main_delivers_report script script_parse script_create script_deliver
               simple_parser plain_repr plain_repr class_of demo_config demo_python
               (start (map full_entry three_entries) (replies three_replies))
               three_entries
               {| feed := map full_entry three_entries; replies := replies three_replies;
                  outbox := [] |}
               {| feed := map full_entry three_entries; replies := [];
                  outbox := [message_of demo_config report_a_c] |}
               report_a_c _ _ _) _);
    vm_compute; reflexivity.
Defined.

(** X7 on the feed of three entries when the model service answers no
    request: the mail says that there are no new papers. *)
Lemma main_three_failures :
  main script script_parse script_create script_deliver simple_parser
    plain_repr plain_repr class_of demo_config demo_python
    (start (map full_entry three_entries) [])
  = (Returns tt,
     {| outside :=
          {| feed := map full_entry three_entries; replies := [];
             outbox :=
               [ {| msg_subject := lit "NBER IO Digest: No new papers this week";
                    msg_from := lit "u"; msg_to := lit "to";
                    msg_content :=
                      lit "There are no new Industrial Organization papers this week." |} ] |};
        stdout := [ lit "Failed to summarize Merger Effects in Airlines: APITimeoutError";
                    lit "Failed to summarize Entry Deterrence: APITimeoutError";
                    lit "Failed to summarize Platform Fees: APITimeoutError";
                    lit "Email sent: NBER IO Digest: No new papers this week" ] |}).
Proof.
  refine (eq_trans
            (proj1
               (main_reports_no_papers_when_all_fail script script_parse script_create
                  script_deliver simple_parser plain_repr plain_repr class_of demo_config demo_python
                  (start (map full_entry three_entries) [])
                  three_entries
                  {| feed := map full_entry three_entries; replies := []; outbox := [] |}
                  {| feed := map full_entry three_entries; replies := [];
                     outbox := [message_of demo_config NO_PAPERS] |}
                  _ _ _)) _);
    vm_compute; reflexivity.
Defined.

(** X8 on the feed whose second entry has no summary: the replies of
    the model service are all still to come, and no mail was sent. *)
Lemma main_entry_without_summary :
  main script script_parse script_create script_deliver simple_parser
    plain_repr plain_repr class_of demo_config demo_python
    (start broken_feed (replies three_replies))
  = (Raises (AttributeError (lit "FeedParserDict") (lit "summary")),
     start broken_feed (replies three_replies)).
Proof.
  apply (proj2 (main_stops_at_the_feed script script_parse script_create script_deliver
                  simple_parser plain_repr plain_repr class_of demo_config demo_python
                  (start broken_feed (replies three_replies)))
           [(lit "Merger Effects in Airlines", lit "https://x/1", lit "We study...")]
           {| entry_title := Some (lit "Entry Deterrence");
              entry_link := Some (lit "https://x/2");
              entry_summary := None |}
           [ {| entry_title := Some (lit "Platform Fees");
                entry_link := Some (lit "https://x/3");
                entry_summary := Some (lit "We measure...") |} ]);
    reflexivity.
Defined.

(** X9 on three replies the second of which is a JSON array: the three
    requests were made, and no mail was sent. *)
Lemma main_array_reply :
  exists t,
    main script script_parse script_create script_deliver simple_parser
      plain_repr plain_repr class_of demo_config demo_python
      (start (map full_entry three_entries) array_among_replies)
    = (Raises (AttributeError t (lit "get")), start (map full_entry three_entries) []).
Proof.
  destruct (main_fails_on_non_mapping_summary script script_parse script_create
              script_deliver simple_parser plain_repr plain_repr class_of demo_config demo_python
              (start (map full_entry three_entries) array_among_replies)
              three_entries
              {| feed := map full_entry three_entries; replies := array_among_replies;
                 outbox := [] |}
              {| title := lit "Entry Deterrence"; url := lit "https://x/2";
                 abstract := lit "We test..." |}
              (JList [JInt 1; JInt 2]))
    as [t [Hmain _]].
  - reflexivity.
  - vm_compute. right. left. reflexivity.
  - reflexivity.
  - exists t. exact Hmain.
Defined.

(** X10 on a mail relay that refuses the login. *)
Lemma main_login_refused :
  main script script_parse script_create script_refuse simple_parser
    plain_repr plain_repr class_of demo_config demo_python
    (start (map full_entry three_entries) (replies three_replies))
  = (Raises (LibraryError (lit "SMTPAuthenticationError")
               (lit "Username and Password not accepted")),
     {| outside := {| feed := map full_entry three_entries; replies := []; outbox := [] |};
        stdout := [lit "Failed to summarize Entry Deterrence: APIConnectionError"] |}).
Proof.
  refine (eq_trans
            (main_delivery_failure script script_parse script_create script_refuse
               simple_parser plain_repr plain_repr class_of demo_config demo_python
               (start (map full_entry three_entries) (replies three_replies))
               three_entries
               {| feed := map full_entry three_entries; replies := replies three_replies;
                  outbox := [] |}
               {| feed := map full_entry three_entries; replies := []; outbox := [] |}
               report_a_c
               (LibraryError (lit "SMTPAuthenticationError")
                  (lit "Username and Password not accepted"))
               _ _ _) _);
    vm_compute; reflexivity.
Defined.

(** X11 on a fence inside a sentence. *)
Lemma fence_in_a_sentence :
  exists P tag W1 X W2 S,
    lit "Sure: ```json {'a': 1} ``` done"
    = P ++ lit "```" ++ tag ++ W1 ++ 123 :: X ++ 125 :: W2 ++ lit "```" ++ S
    /\ (tag = [] \/ tag = lit "json")
    /\ forallb isspace W1 = true /\ forallb isspace W2 = true
    /\ Some (lit "{'a': 1}") = Some (123 :: X ++ [125])
    /\ json_text (lit "Sure: ```json {'a': 1} ``` done") = 123 :: X ++ [125].
Proof.
  apply (proj2 (fence_match_shape (lit "Sure: ```json {'a': 1} ``` done"))
           (Some (lit "{'a': 1}"))).
  vm_compute. reflexivity.
Defined.


(** X13 on a reply that gives a key twice. *)
Lemma repeated_key_kept_once :
  distinct_keys (JDict [(lit "method", JStr (lit "IV")); (lit "data", JStr (lit "D"))]).
Proof.
  apply (proj1 (proj1 (extractor_mappings_have_distinct_keys unit
                         (fun _ e => (Raises (IndexError []), e)) class_of demo_python
                         {| outside := tt; stdout := [] |})
                  (dq "{'method': 'OLS', 'data': 'D', 'method': 'IV'}")
                  (JDict [(lit "method", JStr (lit "IV")); (lit "data", JStr (lit "D"))])
                  {| outside := tt; stdout := [] |}
                  eq_refl)).
Defined.

(** X15 on a fenced reply between a line feed with a no-break space
    and a tab. *)
Lemma parse_groq_json_padded :
  parse_groq_json unit demo_python
    ([10; 160] ++ fenced (123 :: fields_a ++ [125]) ++ [9])
    {| outside := tt; stdout := [] |}
  = parse_groq_json unit demo_python (fenced (123 :: fields_a ++ [125]))
      {| outside := tt; stdout := [] |}.
Proof.
  apply (proj2 (parse_groq_json_ignores_outer_whitespace unit demo_python [10; 160]
                  (fenced (123 :: fields_a ++ [125])) [9]
                  {| outside := tt; stdout := [] |} eq_refl eq_refl)).
Defined.

(** X16 on a completion without choices. *)
Lemma summarize_with_groq_no_choices :
  summarize_with_groq unit (fun _ e => (Returns {| choices := [] |}, e)) demo_python paper_a
    {| outside := tt; stdout := [] |}
  = (Raises (IndexError (lit "list index out of range")), {| outside := tt; stdout := [] |})
  /\ summarize_all unit (fun _ e => (Returns {| choices := [] |}, e)) class_of demo_python
       [paper_a]
       {| outside := tt; stdout := [] |}
     = (Returns [],
        {| outside := tt;
           stdout := [failure_line class_of paper_a
                        (IndexError (lit "list index out of range"))] |}).
Proof.
  apply (summarize_with_groq_without_text unit
           (fun _ e => (Returns {| choices := [] |}, e)) class_of demo_python paper_a
           {| outside := tt; stdout := [] |} (Returns {| choices := [] |}) tt);
    reflexivity.
Defined.

(** X17 on the run that delivers two of three papers. *)
Lemma main_two_of_three_was_delivered :
  exists (r : report) (e : script) (lines : list str),
    script_deliver demo_config (message_of demo_config r) e
    = (Returns tt,
       {| feed := map full_entry three_entries; replies := [];
          outbox := [message_of demo_config report_a_c] |})
    /\ [ lit "Failed to summarize Entry Deterrence: APIConnectionError";
         lit "Email sent: NBER IO Digest: 2 new papers" ]
       = [] ++ lines ++ [lit "Email sent: " ++ subject r]
    /\ Forall (fun line => exists rest, line = lit "Failed to summarize " ++ rest) lines.
Proof.
  apply (proj1
           (main_returns_only_after_delivery script script_parse script_create
              script_deliver simple_parser plain_repr plain_repr class_of demo_config demo_python
              (start (map full_entry three_entries) (replies three_replies))
              {| outside :=
                   {| feed := map full_entry three_entries; replies := [];
                      outbox := [message_of demo_config report_a_c] |};
                 stdout := [ lit "Failed to summarize Entry Deterrence: APIConnectionError";
                             lit "Email sent: NBER IO Digest: 2 new papers" ] |})).
  vm_compute. reflexivity.
Defined.

(** X18 on an environment with the four required variables only, and
    on the same with an empty password. *)
Lemma load_module_defaults :
  (exists s,
      load_module int_of_decimal demo_environ = Loaded s
      /\ demo_environ (lit "GROQ_API_KEY") = Some (GROQ_API_KEY s)
      /\ demo_environ (lit "SMTP_USER") = Some (SMTP_USER (mail s))
      /\ demo_environ (lit "SMTP_PASSWORD") = Some (SMTP_PASSWORD (mail s))
      /\ demo_environ (lit "EMAIL_TO") = Some (EMAIL_TO (mail s))
      /\ SMTP_PORT (mail s) = 465%Z
      /\ SMTP_HOST (mail s) = environ_get demo_environ "SMTP_HOST" (lit "smtp.gmail.com")
      /\ EMAIL_FROM (mail s) = environ_get demo_environ "EMAIL_FROM" (SMTP_USER (mail s)))
  /\ load_module int_of_decimal environ_empty_password
     = RuntimeError (lit "Missing required environment variables").
Proof.
  split.
  - apply (proj2 (proj2 (load_module_requires_every_secret int_of_decimal demo_environ)));
      vm_compute; reflexivity.
  - apply (proj1 (proj2 (load_module_requires_every_secret int_of_decimal
                           environ_empty_password)) 465%Z);
      vm_compute; reflexivity.
Defined.
